(** * Key-chord binder of clink (lib/src/binder.cpp)

    A shallow embedding of the chord translator, the bump allocator over the
    fixed node pool, the group list and the trie construction done by
    [binder::bind], followed by the properties established about them.

    Conventions of the embedding.
    - A [char] is an integer in [0, 255]; the source's signed test [c < 0]
      is the test [128 <= c] on this representation.
    - A C string is the list of its characters; reading at its end yields the
      terminating 0, so [*p] is [hd 0 p] and [++p] is [tl p].
    - Indices ([int], [unsigned int]) are integers of [Z].
    - [binder.h], [core/str_hash.h] and [core/array.h] are outside the
      translated file: the pool capacity, the registry capacity and the hash
      function are parameters of the development.  The fields of a node and
      the cursor [m_next_node] are declared there as well; they are modelled
      as integers wide enough for the values stored in them, so a cursor
      that wraps around after some 2^32 failed allocations is outside the
      model; the properties of the allocator itself are stated for cursors
      and counts whose sum stays in the range of [unsigned int]. *)

From Stdlib Require Import ZArith Bool Lia Ascii String List Sorted.
Import ListNotations.
Open Scope Z_scope.

(** ** Characters and C strings *)

Definition code (a : ascii) : Z := Z.of_nat (nat_of_ascii a).

Fixpoint cstr (s : string) : list Z :=
  match s with
  | EmptyString => []
  | String a s' => code a :: cstr s'
  end.

Definition BACKSLASH : Z := Eval cbv in code "\".
Definition CARET : Z := Eval cbv in code "^".
Definition DASH : Z := Eval cbv in code "-".
Definition ESC : Z := 27.
Definition LETTER_M : Z := Eval cbv in code "M".
Definition LETTER_C : Z := Eval cbv in code "C".
Definition LETTER_e : Z := Eval cbv in code "e".
Definition LETTER_t : Z := Eval cbv in code "t".
Definition LETTER_n : Z := Eval cbv in code "n".
Definition LETTER_r : Z := Eval cbv in code "r".
Definition DIGIT_0 : Z := Eval cbv in code "0".

(** The characters of a buffer up to its first zero byte: what a reader of
    the buffer as a C string sees. *)
Fixpoint c_string (buf : list Z) : list Z :=
  match buf with
  | [] => []
  | c :: rest => if c =? 0 then [] else c :: c_string rest
  end.

(** [out[i] = v] on a buffer; an index outside the buffer leaves the model's
    buffer as it is (in C++ such a store is undefined behaviour, and the
    functions below report the index so that it can be checked). *)
Fixpoint poke (out : list Z) (i v : Z) : list Z :=
  match out with
  | [] => []
  | c :: rest => if i =? 0 then v :: rest else c :: poke rest (i - 1) v
  end.

(** ** translate_chord *)

(** The [switch] on the character that follows a backslash, for the cases
    that store one byte and [break]. *)
Definition escape_byte (c : Z) : Z :=
  if c =? LETTER_e then ESC
  else if c =? LETTER_t then 9
  else if c =? LETTER_n then 10
  else if c =? LETTER_r then 13
  else if c =? DIGIT_0 then 0
  else c.

(** The [for] loop of [translate_chord]: [chord] is the text still to read,
    [i] the output index.  The result is [None] for [return false], and
    otherwise the buffer and the value of [i] when the loop is left. *)
Fixpoint translate_loop (SIZE : Z) (chord : list Z) (i : Z) (out : list Z)
  : option (list Z * Z) :=
  match chord with
  | [] => Some (out, i)
  | c :: rest =>
    if negb (i <? SIZE - 1) || (c =? 0) then Some (out, i)
    else if negb (c =? BACKSLASH) && negb (c =? CARET) then
      translate_loop SIZE rest (i + 1) (poke out i c)
    else if c =? CARET then
      translate_loop SIZE rest (i + 1) (poke out i (Z.land c 31))
    else
      (* ++chord; switch ( *chord ) *)
      match rest with
      | [] =>
        (* case 0: i = SIZE; continue; the increment makes it SIZE + 1 and
           the loop test [i < SIZE - 1] fails *)
        Some (out, SIZE + 1)
      | d :: rest' =>
        if d =? 0 then translate_loop SIZE rest' (SIZE + 1) out
        else if d =? LETTER_M then
          match rest' with
          | m :: rest'' =>
            if m =? DASH then translate_loop SIZE rest'' (i + 1) (poke out i ESC)
            else None
          | [] => None
          end
        else if d =? LETTER_C then
          match rest' with
          | m :: rest'' =>
            if m =? DASH then
              (* ++chord; out[i] = *chord & 0x1f; with chord on the dash *)
              translate_loop SIZE rest'' (i + 1) (poke out i (Z.land m 31))
            else None
          | [] => None
          end
        else translate_loop SIZE rest' (i + 1) (poke out i (escape_byte d))
      end
  end.

(** A character that the translator copies as it is. *)
Definition plain (c : Z) : Prop := c <> 0 /\ c <> BACKSLASH /\ c <> CARET.

(** A finished translation: the buffer, and the index at which the final
    [out[i] = 0] is stored. *)
Record translation : Type := mk_translation {
  tr_out : list Z;
  tr_end : Z
}.

Definition translate_chord (SIZE : Z) (chord : list Z) (out : list Z)
  : option translation :=
  match translate_loop SIZE chord 0 out with
  | None => None
  | Some (o, i) => Some (mk_translation (poke o i 0) i)
  end.

(** The terminating store is inside the buffer [char out[SIZE]]. *)
Definition terminated_in_bounds (SIZE : Z) (t : translation) : Prop :=
  0 <= tr_end t < SIZE.

(** The key bytes a successful translation hands to its caller. *)
Definition translated_keys (SIZE : Z) (chord out : list Z) : option (list Z) :=
  match translate_chord SIZE chord out with
  | None => None
  | Some t => Some (c_string (tr_out t))
  end.

(** ** Outcomes

    A call either returns, or runs into behaviour the C++ standard leaves
    undefined (a store or load outside a local buffer, a null dereference),
    or is cut off because a loop used up the fuel of the model. *)

Inductive outcome (A : Type) : Type :=
| Ret (a : A)
| Undefined
| Timeout.

Arguments Ret {A} a.
Arguments Undefined {A}.
Arguments Timeout {A}.

Definition obind {A B : Type} (m : outcome A) (k : A -> outcome B) : outcome B :=
  match m with
  | Ret a => k a
  | Undefined => Undefined
  | Timeout => Timeout
  end.

Notation "x <- m ;; k" := (obind m (fun x => k))
  (at level 61, m at next level, right associativity).
Notation "' p <- m ;; k" := (obind m (fun p => k))
  (at level 61, p pattern, m at next level, right associativity).

(** ** Nodes

    One pool slot.  [binder.h] declares two views of a slot, [node] and
    [group_node], of equal size; both have [is_group] and [next].  How the
    four hash bytes of the group view lie over the remaining fields of the
    trie view is a matter of the declaration, which is not modelled: [hash]
    is a field of its own, and the results below read the trie fields of
    trie slots and the hash of group-list slots only. *)

Record node : Type := mk_node {
  is_group : bool;
  next : Z;
  backend : Z;
  child : Z;
  depth : Z;
  bound : bool;
  key : Z;
  id : Z;
  hash : Z
}.

(** [node x = {}] *)
Definition zero_node : node := mk_node false 0 0 0 0 false 0 0 0.

(** Modelled from the spec: the aggregate [{ 1 }] sets the first declared
    member of [node], declared in [binder.h]; slot 0 is the head sentinel of
    the group list, whose [next] is 0 while no group exists, so the member
    set is the [is_group] flag. *)
Definition sentinel_node : node := mk_node true 0 0 0 0 false 0 0 0.

Definition set_next (n : node) (v : Z) : node :=
  mk_node (is_group n) v (backend n) (child n) (depth n) (bound n) (key n) (id n) (hash n).
Definition set_child (n : node) (v : Z) : node :=
  mk_node (is_group n) (next n) (backend n) v (depth n) (bound n) (key n) (id n) (hash n).
Definition set_key (n : node) (v : Z) : node :=
  mk_node (is_group n) (next n) (backend n) (child n) (depth n) (bound n) v (id n) (hash n).
Definition set_group (n : node) (h : Z) : node :=
  mk_node true (next n) (backend n) (child n) (depth n) (bound n) (key n) (id n) h.
Definition set_binding (n : node) (b d i : Z) : node :=
  mk_node (is_group n) (next n) b (child n) d true (key n) i (hash n).

(** The pool as a map from indices; [upd] is the store [m_nodes[i] = v]. *)
Definition pool : Type := Z -> node.

Definition upd (m : pool) (i : Z) (v : node) : pool :=
  fun j => if j =? i then v else m j.

Record binder : Type := mk_binder {
  m_nodes : pool;
  m_next_node : Z;
  m_backends : list Z
}.

Definition with_nodes (s : binder) (m : pool) : binder :=
  mk_binder m (m_next_node s) (m_backends s).

(** What the translated file takes from its headers and its caller:
    [sizeof_array(m_nodes)], the capacity of the handler registry
    ([binder.h]), the hash of [core/str_hash.h], and the contents the 64-byte
    local buffer of [bind] happens to hold on entry. *)
Record config : Type := mk_config {
  capacity : Z;
  backend_capacity : Z;
  str_hash : list Z -> Z;
  translated0 : list Z
}.

Section Binder.

Variable cfg : config.

(** [binder::binder()], on a pool whose other slots hold [mem]. *)
Definition new_binder (mem : pool) : binder :=
  mk_binder (upd (upd mem 0 sentinel_node) 1 zero_node) 2 [].

(** [binder::alloc_nodes].  The source adds the [unsigned int count] to the
    cursor in unsigned arithmetic; the sum below is that sum as long as it
    stays in the range of [unsigned int], which [in_uint_range] says of a
    cursor and a count. *)
Definition alloc_nodes (s : binder) (count : Z) : Z * binder :=
  let s' := mk_binder (m_nodes s) (m_next_node s + count) (m_backends s) in
  (if m_next_node s' <? capacity cfg then m_next_node s' - count else -1, s').

(** The number of values of an [unsigned int], 32 bits wide on the targets of
    the program. *)
Definition UINT_RANGE : Z := 4294967296.

(** The cursor of [s] is a value of the type, and adding [count] to it does
    not wrap around. *)
Definition in_uint_range (s : binder) (count : Z) : Prop :=
  0 <= m_next_node s /\ 0 <= count /\ m_next_node s + count < UINT_RANGE.

(** Enough iterations for any walk over distinct slots of the pool. *)
Definition pool_fuel : nat := S (Z.to_nat (capacity cfg)).

(** [binder::get_group_node] returns a null pointer outside the pool. *)
Definition in_pool (index : Z) : bool := (0 <=? index) && (index <? capacity cfg).

(** [binder::get_group]: the [while (index)] loop. *)
Fixpoint get_group_loop (fuel : nat) (m : pool) (h index : Z) : outcome Z :=
  match fuel with
  | O => Timeout
  | S fuel' =>
    if index =? 0 then Ret (-1)
    else if negb (in_pool index) then Undefined
    else if hash (m index) =? h then Ret index
    else get_group_loop fuel' m h (next (m index))
  end.

Definition get_group (s : binder) (name : option (list Z)) : outcome Z :=
  match name with
  | None => Ret 1
  | Some n =>
    if hd 0 n =? 0 then Ret 1
    else if negb (in_pool 0) then Undefined
    else get_group_loop pool_fuel (m_nodes s) (str_hash cfg n) (next (m_nodes s 0))
  end.

(** [binder::create_group] *)
Definition create_group (s : binder) (name : list Z) : outcome (Z * binder) :=
  let '(index, s1) := alloc_nodes s 2 in
  if index <? 0 then Ret (-1, s1)
  else if negb (in_pool index) || negb (in_pool 0) then Undefined
  else
    let m1 := upd (m_nodes s1) index (set_group (m_nodes s1 index) (str_hash cfg name)) in
    let m2 := upd m1 index (set_next (m1 index) (next (m1 0))) in
    let m3 := upd m2 0 (set_next (m2 0) index) in
    let m4 := upd m3 (index + 1) zero_node in
    Ret (index + 1, with_nodes s1 m4).

(** [binder::find_child] *)
Fixpoint find_child_loop (fuel : nat) (m : pool) (parent k index : Z) : outcome Z :=
  match fuel with
  | O => Timeout
  | S fuel' =>
    if index >? parent then
      if key (m index) =? k then Ret index
      else find_child_loop fuel' m parent k (next (m index))
    else Ret 0
  end.

Definition find_child (s : binder) (parent k : Z) : outcome Z :=
  find_child_loop pool_fuel (m_nodes s) parent k (child (m_nodes s parent)).

(** [binder::find_tail] *)
Fixpoint find_tail_loop (fuel : nat) (m : pool) (head : Z) : outcome Z :=
  match fuel with
  | O => Timeout
  | S fuel' =>
    if next (m head) >? head then find_tail_loop fuel' m (next (m head))
    else Ret head
  end.

Definition find_tail (s : binder) (head : Z) : outcome Z :=
  find_tail_loop pool_fuel (m_nodes s) head.

(** [binder::add_child]; the result 0 reports a failed allocation. *)
Definition add_child (s : binder) (parent k : Z) : outcome (Z * binder) :=
  let '(c, s1) := alloc_nodes s 1 in
  if c <? 0 then Ret (0, s1)
  else
    let addee := set_key zero_node k in
    let current_child := child (m_nodes s1 parent) in
    if current_child <? parent then
      let addee := set_next addee parent in
      let m1 := upd (m_nodes s1) parent (set_child (m_nodes s1 parent) c) in
      Ret (c, with_nodes s1 (upd m1 c addee))
    else
      tail <- find_tail s1 current_child ;;
      let addee := set_next addee parent in
      let m1 := upd (m_nodes s1) tail (set_next (m_nodes s1 tail) c) in
      Ret (c, with_nodes s1 (upd m1 c addee)).

(** [binder::insert_child] *)
Definition insert_child (s : binder) (parent k : Z) : outcome (Z * binder) :=
  c <- find_child s parent k ;;
  if c =? 0 then add_child s parent k else Ret (c, s).

(** [binder::append] *)
Definition append (s : binder) (head k : Z) : outcome (Z * binder) :=
  let '(index, s1) := alloc_nodes s 1 in
  if index <? 0 then Ret (0, s1)
  else
    tail <- find_tail s1 head ;;
    let addee := set_next (set_key zero_node k) (next (m_nodes s1 tail)) in
    let m1 := upd (m_nodes s1) tail (set_next (m_nodes s1 tail) index) in
    Ret (index, with_nodes s1 (upd m1 index addee)).

(** [binder::add_backend]: handlers are compared by address; [push_back] of
    the fixed array fails once it holds [backend_capacity] entries. *)
Fixpoint backend_position (l : list Z) (b : Z) (i : Z) : option Z :=
  match l with
  | [] => None
  | x :: rest => if x =? b then Some i else backend_position rest b (i + 1)
  end.

Definition add_backend (s : binder) (b : Z) : Z * binder :=
  match backend_position (m_backends s) b 0 with
  | Some i => (i, s)
  | None =>
    if Z.of_nat (length (m_backends s)) <? backend_capacity cfg then
      (Z.of_nat (length (m_backends s)),
       mk_binder (m_nodes s) (m_next_node s) (m_backends s ++ [b]))
    else (-1, s)
  end.

(** ** binder::bind *)

(** The validation loop [while ( *c ) if ( *c++ < 0 ) return false;]. *)
Fixpoint has_high_byte (c : list Z) : bool :=
  match c with
  | [] => false
  | x :: rest =>
    if x =? 0 then false
    else if 128 <=? x then true
    else has_high_byte rest
  end.

(** The [for] loop that adds the translated keys to the trie.  [None] is the
    [return false] taken inside the loop; otherwise the node reached and the
    number of keys consumed. *)
Fixpoint insert_keys (s : binder) (head : Z) (keys : list Z) (d : Z)
  : outcome (option (Z * Z) * binder) :=
  match keys with
  | [] => Ret (Some (head, d), s)
  | k :: rest =>
    '(h, s1) <- insert_child s head k ;;
    if h =? 0 then Ret (None, s1) else insert_keys s1 h rest (d + 1)
  end.

(** The loop [int check = head; while (check > head) ...] that looks for an
    existing binding equal to the requested one; the result says whether it
    returned [true] from inside. *)
Fixpoint dup_scan (fuel : nat) (m : pool) (head k b i check : Z) (bindee : node)
  : outcome bool :=
  match fuel with
  | O => Timeout
  | S fuel' =>
    if check >? head then
      if (key bindee =? k) && (backend bindee =? b) && (id bindee =? i) then Ret true
      else dup_scan fuel' m head k b i (next bindee) (m (next bindee))
    else Ret false
  end.

(** The tail of [bind]: [if (!head) return false;] and the stores that commit
    the binding. *)
Definition commit (s : binder) (head b d i : Z) : bool * binder :=
  if head =? 0 then (false, s)
  else (true, with_nodes s (upd (m_nodes s) head (set_binding (m_nodes s head) b d i))).

(** The part of [bind] that follows the registration of the handler: the
    key loop, the test of the node reached, and the commit.  After the key
    loop the source steps [chord] back by one and reads [*chord] when the
    node reached is already bound; with no key consumed that read is in
    front of the local buffer. *)
Definition bind_keys (s : binder) (group : Z) (keys : list Z)
    (backend_index i : Z) : outcome (bool * binder) :=
  '(r, s2) <- insert_keys s group keys 0 ;;
  match r with
  | None => Ret (false, s2)
  | Some (head, d) =>
    if bound (m_nodes s2 head) then
      match keys with
      | [] => Undefined
      | _ :: _ =>
        let k := last keys 0 in
        dup <- dup_scan pool_fuel (m_nodes s2) head k backend_index i
                 head (m_nodes s2 head) ;;
        if dup then Ret (true, s2)
        else
          '(h, s3) <- append s2 head k ;;
          Ret (commit s3 h backend_index d i)
      end
    else Ret (commit s2 head backend_index d i)
  end.

(** [bind].  When the translator stored its terminator outside the buffer
    the call is undefined. *)
Definition bind (s : binder) (group : Z) (chord : list Z) (handler i : Z)
  : outcome (bool * binder) :=
  if capacity cfg <=? group then Ret (false, s)
  else if has_high_byte chord then Ret (false, s)
  else
    match translate_chord 64 chord (translated0 cfg) with
    | None => Ret (false, s)
    | Some t =>
      if negb ((0 <=? tr_end t) && (tr_end t <? 64)) then Undefined
      else
        let '(backend_index, s1) := add_backend s handler in
        if backend_index <? 0 then Ret (false, s1)
        else bind_keys s1 group (c_string (tr_out t)) backend_index i
    end.

(** [binder::get_node] *)
Definition get_node (s : binder) (index : Z) : node :=
  if in_pool index then m_nodes s index else zero_node.

(** Modelled from the spec: [binder::get_backend] indexes the fixed array of
    [core/array.h], whose [operator[]] is outside the translated file; the
    read accessor returns the handler registered under an index, or nothing
    for an index outside the registry. *)
Definition get_backend (s : binder) (index : Z) : option Z :=
  if index <? 0 then None else nth_error (m_backends s) (Z.to_nat index).

(** ** Reading the trie *)

(** The walk a resolver makes along the keys of a chord, by [find_child]
    alone; 0 when a key has no node. *)
Fixpoint find_path (s : binder) (head : Z) (keys : list Z) : outcome Z :=
  match keys with
  | [] => Ret head
  | k :: rest =>
    c <- find_child s head k ;;
    if c =? 0 then Ret 0 else find_path s c rest
  end.

(** The slots the loop of [find_child] can visit below [parent]: the first
    child, and from a visited slot its [next], as long as the index is
    greater than [parent]. *)
Inductive on_chain (m : pool) (parent : Z) : Z -> Prop :=
| on_chain_first :
    child (m parent) > parent -> on_chain m parent (child (m parent))
| on_chain_next x :
    on_chain m parent x -> next (m x) > parent -> on_chain m parent (next (m x)).

(** The trie nodes of the groups [roots]: the roots and, recursively, the
    slots on the sibling chain of a trie node. *)
Inductive trie_node (s : binder) (roots : list Z) : Z -> Prop :=
| trie_root r : In r roots -> trie_node s roots r
| trie_child p x :
    trie_node s roots p -> on_chain (m_nodes s) p x -> trie_node s roots x.

(** The states a client reaches from the constructor, together with the
    group handles it holds: the default group 1 and the roots returned by
    [create_group]. *)
Inductive reachable : binder -> list Z -> Prop :=
| reach_new mem : reachable (new_binder mem) [1]
| reach_create_group s roots name r s' :
    reachable s roots ->
    create_group s name = Ret (r, s') ->
    reachable s' (if r <? 0 then roots else r :: roots)
| reach_bind s roots group chord handler i ok s' :
    reachable s roots ->
    In group roots ->
    bind s group chord handler i = Ret (ok, s') ->
    reachable s' roots.

(** ** The shape of the trie

    [T] is the set of slots in use as trie nodes and [par] gives the parent
    of each (0 for a root).  A [next] either closes the chain by pointing
    back at the parent or leads to a later sibling; a [child] is 0 or a
    first child; a node that is no root is on the chain of its parent. *)
Record wf (T : Z -> Prop) (par : Z -> Z) (s : binder) : Prop := mk_wf {
  wf_cursor : 2 <= m_next_node s;
  wf_range : forall x, T x -> 1 <= x < m_next_node s /\ x < capacity cfg;
  wf_par : forall x, T x -> 0 <= par x < x;
  wf_child : forall x, T x ->
    child (m_nodes s x) = 0 \/
    (T (child (m_nodes s x)) /\ par (child (m_nodes s x)) = x);
  wf_next : forall x, T x ->
    next (m_nodes s x) = par x \/
    (T (next (m_nodes s x)) /\ x < next (m_nodes s x) /\
     par (next (m_nodes s x)) = par x);
  wf_linked : forall x, T x ->
    par x = 0 \/ (T (par x) /\ on_chain (m_nodes s) (par x) x)
}.

(** How a pool may change under the trie nodes [T] while the trie grows:
    keys stay, a [next] changes only where it closed a chain, a [child] only
    where there was none. *)
Record extends (T : Z -> Prop) (par : Z -> Z) (m m' : pool) : Prop := mk_extends {
  ext_key : forall x, T x -> key (m' x) = key (m x);
  ext_next : forall x, T x -> next (m' x) = next (m x) \/ next (m x) = par x;
  ext_child : forall x, T x -> child (m' x) = child (m x) \/ child (m x) = 0
}.

(** Slot [x] is a bound terminal for key [k] with handler index [b], id [i]
    and depth [d]. *)
Definition carries (m : pool) (x k b i d : Z) : Prop :=
  bound (m x) = true /\ key (m x) = k /\ backend (m x) = b /\
  id (m x) = i /\ depth (m x) = d.

(** The binding stored in a slot is the same in two pools. *)
Definition same_binding (m m' : pool) (x : Z) : Prop :=
  bound (m' x) = bound (m x) /\ backend (m' x) = backend (m x) /\
  depth (m' x) = depth (m x) /\ id (m' x) = id (m x).

(** One state grows into another: the shape is kept, the trie nodes and
    their parents stay, and the old nodes keep keys, links and bindings. *)
Record grows (T : Z -> Prop) (par : Z -> Z) (s : binder)
    (T' : Z -> Prop) (par' : Z -> Z) (s' : binder) : Prop := mk_grows {
  gr_wf : wf T' par' s';
  gr_sub : forall x, T x -> T' x;
  gr_par : forall x, T x -> par' x = par x;
  gr_ext : extends T par (m_nodes s) (m_nodes s');
  gr_binding : forall x, T x -> same_binding (m_nodes s) (m_nodes s') x;
  gr_fresh : forall x, T' x -> T x \/ m_next_node s <= x;
  gr_cursor : m_next_node s <= m_next_node s';
  gr_backends : m_backends s' = m_backends s
}.

(** The sibling chain of [parent] as a list: the slots the loop of
    [find_child] visits when no key matches, in the order of the visit. *)
Fixpoint siblings_loop (fuel : nat) (m : pool) (parent index : Z)
  : outcome (list Z) :=
  match fuel with
  | O => Timeout
  | S fuel' =>
    if index >? parent then
      l <- siblings_loop fuel' m parent (next (m index)) ;;
      Ret (index :: l)
    else Ret []
  end.

Definition siblings (s : binder) (parent : Z) : outcome (list Z) :=
  siblings_loop pool_fuel (m_nodes s) parent (child (m_nodes s parent)).

(** The first slot of a list whose key is [k], or 0. *)
Fixpoint first_with_key (m : pool) (k : Z) (l : list Z) : Z :=
  match l with
  | [] => 0
  | x :: rest => if key (m x) =? k then x else first_with_key m k rest
  end.

(** The number of steps from a node up to its root along [par]. *)
Fixpoint level_fuel (par : Z -> Z) (fuel : nat) (x : Z) : Z :=
  match fuel with
  | O => 0
  | S fuel' => if par x =? 0 then 0 else level_fuel par fuel' (par x) + 1
  end.

Definition level (par : Z -> Z) (x : Z) : Z := level_fuel par (Z.to_nat x) x.

(** The group list behind the sentinel, read against the handles of the
    client, newest first: the list node of a group is the slot in front of
    its root, and the list ends with 0 where the handles end with the
    default group. *)
Fixpoint group_chain (m : pool) (index : Z) (roots : list Z) : Prop :=
  match roots with
  | [] => False
  | r :: rest =>
    match rest with
    | [] => r = 1 /\ index = 0
    | _ :: _ =>
      index = r - 1 /\ 0 < next (m index) + 1 <= index /\
      group_chain m (next (m index)) rest
    end
  end.

(** The list node that [get_group] is to find for a hash: that of the newest
    group with the hash, or -1. *)
Fixpoint newest_group (m : pool) (h : Z) (roots : list Z) : Z :=
  match roots with
  | [] => -1
  | r :: rest =>
    match rest with
    | [] => -1
    | _ :: _ => if hash (m (r - 1)) =? h then r - 1 else newest_group m h rest
    end
  end.

(** What holds of every reachable state besides its shape. *)
Record sound (T : Z -> Prop) (par : Z -> Z) (s : binder) (roots : list Z) : Prop :=
  mk_sound {
  sd_wf : wf T par s;
  sd_roots : forall r, In r roots -> T r /\ par r = 0;
  sd_backend : forall x, T x -> bound (m_nodes s x) = true ->
    exists handler, get_backend s (backend (m_nodes s x)) = Some handler;
  sd_depth : forall x, T x -> bound (m_nodes s x) = true ->
    depth (m_nodes s x) = level par x;
  sd_nodup : NoDup (m_backends s);
  sd_groups : group_chain (m_nodes s) (next (m_nodes s 0)) roots;
  sd_group_nodes : forall r, In r roots -> r <> 1 ->
    ~ T (r - 1) /\ 2 <= r - 1 < m_next_node s /\ r - 1 < capacity cfg
}.

(** What a growing trie leaves alone: the slots in use that are no trie
    nodes keep their contents, and the nodes that are new are not bound. *)
Record adds (T : Z -> Prop) (s : binder) (T' : Z -> Prop) (s' : binder) : Prop :=
  mk_adds {
  ad_outside : forall x, ~ T x -> x < m_next_node s -> m_nodes s' x = m_nodes s x;
  ad_unbound : forall x, T' x -> ~ T x -> bound (m_nodes s' x) = false
}.

End Binder.

(** ** A concrete binder

    A pool of 512 slots and a registry of 64 handlers, over memory that
    happens to be zero; used to evaluate the definitions. *)

Definition demo_hash (name : list Z) : Z :=
  fold_left (fun h c => (h * 33 + c) mod 4294967296) name 5381.

Definition demo_cfg : config := mk_config 512 64 demo_hash (repeat 0 64).

Definition demo_binder : binder := new_binder (fun _ => zero_node).

Definition state_of (o : outcome (bool * binder)) : binder :=
  match o with
  | Ret (_, s) => s
  | _ => demo_binder
  end.

Definition H1 : Z := 1000.

(** [bind(1, "ab", H1, 1)] on a fresh binder, and the same call again. *)
Definition bound_ab : binder :=
  state_of (bind demo_cfg demo_binder 1 (cstr "ab") H1 1).
Definition rebound_ab : binder :=
  state_of (bind demo_cfg bound_ab 1 (cstr "ab") H1 1).

(** The translations of ["ab"] and of the empty chord. *)
Definition translation_of (o : option translation) : translation :=
  match o with
  | Some t => t
  | None => mk_translation [] 0
  end.
Definition translation_ab : translation :=
  Eval vm_compute in translation_of (translate_chord 64 (cstr "ab") (repeat 0 64)).
Definition translation_empty : translation :=
  Eval vm_compute in translation_of (translate_chord 64 [] (repeat 0 64)).

(** [create_group("vi")] on a fresh binder. *)
Definition group_state (o : outcome (Z * binder)) : binder :=
  match o with
  | Ret (_, s) => s
  | _ => demo_binder
  end.
Definition grouped_vi : binder :=
  group_state (create_group demo_cfg demo_binder (cstr "vi")).

(** A binder whose cursor stands on the last slot of the pool. *)
Definition last_slot_binder : binder := mk_binder (fun _ => zero_node) 511 [].

(** A pool of four slots, and [bind(1, "ab", H1, 1)] on it: the second key
    finds no slot. *)
Definition tiny_cfg : config := mk_config 4 64 demo_hash (repeat 0 64).

Definition translation_a_nul_b : translation :=
  Eval vm_compute in
    translation_of (translate_chord 64 (cstr "a\0b") (repeat 0 64)).

(** A pool of five slots: [bind(1, "ab", H1, 1)] fills it, and
    [bind(1, "ac", H1, 2)] after that finds no slot for its second key. *)
Definition small_cfg : config := mk_config 5 64 demo_hash (repeat 0 64).
Definition small_ab : binder :=
  state_of (bind small_cfg demo_binder 1 (cstr "ab") H1 1).
Definition small_ab_ac : binder :=
  state_of (bind small_cfg small_ab 1 (cstr "ac") H1 2).

(** A registry of two handlers, filled by two calls of [bind]. *)
Definition narrow_cfg : config := mk_config 512 2 demo_hash (repeat 0 64).
Definition H_second : Z := 2000.
Definition H_third : Z := 3000.
Definition two_handlers : binder :=
  state_of (bind narrow_cfg
              (state_of (bind narrow_cfg demo_binder 1 (cstr "a") H1 1))
              1 (cstr "b") H_second 1).

(** The default root bound by the empty chord. *)
Definition root_bound : binder := state_of (bind demo_cfg demo_binder 1 [] H1 1).

(** Three chords of one key each in the default group: the siblings 2, 3
    and 4 below the root. *)
Definition bound_a_b_c : binder :=
  state_of (bind demo_cfg
              (state_of (bind demo_cfg
                           (state_of (bind demo_cfg demo_binder 1 (cstr "a") H1 1))
                           1 (cstr "b") H1 2))
              1 (cstr "c") H1 3).

(** Memory the constructor does not write: slot 10 names slot 11 as its
    first child, and the [next] of slot 11 is slot 11 itself. *)
Definition stale_memory : pool :=
  fun x =>
    if x =? 10 then set_child zero_node 11
    else if x =? 11 then set_next zero_node 11
    else zero_node.
Definition stale_binder : binder := new_binder stale_memory.

(** * Properties *)

(** ** The chord translator *)

Lemma translate_loop_lone_backslash (pre : list Z) : forall i out,
  Forall plain pre ->
  0 <= i -> i + Z.of_nat (length pre) <= 62 ->
  exists out', translate_loop 64 (pre ++ [BACKSLASH]) i out = Some (out', 65).
Proof.
  induction pre as [|c pre IH]; intros i out Hp Hi Hlen.
  - cbn [app translate_loop].
    replace (i <? 64 - 1) with true by (symmetry; apply Z.ltb_lt; simpl in Hlen; lia).
    cbn. eexists; reflexivity.
  - inversion Hp as [|? ? (H0 & Hb & Hc) Hp']; subst.
    cbn [app translate_loop].
    cbn [length] in Hlen.
    replace (i <? 64 - 1) with true by (symmetry; apply Z.ltb_lt; lia).
    apply Z.eqb_neq in H0, Hb, Hc. rewrite H0, Hb, Hc. cbn [negb orb andb].
    apply IH; [assumption | lia | lia].
Qed.

(** C2.  The control forms do not produce [X & 0x1F].  For every printable
    [X] other than the two markers, the chord [^X] is translated to the two
    bytes [0x1E, X] (the caret itself is masked, and [X] is then copied), and
    the chord [\C-X] to the two bytes [0x0D, X] (the dash is masked).  The
    header comment of [translate_chord] announces ctrl-x for both. *)
Theorem control_forms_mask_the_marker (X : Z) (buf : list Z) :
  length buf = 64%nat -> 32 <= X < 127 -> X <> BACKSLASH -> X <> CARET ->
  translated_keys 64 [CARET; X] buf = Some [30; X] /\
  translated_keys 64 [BACKSLASH; LETTER_C; DASH; X] buf = Some [13; X].
Proof.
  intros Hlen HX Hb Hc.
  destruct buf as [|b0 [|b1 [|b2 buf]]]; try discriminate Hlen.
  assert (E0 : (X =? 0) = false) by (apply Z.eqb_neq; lia).
  assert (E1 : (X =? BACKSLASH) = false) by (apply Z.eqb_neq; assumption).
  assert (E2 : (X =? CARET) = false) by (apply Z.eqb_neq; assumption).
  unfold translated_keys, translate_chord.
  split; cbn; rewrite ?E0, ?E1, ?E2; cbn; rewrite ?E0; reflexivity.
Qed.

Lemma control_forms_mask_the_marker_A :
  translated_keys 64 (cstr "^A") (repeat 0 64) = Some [30; 65] /\
  translated_keys 64 (cstr "\C-A") (repeat 0 64) = Some [13; 65].
Proof.
  apply (control_forms_mask_the_marker 65 (repeat 0 64));
    [reflexivity | lia | discriminate | discriminate].
Defined.

(** C3.  A chord made of plain characters followed by a lone backslash, short
    enough for the loop to reach the backslash, is translated with success,
    but the terminating zero is stored at index 65 of the 64-byte buffer:
    [i = SIZE; continue;] runs the increment of the loop before the loop is
    left. *)
Theorem lone_backslash_terminator_overflows (pre buf : list Z) :
  Forall plain pre -> (length pre <= 62)%nat ->
  exists t,
    translate_chord 64 (pre ++ [BACKSLASH]) buf = Some t /\
    tr_end t = 65 /\
    ~ terminated_in_bounds 64 t.
Proof.
  intros Hp Hlen.
  destruct (translate_loop_lone_backslash pre 0 buf Hp) as [out' E]; [lia | lia |].
  unfold translate_chord. rewrite E.
  eexists; split; [reflexivity |].
  unfold terminated_in_bounds; cbn. split; [reflexivity | lia].
Qed.

Lemma lone_backslash_terminator_overflows_ab :
  exists t,
    translate_chord 64 (cstr "ab\") (repeat 0 64) = Some t /\
    tr_end t = 65 /\
    ~ terminated_in_bounds 64 t.
Proof.
  apply (lone_backslash_terminator_overflows (cstr "ab") (repeat 0 64)).
  - repeat constructor; discriminate.
  - simpl; lia.
Defined.

(** ** The allocator *)

Section Properties.

Variable cfg : config.

(** C4, as the code has it.  From a cursor [c >= 0] and for a count [k >= 1]
    whose sum [c + k] stays in the range of [unsigned int], [alloc_nodes(k)]
    returns -1 exactly when [c + k] reaches the capacity (the guard is
    [m_next_node < sizeof_array(m_nodes)] on the advanced cursor), otherwise
    it returns [c]; the cursor is advanced to [c + k] either way. *)
Theorem alloc_nodes_contract (s : binder) (k : Z) :
  in_uint_range s k -> 1 <= k ->
  (fst (alloc_nodes cfg s k) = -1 <-> m_next_node s + k >= capacity cfg) /\
  (m_next_node s + k < capacity cfg -> fst (alloc_nodes cfg s k) = m_next_node s) /\
  m_next_node (snd (alloc_nodes cfg s k)) = m_next_node s + k.
Proof.
  intros (Hc & _ & _) Hk. unfold alloc_nodes; cbn.
  destruct (Z.ltb_spec (m_next_node s + k) (capacity cfg)); cbn;
    repeat split; intros; lia.
Qed.

(** ** bind: validation *)

Lemma has_high_byte_found (chord : list Z) (b : Z) :
  Forall (fun c => c <> 0) chord -> In b chord -> 128 <= b ->
  has_high_byte chord = true.
Proof.
  induction chord as [|c chord IH]; intros Hnz Hin Hb; [contradiction |].
  inversion Hnz as [|? ? Hc Hnz']; subst.
  cbn [has_high_byte]. apply Z.eqb_neq in Hc. rewrite Hc.
  destruct (Z.leb_spec 128 c) as [|Hlt]; [reflexivity |].
  destruct Hin as [-> | Hin]; [lia | auto].
Qed.

(** C5.  A chord with a byte of value 0x80 or more makes [bind] return
    [false] and leaves the binder as it was: cursor, nodes and registry. *)
Theorem bind_rejects_high_byte (s : binder) (group : Z) (chord : list Z)
    (handler i b : Z) :
  Forall (fun c => c <> 0) chord -> In b chord -> 128 <= b ->
  bind cfg s group chord handler i = Ret (false, s).
Proof.
  intros Hnz Hin Hb. unfold bind.
  destruct (capacity cfg <=? group); [reflexivity |].
  rewrite (has_high_byte_found chord b Hnz Hin Hb). reflexivity.
Qed.

(** ** Groups *)

Lemma upd_same (m : pool) (i : Z) (v : node) : upd m i v i = v.
Proof. unfold upd. rewrite Z.eqb_refl. reflexivity. Qed.

Lemma upd_other (m : pool) (i j : Z) (v : node) : j <> i -> upd m i v j = m j.
Proof. intro H. unfold upd. apply Z.eqb_neq in H. rewrite H. reflexivity. Qed.

Lemma create_group_inv (s s' : binder) (name : list Z) (r : Z) :
  create_group cfg s name = Ret (r, s') ->
  (r = -1 /\ s' = mk_binder (m_nodes s) (m_next_node s + 2) (m_backends s) /\
   (capacity cfg <= m_next_node s + 2 \/ m_next_node s < 0)) \/
  (r = m_next_node s + 1 /\
   0 <= m_next_node s /\ m_next_node s + 2 < capacity cfg /\
   m_next_node s' = m_next_node s + 2 /\
   m_backends s' = m_backends s /\
   let c := m_next_node s in
   let m1 := upd (m_nodes s) c (set_group (m_nodes s c) (str_hash cfg name)) in
   let m2 := upd m1 c (set_next (m1 c) (next (m1 0))) in
   let m3 := upd m2 0 (set_next (m2 0) c) in
   m_nodes s' = upd m3 (c + 1) zero_node).
Proof.
  unfold create_group, alloc_nodes. cbv beta iota zeta.
  cbn [m_next_node m_nodes m_backends].
  replace (m_next_node s + 2 - 2) with (m_next_node s) by lia.
  destruct (Z.ltb_spec (m_next_node s + 2) (capacity cfg)) as [Hlt | Hge].
  - destruct (Z.ltb_spec (m_next_node s) 0) as [Hneg | Hpos].
    + intro H; injection H as <- <-. left. repeat split. right; lia.
    + destruct (negb (in_pool cfg (m_next_node s)) || negb (in_pool cfg 0));
        [discriminate |].
      intro H; injection H as <- <-. right.
      cbn [m_next_node m_nodes m_backends with_nodes].
      repeat split; try lia; reflexivity.
  - replace (-1 <? 0) with true by reflexivity.
    intro H; injection H as <- <-. left. repeat split. left; lia.
Qed.

(** C6.  After [create_group(name)] has returned the root index [r],
    [get_group(name)] returns [r - 1], the index of the group-list node that
    precedes the root, and not [r]: the loop returns [index] where
    [create_group] returns [++index]. *)
Theorem get_group_returns_list_node (s s' : binder) (name : list Z) (r : Z) :
  2 <= m_next_node s -> hd 0 name <> 0 ->
  create_group cfg s name = Ret (r, s') -> 0 <= r ->
  get_group cfg s' (Some name) = Ret (r - 1).
Proof.
  intros Hcur Hname Hcreate Hr.
  apply create_group_inv in Hcreate.
  destruct Hcreate as [(-> & _) | (-> & Hc0 & Hlt & _ & _ & Hm)]; try lia.
  cbv zeta in Hm.
  assert (Hp : forall x, 0 <= x < capacity cfg -> in_pool cfg x = true).
  { intros x Hx. unfold in_pool. apply andb_true_intro. split;
      [apply Z.leb_le | apply Z.ltb_lt]; lia. }
  unfold get_group. apply Z.eqb_neq in Hname. rewrite Hname.
  rewrite Hp by lia. cbn [negb]. rewrite Hm.
  set (c := m_next_node s) in *.
  rewrite (upd_other _ (c + 1) 0) by lia. rewrite (upd_same _ 0).
  cbn [next set_next].
  unfold pool_fuel. cbn [get_group_loop].
  replace (c =? 0) with false by (symmetry; apply Z.eqb_neq; lia).
  rewrite Hp by lia. cbn [negb].
  rewrite (upd_other _ (c + 1) c) by lia. rewrite (upd_other _ 0 c) by lia.
  rewrite (upd_same _ c).
  cbn [hash set_next]. rewrite (upd_same _ c). cbn [hash set_group].
  rewrite Z.eqb_refl. f_equal. lia.
Qed.

(** ** The handler registry *)

Lemma add_backend_nodes (s : binder) (h : Z) :
  m_nodes (snd (add_backend cfg s h)) = m_nodes s /\
  m_next_node (snd (add_backend cfg s h)) = m_next_node s.
Proof.
  unfold add_backend.
  destruct (backend_position (m_backends s) h 0); [split; reflexivity |].
  destruct (Z.of_nat (length (m_backends s)) <? backend_capacity cfg);
    split; reflexivity.
Qed.

(** ** bind: the empty chord *)

(** C10, as the code has it.  On a group root [group >= 1] inside the pool
    that is not bound, a call of [bind] that passes the validation of its
    chord and whose handler the registry accepts, with a chord translated to
    no key at all, returns [true].  The
    root is then bound, with depth 0, the handler's registry index and the
    id; its key and its links are what they were, and neither the cursor nor
    any other slot changes. *)
Theorem bind_empty_chord_marks_root (s : binder) (group : Z) (chord : list Z)
    (handler i : Z) (t : translation) :
  1 <= group < capacity cfg ->
  has_high_byte chord = false ->
  translate_chord 64 chord (translated0 cfg) = Some t ->
  terminated_in_bounds 64 t ->
  c_string (tr_out t) = [] ->
  0 <= fst (add_backend cfg s handler) ->
  bound (m_nodes s group) = false ->
  exists s',
    bind cfg s group chord handler i = Ret (true, s') /\
    m_next_node s' = m_next_node s /\
    bound (m_nodes s' group) = true /\
    depth (m_nodes s' group) = 0 /\
    backend (m_nodes s' group) = fst (add_backend cfg s handler) /\
    id (m_nodes s' group) = i /\
    key (m_nodes s' group) = key (m_nodes s group) /\
    next (m_nodes s' group) = next (m_nodes s group) /\
    child (m_nodes s' group) = child (m_nodes s group) /\
    (forall x, x <> group -> m_nodes s' x = m_nodes s x).
Proof.
  intros Hg Hhigh Htr Hend Hkeys Hreg Hunbound.
  destruct (add_backend_nodes s handler) as [Hn Hc].
  unfold bind.
  replace (capacity cfg <=? group) with false by (symmetry; apply Z.leb_gt; lia).
  rewrite Hhigh, Htr.
  unfold terminated_in_bounds in Hend.
  replace (0 <=? tr_end t) with true by (symmetry; apply Z.leb_le; lia).
  replace (tr_end t <? 64) with true by (symmetry; apply Z.ltb_lt; lia).
  cbn [andb negb]. rewrite Hkeys.
  destruct (add_backend cfg s handler) as [b s1] eqn:Hadd.
  cbn [fst snd] in *.
  replace (b <? 0) with false by (symmetry; apply Z.ltb_ge; lia).
  unfold bind_keys. cbn [insert_keys obind].
  rewrite Hn, Hunbound. unfold commit.
  replace (group =? 0) with false by (symmetry; apply Z.eqb_neq; lia).
  eexists; split; [reflexivity |].
  cbn [m_next_node m_nodes with_nodes]. rewrite Hn, upd_same.
  split; [assumption |].
  repeat (split; [reflexivity |]).
  intros x Hx. apply upd_other; assumption.
Qed.

(** ** Walks over a well-shaped trie *)

Lemma gtb_true (a b : Z) : b < a -> (a >? b) = true.
Proof. intro H. rewrite Z.gtb_ltb. apply Z.ltb_lt. exact H. Qed.

Lemma gtb_false (a b : Z) : a <= b -> (a >? b) = false.
Proof. intro H. rewrite Z.gtb_ltb. apply Z.ltb_ge. exact H. Qed.

Lemma find_tail_loop_wf (T : Z -> Prop) (par : Z -> Z) (s : binder) :
  wf cfg T par s ->
  forall (fuel : nat) (h : Z),
    T h -> (Z.to_nat (capacity cfg - h) < fuel)%nat ->
    exists t,
      find_tail_loop fuel (m_nodes s) h = Ret t /\
      T t /\ par t = par h /\ h <= t /\ next (m_nodes s t) = par t.
Proof.
  intro W. induction fuel as [|fuel IH]; intros h Th Hfuel; [lia |].
  cbn [find_tail_loop].
  destruct (wf_range _ _ _ _ W h Th) as [Hh Hcap].
  destruct (wf_par _ _ _ _ W h Th) as [Hp0 Hp].
  destruct (wf_next _ _ _ _ W h Th) as [Hback | (Tn & Hlt & Hpn)].
  - replace (next (m_nodes s h) >? h) with false
      by (symmetry; apply gtb_false; lia).
    exists h. repeat split; try assumption; lia.
  - replace (next (m_nodes s h) >? h) with true
      by (symmetry; apply gtb_true; lia).
    destruct (wf_range _ _ _ _ W _ Tn) as [_ Hncap].
    destruct (IH (next (m_nodes s h)) Tn) as (t & E & Tt & Hpt & Hle & Hnt); [lia |].
    exists t. repeat split; try assumption; [congruence | lia].
Qed.

Lemma find_tail_wf (T : Z -> Prop) (par : Z -> Z) (s : binder) (h : Z) :
  wf cfg T par s -> T h ->
  exists t,
    find_tail cfg s h = Ret t /\
    T t /\ par t = par h /\ h <= t /\ next (m_nodes s t) = par t.
Proof.
  intros W Th. apply (find_tail_loop_wf T par s W); [assumption |].
  destruct (wf_range _ _ _ _ W h Th). unfold pool_fuel. lia.
Qed.

Lemma find_child_loop_wf (T : Z -> Prop) (par : Z -> Z) (s : binder) (p k : Z) :
  wf cfg T par s -> T p ->
  forall (fuel : nat) (idx : Z),
    (T idx /\ par idx = p /\ (Z.to_nat (capacity cfg - idx) + 1 < fuel)%nat) \/
    (idx <= p /\ (0 < fuel)%nat) ->
    exists c,
      find_child_loop fuel (m_nodes s) p k idx = Ret c /\
      (c = 0 \/ (T c /\ par c = p /\ key (m_nodes s c) = k)).
Proof.
  intros W Tp. induction fuel as [|fuel IH]; intros idx Hidx; [lia |].
  cbn [find_child_loop].
  destruct Hidx as [(Ti & Hpi & Hfuel) | (Hle & _)].
  - destruct (wf_par _ _ _ _ W idx Ti) as [_ Hlt].
    destruct (wf_range _ _ _ _ W idx Ti) as [_ Hcap].
    replace (idx >? p) with true by (symmetry; apply gtb_true; lia).
    destruct (Z.eqb_spec (key (m_nodes s idx)) k) as [Hk | Hk].
    + exists idx. split; [reflexivity | right; auto].
    + apply IH.
      destruct (wf_next _ _ _ _ W idx Ti) as [Hback | (Tn & Hn & Hpn)].
      * right. split; [lia | lia].
      * left. split; [assumption |]. split; [congruence |].
        destruct (wf_range _ _ _ _ W _ Tn). lia.
  - replace (idx >? p) with false by (symmetry; apply gtb_false; lia).
    exists 0. split; [reflexivity | left; reflexivity].
Qed.

Lemma find_child_wf (T : Z -> Prop) (par : Z -> Z) (s : binder) (p k : Z) :
  wf cfg T par s -> T p ->
  exists c,
    find_child cfg s p k = Ret c /\
    (c = 0 \/ (T c /\ par c = p /\ key (m_nodes s c) = k)).
Proof.
  intros W Tp. unfold find_child.
  apply (find_child_loop_wf T par s p k W Tp).
  destruct (wf_range _ _ _ _ W p Tp) as [Hp Hpc].
  destruct (wf_child _ _ _ _ W p Tp) as [H0 | [Tc Hpc']].
  - right. rewrite H0. split; [lia | unfold pool_fuel; lia].
  - left. split; [assumption |]. split; [assumption |].
    destruct (wf_range _ _ _ _ W _ Tc) as [Hc1 Hc2].
    destruct (wf_par _ _ _ _ W _ Tc). unfold pool_fuel. lia.
Qed.

Lemma on_chain_wf (T : Z -> Prop) (par : Z -> Z) (s : binder) (p x : Z) :
  wf cfg T par s -> T p -> on_chain (m_nodes s) p x -> T x /\ par x = p.
Proof.
  intros W Tp C. destruct (wf_range _ _ _ _ W p Tp) as [Hp _].
  induction C as [Hgt | x C [Tx Hpx] Hgt].
  - destruct (wf_child _ _ _ _ W p Tp) as [H0 | H]; [lia | exact H].
  - destruct (wf_next _ _ _ _ W x Tx) as [Hback | (Tn & _ & Hpn)]; [lia |].
    split; [exact Tn | congruence].
Qed.

(** Chains survive a change of the pool that redirects only closing [next]
    links and empty [child] links of trie nodes. *)
Lemma on_chain_preserved (T : Z -> Prop) (par : Z -> Z) (s : binder)
    (m' : pool) (p x : Z) :
  wf cfg T par s -> T p ->
  (forall y, T y ->
     (next (m' y) = next (m_nodes s y) \/ next (m_nodes s y) = par y) /\
     (child (m' y) = child (m_nodes s y) \/ child (m_nodes s y) = 0)) ->
  on_chain (m_nodes s) p x -> on_chain m' p x.
Proof.
  intros W Tp Hold C. destruct (wf_range _ _ _ _ W p Tp) as [Hp _].
  induction C as [Hgt | x C IH Hgt].
  - destruct (Hold p Tp) as [_ [E | E]]; [| lia].
    rewrite <- E. apply on_chain_first. rewrite E. exact Hgt.
  - destruct (on_chain_wf T par s p x W Tp C) as [Tx Hpx].
    destruct (Hold x Tx) as [[E | E] _]; [| lia].
    rewrite <- E. apply on_chain_next; [exact IH | rewrite E; exact Hgt].
Qed.

(** ** Growth of the trie *)

Lemma grows_refl (T : Z -> Prop) (par : Z -> Z) (s : binder) :
  wf cfg T par s -> grows cfg T par s T par s.
Proof.
  intro W. constructor; auto; try lia.
  - constructor; auto.
  - intros x _. repeat split.
Qed.

Lemma grows_trans (T T' T'' : Z -> Prop) (par par' par'' : Z -> Z)
    (s s' s'' : binder) :
  grows cfg T par s T' par' s' -> grows cfg T' par' s' T'' par'' s'' ->
  grows cfg T par s T'' par'' s''.
Proof.
  intros G1 G2.
  destruct G1 as [W1 S1 P1 [K1 N1 C1] B1 F1 Cu1 Ba1].
  destruct G2 as [W2 S2 P2 [K2 N2 C2] B2 F2 Cu2 Ba2].
  constructor; auto.
  - intros x Tx. rewrite (P2 x (S1 x Tx)). auto.
  - constructor.
    + intros x Tx. rewrite (K2 x (S1 x Tx)). auto.
    + intros x Tx. specialize (N1 x Tx). specialize (N2 x (S1 x Tx)).
      rewrite (P1 x Tx) in N2. destruct N1 as [N1 | N1]; [| right; exact N1].
      destruct N2 as [N2 | N2]; [left; congruence | right; congruence].
    + intros x Tx. specialize (C1 x Tx). specialize (C2 x (S1 x Tx)).
      destruct C1 as [C1 | C1]; [| right; exact C1].
      destruct C2 as [C2 | C2]; [left; congruence | right; congruence].
  - intros x Tx. destruct (B1 x Tx) as (a1 & b1 & c1 & d1).
    destruct (B2 x (S1 x Tx)) as (a2 & b2 & c2 & d2).
    unfold same_binding. repeat split; congruence.
  - intros x Tx. destruct (F2 x Tx) as [Tx' | Hx]; [| right; lia].
    destruct (F1 x Tx') as [Tx0 | Hx]; [left; exact Tx0 | right; lia].
  - lia.
  - congruence.
Qed.

(** A fresh slot [c] is made a trie node with parent [q]; among the old
    nodes only a closing [next] or an empty [child] is redirected to it. *)
Lemma fresh_node_grows (T : Z -> Prop) (par : Z -> Z) (s : binder)
    (m' : pool) (c q : Z) :
  wf cfg T par s ->
  c = m_next_node s -> c < capacity cfg -> 0 <= q < c ->
  child (m' c) = 0 -> next (m' c) = q ->
  (q = 0 \/ (T q /\ on_chain m' q c)) ->
  (forall x, T x ->
     key (m' x) = key (m_nodes s x) /\ same_binding (m_nodes s) m' x /\
     (next (m' x) = next (m_nodes s x) \/
      (next (m_nodes s x) = par x /\ next (m' x) = c /\ par x = q)) /\
     (child (m' x) = child (m_nodes s x) \/
      (child (m_nodes s x) = 0 /\ child (m' x) = c /\ x = q))) ->
  grows cfg T par s
    (fun x => T x \/ x = c) (fun x => if x =? c then q else par x)
    (mk_binder m' (c + 1) (m_backends s)).
Proof.
  intros W Hc Hcap Hq Hchild Hnext Hlink Hold.
  assert (Hne : forall x, T x -> (x =? c) = false).
  { intros x Tx. apply Z.eqb_neq. destruct (wf_range _ _ _ _ W x Tx). lia. }
  assert (Hold' : forall y, T y ->
            (next (m' y) = next (m_nodes s y) \/ next (m_nodes s y) = par y) /\
            (child (m' y) = child (m_nodes s y) \/ child (m_nodes s y) = 0)).
  { intros y Ty. destruct (Hold y Ty) as (_ & _ & [E | (E & _)] & [E' | (E' & _)]);
      auto. }
  constructor; cbn [m_nodes m_next_node m_backends]; auto; try lia.
  - constructor; cbn [m_nodes m_next_node m_backends].
    + pose proof (wf_cursor _ _ _ _ W). lia.
    + intros x [Tx | ->]; [destruct (wf_range _ _ _ _ W x Tx); lia | lia].
    + intros x [Tx | ->].
      * rewrite (Hne x Tx). apply (wf_par _ _ _ _ W x Tx).
      * rewrite Z.eqb_refl. exact Hq.
    + intros x [Tx | ->].
      * destruct (Hold x Tx) as (_ & _ & _ & [Hc' | (H0 & Hc' & Hx)]).
        -- rewrite Hc'. destruct (wf_child _ _ _ _ W x Tx) as [E | [Tc E]].
           ++ left; exact E.
           ++ right. split; [left; exact Tc |]. rewrite (Hne _ Tc). exact E.
        -- right. rewrite Hc'. split; [right; reflexivity |].
           rewrite Z.eqb_refl. congruence.
      * left; exact Hchild.
    + intros x [Tx | ->].
      * rewrite (Hne x Tx).
        destruct (Hold x Tx) as (_ & _ & [Hn' | (Hb & Hn' & Hx)] & _).
        -- rewrite Hn'. destruct (wf_next _ _ _ _ W x Tx) as [E | (Tn & Hlt & E)].
           ++ left; exact E.
           ++ right. split; [left; exact Tn |]. split; [exact Hlt |].
              rewrite (Hne _ Tn). exact E.
        -- right. rewrite Hn'. split; [right; reflexivity |].
           split; [destruct (wf_range _ _ _ _ W x Tx); lia |].
           rewrite Z.eqb_refl. congruence.
      * left. rewrite Z.eqb_refl. exact Hnext.
    + intros x [Tx | ->].
      * rewrite (Hne x Tx).
        destruct (wf_linked _ _ _ _ W x Tx) as [E | [Tp C]]; [left; exact E |].
        right. split; [left; exact Tp |].
        exact (on_chain_preserved T par s m' _ _ W Tp Hold' C).
      * rewrite Z.eqb_refl. destruct Hlink as [E | [Tq C]]; [left; exact E |].
        right. split; [left; exact Tq | exact C].
  - intros x Tx. rewrite (Hne x Tx). reflexivity.
  - constructor.
    + intros x Tx. apply (Hold x Tx).
    + intros x Tx. destruct (Hold x Tx) as (_ & _ & [E | (E & _)] & _); auto.
    + intros x Tx. destruct (Hold x Tx) as (_ & _ & _ & [E | (E & _)]); auto.
  - intros x Tx. apply (Hold x Tx).
  - intros x [Tx | ->]; [left; exact Tx | right; lia].
Qed.

Lemma cursor_bump_grows (T : Z -> Prop) (par : Z -> Z) (s : binder) (k : Z) :
  wf cfg T par s -> 0 <= k ->
  grows cfg T par s T par (mk_binder (m_nodes s) (m_next_node s + k) (m_backends s)).
Proof.
  intros W Hk.
  constructor; cbn [m_nodes m_next_node m_backends]; auto; try lia.
  - destruct W as [Wc Wr Wp Wch Wn Wl].
    constructor; cbn [m_nodes m_next_node m_backends]; auto; try lia.
    intros x Tx. destruct (Wr x Tx). lia.
  - constructor; auto.
  - intros x _. repeat split.
Qed.

(** The node stored by [add_child] and [append]. *)
Lemma addee_fields (k q : Z) :
  let a := set_next (set_key zero_node k) q in
  key a = k /\ next a = q /\ child a = 0 /\ bound a = false.
Proof. cbn. repeat split. Qed.

(** What [add_child] does below a trie node of a well-shaped trie. *)
Lemma add_child_inv (T : Z -> Prop) (par : Z -> Z) (s : binder) (p k : Z) :
  wf cfg T par s -> T p ->
  let c := m_next_node s in
  let m := m_nodes s in
  let addee := set_next (set_key zero_node k) p in
  (capacity cfg <= c + 1 /\
   add_child cfg s p k = Ret (0, mk_binder m (c + 1) (m_backends s))) \/
  (c + 1 < capacity cfg /\
   ((child (m p) = 0 /\
     add_child cfg s p k =
       Ret (c, mk_binder (upd (upd m p (set_child (m p) c)) c addee)
                 (c + 1) (m_backends s))) \/
    (exists t,
       child (m p) <> 0 /\ find_tail cfg s (child (m p)) = Ret t /\
       T t /\ par t = p /\ next (m t) = p /\
       add_child cfg s p k =
         Ret (c, mk_binder (upd (upd m t (set_next (m t) c)) c addee)
                   (c + 1) (m_backends s))))).
Proof.
  intros W Tp c m addee.
  pose proof (wf_cursor _ _ _ _ W) as Hcur.
  destruct (wf_range _ _ _ _ W p Tp) as [Hp Hpc].
  unfold add_child, alloc_nodes. cbv beta iota zeta.
  cbn [m_nodes m_next_node m_backends with_nodes].
  fold c. fold m.
  destruct (Z.ltb_spec (c + 1) (capacity cfg)) as [Hlt | Hge].
  - right. split; [assumption |].
    replace (c + 1 - 1) with c by lia.
    replace (c <? 0) with false by (symmetry; apply Z.ltb_ge; lia).
    destruct (wf_child _ _ _ _ W p Tp) as [H0 | [Tc Hpc']].
    + left. fold m in H0. rewrite H0.
      replace (0 <? p) with true by (symmetry; apply Z.ltb_lt; lia).
      split; reflexivity.
    + right. fold m in Tc, Hpc'.
      destruct (wf_par _ _ _ _ W _ Tc) as [_ Hlt'].
      replace (child (m p) <? p) with false by (symmetry; apply Z.ltb_ge; lia).
      destruct (find_tail_wf T par s _ W Tc) as (t & E & Tt & Hpt & Hle & Hnt).
      exists t. unfold find_tail in *. cbn [m_nodes]. fold m in E. rewrite E.
      cbn [obind]. fold m in Hnt.
      repeat split; try assumption; try congruence; lia.
  - left. split; [assumption |]. reflexivity.
Qed.

Lemma link_child_grows (T : Z -> Prop) (par : Z -> Z) (s : binder) (p k : Z) :
  wf cfg T par s -> T p ->
  child (m_nodes s p) = 0 -> m_next_node s < capacity cfg ->
  let c := m_next_node s in
  grows cfg T par s
    (fun x => T x \/ x = c) (fun x => if x =? c then p else par x)
    (mk_binder
       (upd (upd (m_nodes s) p (set_child (m_nodes s p) c)) c
          (set_next (set_key zero_node k) p))
       (c + 1) (m_backends s)).
Proof.
  intros W Tp H0 Hcap c.
  destruct (wf_range _ _ _ _ W p Tp) as [Hp _]. fold c in Hp.
  assert (Hpc : child (upd (upd (m_nodes s) p (set_child (m_nodes s p) c)) c
                         (set_next (set_key zero_node k) p) p) = c).
  { rewrite upd_other by lia. rewrite upd_same. reflexivity. }
  apply fresh_node_grows.
  - exact W.
  - reflexivity.
  - exact Hcap.
  - lia.
  - rewrite upd_same. reflexivity.
  - rewrite upd_same. reflexivity.
  - right. split; [exact Tp |].
    pose proof (on_chain_first
                  (upd (upd (m_nodes s) p (set_child (m_nodes s p) c)) c
                     (set_next (set_key zero_node k) p)) p) as F.
    rewrite Hpc in F. apply F. lia.
  - intros x Tx. destruct (wf_range _ _ _ _ W x Tx) as [Hx _]. fold c in Hx.
    rewrite (upd_other _ c x) by lia.
    destruct (Z.eq_dec x p) as [-> | Hne].
    + rewrite upd_same. cbn. unfold same_binding.
      rewrite upd_other by lia. rewrite upd_same. cbn.
      repeat split; auto.
    + rewrite upd_other by assumption. unfold same_binding.
      rewrite (upd_other _ c x) by lia.
      rewrite upd_other by assumption. repeat split; auto.
Qed.

Lemma link_tail_grows (T : Z -> Prop) (par : Z -> Z) (s : binder) (t k : Z) :
  wf cfg T par s -> T t ->
  next (m_nodes s t) = par t -> m_next_node s < capacity cfg ->
  let c := m_next_node s in
  grows cfg T par s
    (fun x => T x \/ x = c) (fun x => if x =? c then par t else par x)
    (mk_binder
       (upd (upd (m_nodes s) t (set_next (m_nodes s t) c)) c
          (set_next (set_key zero_node k) (par t)))
       (c + 1) (m_backends s)).
Proof.
  intros W Tt Hn Hcap c.
  destruct (wf_range _ _ _ _ W t Tt) as [Ht _]. fold c in Ht.
  destruct (wf_par _ _ _ _ W t Tt) as [Hp0 Hp1].
  set (m' := upd (upd (m_nodes s) t (set_next (m_nodes s t) c)) c
               (set_next (set_key zero_node k) (par t))).
  assert (Hold : forall x, T x ->
     key (m' x) = key (m_nodes s x) /\ same_binding (m_nodes s) m' x /\
     (next (m' x) = next (m_nodes s x) \/
      (next (m_nodes s x) = par x /\ next (m' x) = c /\ par x = par t)) /\
     (child (m' x) = child (m_nodes s x) \/
      (child (m_nodes s x) = 0 /\ child (m' x) = c /\ x = par t))).
  { intros x Tx. destruct (wf_range _ _ _ _ W x Tx) as [Hx _]. fold c in Hx.
    unfold m'. rewrite (upd_other _ c x) by lia.
    destruct (Z.eq_dec x t) as [-> | Hne].
    + rewrite upd_same. cbn. unfold same_binding.
      rewrite upd_other by lia. rewrite upd_same. cbn.
      repeat split; auto.
    + rewrite upd_other by assumption. unfold same_binding.
      rewrite (upd_other _ c x) by lia.
      rewrite upd_other by assumption. repeat split; auto. }
  assert (Hnt : next (m' t) = c).
  { unfold m'. rewrite upd_other by lia. rewrite upd_same. reflexivity. }
  apply fresh_node_grows.
  - exact W.
  - reflexivity.
  - exact Hcap.
  - lia.
  - unfold m'. rewrite upd_same. reflexivity.
  - unfold m'. rewrite upd_same. reflexivity.
  - destruct (wf_linked _ _ _ _ W t Tt) as [E | [Tp C]]; [left; exact E |].
    right. split; [exact Tp |].
    pose proof (on_chain_next m' (par t) t) as F. rewrite Hnt in F.
    apply F; [| lia].
    apply (on_chain_preserved T par s m' _ _ W Tp); [| exact C].
    intros y Ty. destruct (Hold y Ty) as (_ & _ & [E | (E & _)] & [E' | (E' & _)]);
      auto.
  - exact Hold.
Qed.

(** ** find_child while the trie grows *)

Lemma find_child_loop_mono (m : pool) (p k : Z) :
  forall (fuel fuel' : nat) (idx c : Z),
    find_child_loop fuel m p k idx = Ret c -> (fuel <= fuel')%nat ->
    find_child_loop fuel' m p k idx = Ret c.
Proof.
  induction fuel as [|fuel IH]; intros fuel' idx c E Hle; [discriminate |].
  destruct fuel' as [|fuel']; [lia |].
  cbn [find_child_loop] in *.
  destruct (idx >? p); [| exact E].
  destruct (key (m idx) =? k); [exact E |].
  apply IH; [exact E | lia].
Qed.

Lemma find_child_loop_at_parent (m : pool) (p k c : Z) (fuel : nat) :
  find_child_loop fuel m p k p = Ret c -> c = 0.
Proof.
  destruct fuel as [|fuel]; [discriminate |].
  cbn [find_child_loop]. rewrite gtb_false by lia. congruence.
Qed.

(** A key that is found stays found at the same node. *)
Lemma find_child_loop_stable (T : Z -> Prop) (par : Z -> Z) (s : binder)
    (m' : pool) (p k : Z) :
  wf cfg T par s -> extends T par (m_nodes s) m' ->
  forall (fuel : nat) (idx c : Z),
    T idx -> par idx = p ->
    find_child_loop fuel (m_nodes s) p k idx = Ret c -> c <> 0 ->
    find_child_loop fuel m' p k idx = Ret c.
Proof.
  intros W [K N C]. induction fuel as [|fuel IH]; intros idx c Ti Hpi E Hc;
    [discriminate |].
  cbn [find_child_loop] in *.
  destruct (idx >? p); [| congruence].
  rewrite (K idx Ti).
  destruct (key (m_nodes s idx) =? k); [exact E |].
  destruct (wf_next _ _ _ _ W idx Ti) as [Hback | (Tn & _ & Hpn)].
  - rewrite Hback, Hpi in E. apply find_child_loop_at_parent in E. contradiction.
  - destruct (N idx Ti) as [-> | Hback].
    + apply IH; [exact Tn | congruence | exact E | exact Hc].
    + rewrite Hback, Hpi in E. apply find_child_loop_at_parent in E. contradiction.
Qed.

Lemma find_child_stable (T : Z -> Prop) (par : Z -> Z) (s s' : binder) (p k c : Z) :
  wf cfg T par s -> extends T par (m_nodes s) (m_nodes s') -> T p ->
  find_child cfg s p k = Ret c -> c <> 0 ->
  find_child cfg s' p k = Ret c.
Proof.
  intros W X Tp E Hc. unfold find_child in *.
  destruct (wf_range _ _ _ _ W p Tp) as [Hp _].
  destruct (wf_child _ _ _ _ W p Tp) as [H0 | [Tc Hpc]].
  - rewrite H0 in E. unfold pool_fuel in E. cbn [find_child_loop] in E.
    rewrite gtb_false in E by lia. congruence.
  - destruct (ext_child _ _ _ _ X p Tp) as [-> | H0].
    + apply (find_child_loop_stable T par s (m_nodes s') p k W X); assumption.
    + rewrite H0 in E. unfold pool_fuel in E. cbn [find_child_loop] in E.
      rewrite gtb_false in E by lia. congruence.
Qed.

(** A key that is missing is found at the node linked behind the tail. *)
Lemma find_child_loop_link (T : Z -> Prop) (par : Z -> Z) (s : binder)
    (p k t : Z) (a : node) :
  wf cfg T par s -> T t -> par t = p -> key a = k ->
  let c := m_next_node s in
  let m' := upd (upd (m_nodes s) t (set_next (m_nodes s t) c)) c a in
  forall (fuel fuel2 : nat) (idx : Z),
    T idx -> par idx = p ->
    find_tail_loop fuel2 (m_nodes s) idx = Ret t ->
    find_child_loop fuel (m_nodes s) p k idx = Ret 0 ->
    find_child_loop (S fuel) m' p k idx = Ret c.
Proof.
  intros W Tt Hpt Hka c m'.
  assert (Hc : forall x, T x -> x <> c).
  { intros x Tx. destruct (wf_range _ _ _ _ W x Tx). unfold c. lia. }
  destruct (wf_par _ _ _ _ W t Tt) as [_ Hpt'].
  induction fuel as [|fuel IH]; intros fuel2 idx Ti Hpi Etail E; [discriminate |].
  destruct (wf_par _ _ _ _ W idx Ti) as [_ Hlt].
  cbn [find_child_loop] in E. change (find_child_loop (S (S fuel)) m' p k idx)
    with (if idx >? p then
            if key (m' idx) =? k then Ret idx
            else find_child_loop (S fuel) m' p k (next (m' idx))
          else Ret 0).
  rewrite gtb_true in * by lia.
  assert (Hkey : key (m' idx) = key (m_nodes s idx)).
  { unfold m'. rewrite upd_other by (apply Hc; exact Ti).
    destruct (Z.eq_dec idx t) as [-> | Hne];
      [rewrite upd_same; reflexivity | rewrite upd_other by assumption; reflexivity]. }
  rewrite Hkey.
  destruct (Z.eqb_spec (key (m_nodes s idx)) k) as [Hk | Hk].
  { injection E as E. destruct (wf_range _ _ _ _ W idx Ti). lia. }
  destruct fuel2 as [|fuel2]; [discriminate |].
  cbn [find_tail_loop] in Etail.
  destruct (Z.eq_dec idx t) as [-> | Hne].
  - assert (Hn : next (m' t) = c).
    { unfold m'. rewrite upd_other by (apply Hc; exact Tt). rewrite upd_same.
      reflexivity. }
    rewrite Hn. destruct fuel as [|fuel]; [discriminate |].
    cbn [find_child_loop].
    rewrite gtb_true by (destruct (wf_range _ _ _ _ W t Tt); unfold c; lia).
    unfold m' at 1. rewrite upd_same. rewrite Hka, Z.eqb_refl. reflexivity.
  - assert (Hn : next (m' idx) = next (m_nodes s idx)).
    { unfold m'. rewrite upd_other by (apply Hc; exact Ti).
      rewrite upd_other by assumption. reflexivity. }
    rewrite Hn.
    destruct (next (m_nodes s idx) >? idx) eqn:Hgt; [| congruence].
    destruct (wf_next _ _ _ _ W idx Ti) as [Hback | (Tn & _ & Hpn)].
    + rewrite Hback in Hgt. rewrite gtb_false in Hgt by lia. discriminate.
    + apply (IH fuel2); [exact Tn | congruence | exact Etail | exact E].
Qed.

(** ** insert_child and the key loop of bind *)

Lemma insert_child_grows (T : Z -> Prop) (par : Z -> Z) (s : binder) (p k : Z) :
  wf cfg T par s -> T p ->
  exists c s' T' par',
    insert_child cfg s p k = Ret (c, s') /\
    grows cfg T par s T' par' s' /\
    m_next_node s' <= m_next_node s + 1 /\
    ((c = 0 /\ capacity cfg <= m_next_node s + 1 /\
      m_next_node s' = m_next_node s + 1) \/
     (c <> 0 /\ T' c /\ par' c = p /\ key (m_nodes s' c) = k /\
      find_child cfg s' p k = Ret c)).
Proof.
  intros W Tp.
  pose proof (wf_cursor _ _ _ _ W) as Hcur.
  destruct (wf_range _ _ _ _ W p Tp) as [Hp Hpcap].
  destruct (find_child_wf T par s p k W Tp) as (c0 & E & Hc0).
  unfold insert_child. rewrite E. cbn [obind].
  destruct (Z.eqb_spec c0 0) as [-> | Hne].
  - destruct (add_child_inv T par s p k W Tp)
      as [[Hfull Eadd] | [Hroom [[H0 Eadd] | (t & Hch & Etail & Tt & Hpt & Hnt & Eadd)]]];
      rewrite Eadd.
    + exists 0, (mk_binder (m_nodes s) (m_next_node s + 1) (m_backends s)), T, par.
      split; [reflexivity |]. split; [apply cursor_bump_grows; [exact W | lia] |].
      cbn [m_next_node]. split; [lia |]. left. repeat split; lia.
    + pose proof (link_child_grows T par s p k W Tp H0 ltac:(lia)) as G.
      cbv zeta in G.
      eexists _, _, _, _. split; [reflexivity |]. split; [exact G |].
      cbn [m_next_node m_nodes]. split; [lia |]. right.
      split; [lia |]. split; [right; reflexivity |].
      rewrite Z.eqb_refl. split; [reflexivity |].
      rewrite upd_same. split; [reflexivity |].
      unfold find_child, pool_fuel. cbn [m_nodes find_child_loop].
      rewrite (upd_other _ _ p) by lia. rewrite upd_same. cbn [child set_child].
      rewrite gtb_true by lia. rewrite upd_same. cbn. rewrite Z.eqb_refl. reflexivity.
    + pose proof (link_tail_grows T par s t k W Tt ltac:(congruence) ltac:(lia)) as G.
      cbv zeta in G. rewrite Hpt in G.
      eexists _, _, _, _. split; [reflexivity |]. split; [exact G |].
      cbn [m_next_node m_nodes]. split; [lia |]. right.
      split; [lia |]. split; [right; reflexivity |].
      rewrite Z.eqb_refl. split; [reflexivity |].
      rewrite upd_same. split; [reflexivity |].
      destruct (wf_child _ _ _ _ W p Tp) as [H0 | [Tc Hpc]]; [contradiction |].
      pose proof (find_child_loop_link T par s p k t
                    (set_next (set_key zero_node k) p) W Tt Hpt eq_refl
                    (pool_fuel cfg) (pool_fuel cfg) _ Tc Hpc Etail E) as L.
      cbv zeta in L.
      destruct (find_child_wf _ _ _ p k (gr_wf _ _ _ _ _ _ _ G) (or_introl Tp))
        as (c' & E' & _).
      unfold find_child in E' |- *. cbn [m_nodes] in E' |- *.
      assert (Hchild : child (upd (upd (m_nodes s) t
                 (set_next (m_nodes s t) (m_next_node s))) (m_next_node s)
                 (set_next (set_key zero_node k) p) p) = child (m_nodes s p)).
      { rewrite upd_other by lia.
        destruct (Z.eq_dec p t) as [-> | Hpt'];
          [rewrite upd_same; reflexivity | rewrite upd_other by assumption; reflexivity]. }
      rewrite Hchild in E' |- *.
      pose proof (find_child_loop_mono _ _ _ _ (S (pool_fuel cfg)) _ _ E' ltac:(lia)) as M.
      congruence.
  - destruct Hc0 as [-> | (Tc & Hpc & Hk)]; [contradiction |].
    exists c0, s, T, par. split; [reflexivity |].
    split; [apply grows_refl; exact W |]. split; [lia |].
    right. repeat split; assumption.
Qed.

Lemma insert_keys_grows (T : Z -> Prop) (par : Z -> Z) (keys : list Z) :
  forall (s : binder) (head d : Z),
    wf cfg T par s -> T head ->
    exists r s' T' par',
      insert_keys cfg s head keys d = Ret (r, s') /\
      grows cfg T par s T' par' s' /\
      m_next_node s' <= m_next_node s + Z.of_nat (length keys) /\
      ((r = None /\ m_next_node s < m_next_node s' /\
        capacity cfg <= m_next_node s + Z.of_nat (length keys)) \/
       (exists h,
          r = Some (h, d + Z.of_nat (length keys)) /\ T' h /\
          find_path cfg s' head keys = Ret h)).
Proof.
  revert T par. induction keys as [|k rest IH]; intros T par s head d W Th.
  - exists (Some (head, d)), s, T, par. cbn [insert_keys length find_path].
    split; [reflexivity |]. split; [apply grows_refl; exact W |].
    split; [lia |]. right. exists head.
    split; [f_equal; f_equal; lia |]. split; [exact Th | reflexivity].
  - destruct (insert_child_grows T par s head k W Th)
      as (c & s1 & T1 & par1 & E1 & G1 & Hcur1 & Hres).
    cbn [insert_keys]. rewrite E1. cbn [obind].
    destruct Hres as [(-> & Hfull & Hc1) | (Hc & Tc & Hpc & Hk & Efind)].
    + exists None, s1, T1, par1. cbn [Z.eqb length].
      split; [reflexivity |]. split; [exact G1 |].
      split; [lia |]. left. repeat split; lia.
    + apply Z.eqb_neq in Hc. rewrite Hc.
      destruct (IH T1 par1 s1 c (d + 1) (gr_wf _ _ _ _ _ _ _ G1) Tc)
        as (r & s' & T' & par' & E & G & Hcur & Hres).
      exists r, s', T', par'. split; [exact E |].
      split; [exact (grows_trans _ _ _ _ _ _ _ _ _ G1 G) |].
      pose proof (gr_cursor _ _ _ _ _ _ _ G1) as Hmono.
      cbn [length]. split; [lia |].
      destruct Hres as [(-> & Hlt & Hfull) | (h & -> & Th' & Epath)].
      * left. repeat split; lia.
      * right. exists h. split; [f_equal; f_equal; lia |]. split; [exact Th' |].
        cbn [find_path].
        rewrite (find_child_stable T1 par1 s1 s' head k c
                   (gr_wf _ _ _ _ _ _ _ G1) (gr_ext _ _ _ _ _ _ _ G)
                   (gr_sub _ _ _ _ _ _ _ G1 head Th) Efind
                   ltac:(apply Z.eqb_neq; exact Hc)).
        cbn [obind]. rewrite Hc. exact Epath.
Qed.

(** ** append, the commit, the registry and the groups *)

Lemma append_inv (T : Z -> Prop) (par : Z -> Z) (s : binder) (h k : Z) :
  wf cfg T par s -> T h ->
  let c := m_next_node s in
  let m := m_nodes s in
  (capacity cfg <= c + 1 /\
   append cfg s h k = Ret (0, mk_binder m (c + 1) (m_backends s))) \/
  (c + 1 < capacity cfg /\
   exists t,
     find_tail cfg s h = Ret t /\ T t /\ par t = par h /\ h <= t /\
     next (m t) = par t /\
     append cfg s h k =
       Ret (c, mk_binder
                 (upd (upd m t (set_next (m t) c)) c
                    (set_next (set_key zero_node k) (par t)))
                 (c + 1) (m_backends s))).
Proof.
  intros W Th c m.
  pose proof (wf_cursor _ _ _ _ W) as Hcur.
  unfold append, alloc_nodes. cbv beta iota zeta.
  cbn [m_nodes m_next_node m_backends with_nodes].
  fold c. fold m.
  destruct (Z.ltb_spec (c + 1) (capacity cfg)) as [Hlt | Hge].
  - right. split; [assumption |].
    replace (c + 1 - 1) with c by lia.
    replace (c <? 0) with false by (symmetry; apply Z.ltb_ge; lia).
    destruct (find_tail_wf T par s h W Th) as (t & E & Tt & Hpt & Hle & Hnt).
    exists t. unfold find_tail in *. cbn [m_nodes]. fold m in E, Hnt. rewrite E.
    cbn [obind]. rewrite Hnt. repeat split; assumption.
  - left. split; [assumption |]. reflexivity.
Qed.

Lemma commit_wf (T : Z -> Prop) (par : Z -> Z) (s : binder) (x b d i : Z) :
  wf cfg T par s ->
  wf cfg T par
    (with_nodes s (upd (m_nodes s) x (set_binding (m_nodes s x) b d i))).
Proof.
  intros W. pose proof W as [Wc Wr Wp Wch Wn Wl].
  assert (Hn : forall y, next (upd (m_nodes s) x (set_binding (m_nodes s x) b d i) y)
                         = next (m_nodes s y)).
  { intro y. unfold upd. destruct (y =? x) eqn:E; [| reflexivity].
    apply Z.eqb_eq in E. subst. reflexivity. }
  assert (Hc : forall y, child (upd (m_nodes s) x (set_binding (m_nodes s x) b d i) y)
                         = child (m_nodes s y)).
  { intro y. unfold upd. destruct (y =? x) eqn:E; [| reflexivity].
    apply Z.eqb_eq in E. subst. reflexivity. }
  constructor; cbn [m_nodes m_next_node with_nodes]; auto.
  - intros y Ty. rewrite !Hc. auto.
  - intros y Ty. rewrite !Hn. auto.
  - intros y Ty. destruct (Wl y Ty) as [E | [Tp C]]; [left; exact E |].
    right. split; [exact Tp |].
    apply (on_chain_preserved T par s _ _ _ W Tp); [| exact C].
    intros z _. rewrite Hn, Hc. auto.
Qed.

Lemma add_backend_wf (T : Z -> Prop) (par : Z -> Z) (s : binder) (h : Z) :
  wf cfg T par s -> wf cfg T par (snd (add_backend cfg s h)).
Proof.
  intros [Wc Wr Wp Wch Wn Wl].
  destruct (add_backend_nodes s h) as [Hn Hc].
  constructor; rewrite ?Hn, ?Hc; auto.
Qed.

Lemma new_binder_wf (mem : pool) :
  2 <= capacity cfg ->
  wf cfg (fun x => x = 1) (fun _ => 0) (new_binder mem).
Proof.
  intro Hcap. unfold new_binder.
  constructor; cbn [m_nodes m_next_node]; try lia.
  - intros x ->. left. rewrite upd_same. reflexivity.
  - intros x ->. left. rewrite upd_same. reflexivity.
Qed.

Lemma create_group_wf (T : Z -> Prop) (par : Z -> Z) (s s' : binder)
    (name : list Z) (r : Z) :
  wf cfg T par s ->
  create_group cfg s name = Ret (r, s') ->
  exists T' par',
    wf cfg T' par' s' /\ (forall x, T x -> T' x) /\ (0 <= r -> T' r).
Proof.
  intros W E. pose proof W as [Wc Wr Wp Wch Wn Wl].
  apply create_group_inv in E.
  destruct E as [(-> & -> & _) | (-> & Hc0 & Hlt & Hcur & _ & Hm)].
  - exists T, par. split; [| split; [auto | lia]].
    exact (gr_wf _ _ _ _ _ _ _ (cursor_bump_grows T par s 2 W ltac:(lia))).
  - cbv zeta in Hm. set (c := m_next_node s) in *.
    assert (Hold : forall x, T x -> m_nodes s' x = m_nodes s x).
    { intros x Tx. destruct (Wr x Tx) as [Hx _]. rewrite Hm.
      rewrite (upd_other _ (c + 1) x) by lia. rewrite (upd_other _ 0 x) by lia.
      rewrite (upd_other _ c x) by lia. apply upd_other. lia. }
    assert (Hne : forall x, T x -> (x =? c + 1) = false).
    { intros x Tx. destruct (Wr x Tx). apply Z.eqb_neq. lia. }
    exists (fun x => T x \/ x = c + 1), (fun x => if x =? c + 1 then 0 else par x).
    split; [| split; [intros x Tx; left; exact Tx | intros _; right; reflexivity]].
    constructor.
    + lia.
    + intros x [Tx | ->]; [destruct (Wr x Tx); lia | lia].
    + intros x [Tx | ->]; [rewrite (Hne x Tx); auto | rewrite Z.eqb_refl; lia].
    + intros x [Tx | ->].
      * rewrite (Hold x Tx). destruct (Wch x Tx) as [E | [Tc E]]; [left; exact E |].
        right. split; [left; exact Tc |]. rewrite (Hne _ Tc). exact E.
      * left. rewrite Hm, upd_same. reflexivity.
    + intros x [Tx | ->].
      * rewrite (Hold x Tx), (Hne x Tx).
        destruct (Wn x Tx) as [E | (Tn & Hl & E)]; [left; exact E |].
        right. split; [left; exact Tn |]. split; [exact Hl |].
        rewrite (Hne _ Tn). exact E.
      * left. rewrite Hm, upd_same, Z.eqb_refl. reflexivity.
    + intros x [Tx | ->].
      * rewrite (Hne x Tx).
        destruct (Wl x Tx) as [E | [Tp C]]; [left; exact E |].
        right. split; [left; exact Tp |].
        apply (on_chain_preserved T par s _ _ _ W Tp); [| exact C].
        intros y Ty. rewrite (Hold y Ty). auto.
      * left. rewrite Z.eqb_refl. reflexivity.
Qed.

(** ** bind on a well-shaped trie *)

(** The scan for an equal binding starts with [check = head] and tests
    [check > head]: it ends at once and reports nothing. *)
Lemma dup_scan_finds_nothing (fuel : nat) (m : pool) (head k b i : Z) (n : node) :
  dup_scan (S fuel) m head k b i head n = Ret false.
Proof. cbn [dup_scan]. rewrite gtb_false by lia. reflexivity. Qed.

Lemma bind_keys_wf (T : Z -> Prop) (par : Z -> Z) (s : binder)
    (group : Z) (keys : list Z) (b i : Z) :
  wf cfg T par s -> T group ->
  bind_keys cfg s group keys b i = Undefined \/
  exists ok s' T' par',
    bind_keys cfg s group keys b i = Ret (ok, s') /\
    wf cfg T' par' s' /\ (forall x, T x -> T' x).
Proof.
  intros W Tg.
  destruct (insert_keys_grows T par keys s group 0 W Tg)
    as (r & s2 & T2 & par2 & E & G & _ & Hres).
  pose proof (gr_wf _ _ _ _ _ _ _ G) as W2.
  pose proof (gr_sub _ _ _ _ _ _ _ G) as Sub.
  unfold bind_keys. rewrite E. cbn [obind].
  destruct Hres as [(-> & _) | (h & -> & Th & _)].
  - right. exists false, s2, T2, par2. auto.
  - destruct (wf_range _ _ _ _ W2 h Th) as [Hh _].
    destruct (bound (m_nodes s2 h)).
    + destruct keys as [|k0 keys']; [left; reflexivity | right].
      unfold pool_fuel. rewrite dup_scan_finds_nothing. cbn [obind].
      destruct (append_inv T2 par2 s2 h (last (k0 :: keys') 0) W2 Th)
        as [[Hfull Eapp] | [Hroom (t & _ & Tt & _ & _ & Hnt & Eapp)]];
        rewrite Eapp; cbn [obind].
      * eexists _, _, T2, par2. split; [reflexivity |].
        unfold commit. cbn [Z.eqb snd].
        split; [| exact Sub].
        exact (gr_wf _ _ _ _ _ _ _ (cursor_bump_grows T2 par2 s2 1 W2 ltac:(lia))).
      * pose proof (link_tail_grows T2 par2 s2 t (last (k0 :: keys') 0) W2 Tt Hnt
                      ltac:(lia)) as G3.
        cbv zeta in G3. unfold commit.
        replace (m_next_node s2 =? 0) with false
          by (symmetry; apply Z.eqb_neq; pose proof (wf_cursor _ _ _ _ W2); lia).
        eexists _, _, _, _. split; [reflexivity |].
        split; [apply commit_wf; exact (gr_wf _ _ _ _ _ _ _ G3) |].
        intros x Tx. left. apply Sub. exact Tx.
    + right. unfold commit.
      replace (h =? 0) with false by (symmetry; apply Z.eqb_neq; lia).
      eexists _, _, T2, par2. split; [reflexivity |].
      split; [apply commit_wf; exact W2 | exact Sub].
Qed.

Lemma bind_wf (T : Z -> Prop) (par : Z -> Z) (s : binder)
    (group : Z) (chord : list Z) (handler i : Z) :
  wf cfg T par s -> T group ->
  bind cfg s group chord handler i = Undefined \/
  exists ok s' T' par',
    bind cfg s group chord handler i = Ret (ok, s') /\
    wf cfg T' par' s' /\ (forall x, T x -> T' x).
Proof.
  intros W Tg. unfold bind.
  assert (Same : exists ok s' T' par',
            Ret (false, s) = Ret (ok, s') /\ wf cfg T' par' s' /\
            (forall x, T x -> T' x)).
  { exists false, s, T, par. auto. }
  destruct (capacity cfg <=? group); [right; exact Same |].
  destruct (has_high_byte chord); [right; exact Same |].
  destruct (translate_chord 64 chord (translated0 cfg)) as [t |];
    [| right; exact Same].
  destruct (negb ((0 <=? tr_end t) && (tr_end t <? 64))); [left; reflexivity |].
  pose proof (add_backend_wf T par s handler W) as W1.
  destruct (add_backend cfg s handler) as [b s1]. cbn [snd] in W1.
  destruct (b <? 0).
  - right. exists false, s1, T, par. auto.
  - apply (bind_keys_wf T par); assumption.
Qed.

(** Every reachable state is well shaped, and its group handles are trie
    nodes. *)
Lemma reachable_wf (s : binder) (roots : list Z) :
  2 <= capacity cfg ->
  reachable cfg s roots ->
  exists T par, wf cfg T par s /\ (forall r, In r roots -> T r).
Proof.
  intros Hcap R. induction R as
    [mem | s roots name r s' R IH E | s roots group chord handler i ok s' R IH Hin E].
  - exists (fun x => x = 1), (fun _ => 0). split; [apply new_binder_wf; exact Hcap |].
    intros r [<- | []]. reflexivity.
  - destruct IH as (T & par & W & Hroots).
    destruct (create_group_wf T par s s' name r W E) as (T' & par' & W' & Sub & Hr).
    exists T', par'. split; [exact W' |].
    destruct (Z.ltb_spec r 0) as [Hneg | Hpos].
    + intros x Hx. apply Sub, Hroots, Hx.
    + intros x [<- | Hx]; [apply Hr; exact Hpos | apply Sub, Hroots, Hx].
  - destruct IH as (T & par & W & Hroots).
    destruct (bind_wf T par s group chord handler i W (Hroots _ Hin))
      as [U | (ok' & s'' & T' & par' & E' & W' & Sub)]; [congruence |].
    rewrite E in E'. injection E' as <- <-.
    exists T', par'. split; [exact W' |]. intros x Hx. apply Sub, Hroots, Hx.
Qed.

(** ** Sibling chains *)

Lemma trie_node_wf (T : Z -> Prop) (par : Z -> Z) (s : binder)
    (roots : list Z) (p : Z) :
  wf cfg T par s -> (forall r, In r roots -> T r) ->
  trie_node s roots p -> T p.
Proof.
  intros W Hroots N. induction N as [r Hin | p x N IH C].
  - apply Hroots, Hin.
  - apply (on_chain_wf T par s p x W IH C).
Qed.

(** C8, as the code has it.  In every state reached from the constructor by
    [create_group] and by [bind] on group handles (the default group and the
    roots [create_group] returned), the sibling chain of every trie node [p] is
    strictly increasing: a slot [x] visited by the loop of [find_child] lies
    above [p], and its [next], when it is greater than [p] and so continues
    the chain, is greater than [x].  On such a state [find_child] returns for
    every key and [find_tail] returns. *)
Theorem sibling_chains_increase (s : binder) (roots : list Z) (p : Z) :
  2 <= capacity cfg ->
  reachable cfg s roots ->
  trie_node s roots p ->
  (forall x, on_chain (m_nodes s) p x ->
     p < x /\ (next (m_nodes s x) > p -> x < next (m_nodes s x))) /\
  (forall k, exists c, find_child cfg s p k = Ret c) /\
  (exists t, find_tail cfg s p = Ret t).
Proof.
  intros Hcap R N.
  destruct (reachable_wf s roots Hcap R) as (T & par & W & Hroots).
  pose proof (trie_node_wf T par s roots p W Hroots N) as Tp.
  split; [| split].
  - intros x C. destruct (on_chain_wf T par s p x W Tp C) as [Tx Hpx].
    destruct (wf_par _ _ _ _ W x Tx) as [_ Hlt].
    split; [lia |]. intro Hgt.
    destruct (wf_next _ _ _ _ W x Tx) as [Hback | (_ & Hn & _)]; lia.
  - intro k. destruct (find_child_wf T par s p k W Tp) as (c & E & _).
    exists c; exact E.
  - destruct (find_tail_wf T par s p W Tp) as (t & E & _).
    exists t; exact E.
Qed.

(** ** The cursor *)

Lemma add_child_cursor (s s' : binder) (p k c : Z) :
  add_child cfg s p k = Ret (c, s') -> m_next_node s' = m_next_node s + 1.
Proof.
  unfold add_child, alloc_nodes. cbv beta iota zeta.
  cbn [m_nodes m_next_node m_backends with_nodes].
  destruct ((if m_next_node s + 1 <? capacity cfg
             then m_next_node s + 1 - 1 else -1) <? 0).
  - intro H; injection H as _ <-. reflexivity.
  - destruct (child (m_nodes s p) <? p).
    + intro H; injection H as _ <-. reflexivity.
    + destruct (find_tail cfg _ _); cbn [obind]; try discriminate.
      intro H; injection H as _ <-. reflexivity.
Qed.

Lemma append_cursor (s s' : binder) (h k c : Z) :
  append cfg s h k = Ret (c, s') -> m_next_node s' = m_next_node s + 1.
Proof.
  unfold append, alloc_nodes. cbv beta iota zeta.
  cbn [m_nodes m_next_node m_backends with_nodes].
  destruct ((if m_next_node s + 1 <? capacity cfg
             then m_next_node s + 1 - 1 else -1) <? 0).
  - intro H; injection H as _ <-. reflexivity.
  - destruct (find_tail cfg _ _); cbn [obind]; try discriminate.
    intro H; injection H as _ <-. reflexivity.
Qed.

Lemma insert_child_cursor (s s' : binder) (p k c : Z) :
  insert_child cfg s p k = Ret (c, s') ->
  m_next_node s <= m_next_node s' /\ (c = 0 -> m_next_node s < m_next_node s').
Proof.
  unfold insert_child.
  destruct (find_child cfg s p k) as [c0 | |]; cbn [obind]; try discriminate.
  destruct (Z.eqb_spec c0 0) as [-> | Hne].
  - intro E. apply add_child_cursor in E. lia.
  - intro H; injection H as <- <-. split; [lia | contradiction].
Qed.

Lemma insert_keys_cursor (keys : list Z) :
  forall (s s' : binder) (head d : Z) (r : option (Z * Z)),
    insert_keys cfg s head keys d = Ret (r, s') ->
    m_next_node s <= m_next_node s' /\
    (r = None -> m_next_node s < m_next_node s') /\
    (forall h d', r = Some (h, d') -> head <> 0 -> h <> 0).
Proof.
  induction keys as [|k rest IH]; intros s s' head d r E; cbn [insert_keys] in E.
  - injection E as <- <-. split; [lia |]. split; [discriminate |].
    intros h d' H; injection H as <- _. auto.
  - destruct (insert_child cfg s head k) as [[c s1] | |] eqn:E1;
      cbn [obind] in E; try discriminate.
    apply insert_child_cursor in E1. destruct E1 as [Hle Hz].
    destruct (Z.eqb_spec c 0) as [-> | Hne].
    + injection E as <- <-. split; [lia |]. split; [intros _; apply Hz; reflexivity |].
      discriminate.
    + apply IH in E. destruct E as (Hle' & Hnone & Hsome).
      split; [lia |]. split; [intro H; specialize (Hnone H); lia |].
      intros h d' H _. apply (Hsome h d' H Hne).
Qed.


(** ** Paths *)

Lemma find_child_found (T : Z -> Prop) (par : Z -> Z) (s : binder) (p k c : Z) :
  wf cfg T par s -> T p -> find_child cfg s p k = Ret c -> c <> 0 ->
  T c /\ par c = p /\ key (m_nodes s c) = k.
Proof.
  intros W Tp E Hc.
  destruct (find_child_wf T par s p k W Tp) as (c' & E' & [-> | H]).
  - congruence.
  - rewrite E in E'. injection E' as <-. exact H.
Qed.

Lemma find_path_cons_inv (s : binder) (head k h : Z) (rest : list Z) :
  find_path cfg s head (k :: rest) = Ret h -> h <> 0 ->
  exists c, find_child cfg s head k = Ret c /\ c <> 0 /\
            find_path cfg s c rest = Ret h.
Proof.
  cbn [find_path]. intros E Hh.
  destruct (find_child cfg s head k) as [c | |]; cbn [obind] in E; try discriminate.
  destruct (Z.eqb_spec c 0) as [Hz | Hc]; [congruence |].
  exists c. auto.
Qed.

Lemma find_path_wf (T : Z -> Prop) (par : Z -> Z) (s : binder) (keys : list Z) :
  wf cfg T par s ->
  forall head h, T head -> find_path cfg s head keys = Ret h -> h <> 0 -> T h.
Proof.
  intro W. induction keys as [|k rest IH]; intros head h Th E Hh.
  - cbn in E. injection E as <-. exact Th.
  - destruct (find_path_cons_inv s head k h rest E Hh) as (c & Ec & Hc & Er).
    destruct (find_child_found T par s head k c W Th Ec Hc) as [Tc _].
    exact (IH c h Tc Er Hh).
Qed.

(** Along a path that exists, the key loop of [bind] adds nothing. *)
Lemma find_path_insert (T : Z -> Prop) (par : Z -> Z) (s : binder) (keys : list Z) :
  wf cfg T par s ->
  forall head h d, T head -> find_path cfg s head keys = Ret h -> h <> 0 ->
    insert_keys cfg s head keys d = Ret (Some (h, d + Z.of_nat (length keys)), s).
Proof.
  intro W. induction keys as [|k rest IH]; intros head h d Th E Hh.
  - cbn in E. injection E as <-. cbn [insert_keys length].
    replace (d + Z.of_nat 0) with d by lia. reflexivity.
  - destruct (find_path_cons_inv s head k h rest E Hh) as (c & Ec & Hc & Er).
    destruct (find_child_found T par s head k c W Th Ec Hc) as [Tc _].
    cbn [insert_keys]. unfold insert_child. rewrite Ec. cbn [obind].
    apply Z.eqb_neq in Hc. rewrite Hc. cbn [obind]. rewrite Hc.
    rewrite (IH c h (d + 1) Tc Er Hh). cbn [length].
    replace (d + 1 + Z.of_nat (length rest)) with (d + Z.of_nat (S (length rest)))
      by lia.
    reflexivity.
Qed.

Lemma find_path_last (T : Z -> Prop) (par : Z -> Z) (s : binder) (keys : list Z) :
  wf cfg T par s ->
  forall head h, T head -> find_path cfg s head keys = Ret h -> h <> 0 ->
    keys <> [] ->
    exists p, T p /\ find_path cfg s head (removelast keys) = Ret p /\
              find_child cfg s p (last keys 0) = Ret h.
Proof.
  intro W. induction keys as [|k rest IH]; intros head h Th E Hh Hne;
    [contradiction |].
  destruct (find_path_cons_inv s head k h rest E Hh) as (c & Ec & Hc & Er).
  destruct (find_child_found T par s head k c W Th Ec Hc) as [Tc _].
  destruct rest as [|k2 rest'].
  - cbn in Er. injection Er as <-. exists head. cbn. auto.
  - destruct (IH c h Tc Er Hh ltac:(discriminate)) as (p & Tp & Ep & Ef).
    exists p. split; [exact Tp |]. split; [| exact Ef].
    change (removelast (k :: k2 :: rest')) with (k :: removelast (k2 :: rest')).
    cbn [find_path]. rewrite Ec. cbn [obind].
    apply Z.eqb_neq in Hc. rewrite Hc. exact Ep.
Qed.

Lemma find_path_stable (T : Z -> Prop) (par : Z -> Z) (s s' : binder)
    (keys : list Z) :
  wf cfg T par s -> extends T par (m_nodes s) (m_nodes s') ->
  forall head h, T head -> find_path cfg s head keys = Ret h -> h <> 0 ->
    find_path cfg s' head keys = Ret h.
Proof.
  intros W X. induction keys as [|k rest IH]; intros head h Th E Hh.
  - exact E.
  - destruct (find_path_cons_inv s head k h rest E Hh) as (c & Ec & Hc & Er).
    destruct (find_child_found T par s head k c W Th Ec Hc) as [Tc _].
    cbn [find_path]. rewrite (find_child_stable T par s s' head k c W X Th Ec Hc).
    cbn [obind]. apply Z.eqb_neq in Hc. rewrite Hc. exact (IH c h Tc Er Hh).
Qed.

(** ** Registering a handler twice *)

Lemma backend_position_app (l : list Z) (h : Z) :
  forall i, backend_position l h i = None ->
    backend_position (l ++ [h]) h i = Some (i + Z.of_nat (length l)).
Proof.
  induction l as [|x l IH]; intros i E; cbn [app backend_position length] in *.
  - rewrite Z.eqb_refl. f_equal. lia.
  - destruct (x =? h); [discriminate |]. rewrite (IH (i + 1) E). f_equal. lia.
Qed.

Lemma add_backend_registered (s : binder) (h : Z) :
  0 <= fst (add_backend cfg s h) ->
  backend_position (m_backends (snd (add_backend cfg s h))) h 0
    = Some (fst (add_backend cfg s h)).
Proof.
  unfold add_backend.
  destruct (backend_position (m_backends s) h 0) as [i |] eqn:E; cbn [fst snd].
  - intros _. exact E.
  - destruct (Z.of_nat (length (m_backends s)) <? backend_capacity cfg);
      cbn [fst snd m_backends]; [| lia].
    intros _. rewrite (backend_position_app _ _ _ E). f_equal.
Qed.

Lemma add_backend_again (s : binder) (h b : Z) :
  backend_position (m_backends s) h 0 = Some b ->
  add_backend cfg s h = (b, s).
Proof. intro E. unfold add_backend. rewrite E. reflexivity. Qed.

(** ** Binding a chord whose node is bound *)

Lemma bind_keys_appends (T : Z -> Prop) (par : Z -> Z) (s : binder)
    (group : Z) (keys : list Z) (b i h : Z) :
  wf cfg T par s -> T group -> keys <> [] ->
  find_path cfg s group keys = Ret h -> h <> 0 ->
  bound (m_nodes s h) = true ->
  m_next_node s + 1 < capacity cfg ->
  exists s' T' par',
    bind_keys cfg s group keys b i = Ret (true, s') /\
    grows cfg T par s T' par' s' /\
    m_next_node s' = m_next_node s + 1 /\
    T' (m_next_node s) /\ par' (m_next_node s) = par h /\
    carries (m_nodes s') (m_next_node s) (last keys 0) b i (Z.of_nat (length keys)).
Proof.
  intros W Tg Hne Epath Hh Hbound Hroom.
  pose proof (find_path_wf T par s keys W group h Tg Epath Hh) as Th.
  pose proof (wf_cursor _ _ _ _ W) as Hcur.
  unfold bind_keys.
  rewrite (find_path_insert T par s keys W group h 0 Tg Epath Hh).
  cbn [obind]. rewrite Hbound.
  destruct keys as [|k0 keys']; [contradiction |].
  unfold pool_fuel. rewrite dup_scan_finds_nothing. cbn [obind].
  destruct (append_inv T par s h (last (k0 :: keys') 0) W Th)
    as [[Hfull _] | [_ (t & _ & Tt & Hpt & _ & Hnt & Eapp)]]; [lia |].
  rewrite Eapp. cbn [obind]. unfold commit.
  replace (m_next_node s =? 0) with false by (symmetry; apply Z.eqb_neq; lia).
  pose proof (link_tail_grows T par s t (last (k0 :: keys') 0) W Tt Hnt ltac:(lia)) as G.
  cbv zeta in G.
  set (c := m_next_node s) in *.
  set (m1 := upd (upd (m_nodes s) t (set_next (m_nodes s t) c)) c
               (set_next (set_key zero_node (last (k0 :: keys') 0)) (par t))) in *.
  set (T' := fun x => T x \/ x = c) in *.
  set (par' := fun x => if x =? c then par t else par x) in *.
  cbn [m_nodes with_nodes].
  set (m2 := upd m1 c (set_binding (m1 c) b (0 + Z.of_nat (length (k0 :: keys'))) i)).
  assert (Hother : forall x, T x -> m2 x = m1 x).
  { intros x Tx. unfold m2. apply upd_other.
    destruct (wf_range _ _ _ _ W x Tx). unfold c. lia. }
  exists (with_nodes (mk_binder m1 (c + 1) (m_backends s)) m2), T', par'.
  split; [reflexivity |].
  split.
  { destruct G as [W1 S1 P1 [K1 N1 C1] B1 F1 Cu1 Ba1].
    constructor; cbn [m_nodes m_next_node m_backends with_nodes] in *; auto.
    - exact (commit_wf T' par' _ c b (0 + Z.of_nat (length (k0 :: keys'))) i W1).
    - constructor; intros x Tx; rewrite (Hother x Tx); auto.
    - intros x Tx. unfold same_binding. rewrite (Hother x Tx). apply B1, Tx. }
  cbn [m_nodes m_next_node with_nodes].
  split; [reflexivity |]. split; [right; reflexivity |].
  split; [unfold par'; rewrite Z.eqb_refl; exact Hpt |].
  unfold carries, m2. rewrite upd_same. cbn [bound key backend id depth set_binding].
  unfold m1. rewrite upd_same. cbn. repeat split.
Qed.

Lemma commit_extends (T : Z -> Prop) (par : Z -> Z) (m : pool) (x b d i : Z) :
  extends T par m (upd m x (set_binding (m x) b d i)).
Proof.
  constructor; intros y _; unfold upd; destruct (y =? x) eqn:E;
    try (apply Z.eqb_eq in E; subst y); auto.
Qed.

(** The first binding of a chord, with room in the pool: the call succeeds,
    the path of the chord exists afterwards and ends in a bound node, and a
    sibling [t1] of that node (the node itself when it was free) carries the
    binding. *)
Lemma bind_keys_first (T : Z -> Prop) (par : Z -> Z) (s : binder)
    (group : Z) (keys : list Z) (b i : Z) :
  wf cfg T par s -> T group -> keys <> [] ->
  m_next_node s + Z.of_nat (length keys) + 1 < capacity cfg ->
  exists s1 T1 par1 h t1,
    bind_keys cfg s group keys b i = Ret (true, s1) /\
    wf cfg T1 par1 s1 /\ (forall x, T x -> T1 x) /\
    find_path cfg s1 group keys = Ret h /\ h <> 0 /\
    bound (m_nodes s1 h) = true /\
    T1 t1 /\ par1 t1 = par1 h /\
    carries (m_nodes s1) t1 (last keys 0) b i (Z.of_nat (length keys)) /\
    m_next_node s1 <= m_next_node s + Z.of_nat (length keys) + 1 /\
    m_backends s1 = m_backends s.
Proof.
  intros W Tg Hne Hroom.
  destruct (insert_keys_grows T par keys s group 0 W Tg)
    as (r & sw & Tw & parw & E & G & Hcur & Hres).
  pose proof (gr_wf _ _ _ _ _ _ _ G) as Ww.
  pose proof (gr_sub _ _ _ _ _ _ _ G) as Sub.
  destruct Hres as [(_ & _ & Hfull) | (h & -> & Th & Epath)]; [lia |].
  destruct (wf_range _ _ _ _ Ww h Th) as [Hh _].
  assert (Hh0 : h <> 0) by lia.
  destruct (bound (m_nodes sw h)) eqn:Hbound.
  - destruct (bind_keys_appends Tw parw sw group keys b i h Ww (Sub _ Tg) Hne
                Epath Hh0 Hbound ltac:(lia))
      as (s1 & T1 & par1 & E1 & G1 & Hc1 & Tc & Hpc & Hcar).
    pose proof (gr_sub _ _ _ _ _ _ _ G1) as Sub1.
    exists s1, T1, par1, h, (m_next_node sw).
    split.
    { unfold bind_keys in E1 |- *. rewrite E. cbn [obind].
      rewrite (find_path_insert Tw parw sw keys Ww group h 0 (Sub _ Tg) Epath Hh0)
        in E1.
      cbn [obind] in E1. exact E1. }
    split; [exact (gr_wf _ _ _ _ _ _ _ G1) |].
    split; [intros x Tx; apply Sub1, Sub, Tx |].
    split; [exact (find_path_stable Tw parw sw s1 keys Ww (gr_ext _ _ _ _ _ _ _ G1)
                     group h (Sub _ Tg) Epath Hh0) |].
    split; [exact Hh0 |].
    split; [destruct (gr_binding _ _ _ _ _ _ _ G1 h Th) as [Hb _]; congruence |].
    split; [exact Tc |].
    split; [rewrite (gr_par _ _ _ _ _ _ _ G1 h Th); exact Hpc |].
    split; [exact Hcar |].
    split; [lia |].
    rewrite (gr_backends _ _ _ _ _ _ _ G1). exact (gr_backends _ _ _ _ _ _ _ G).
  - set (s1 := with_nodes sw (upd (m_nodes sw) h
                 (set_binding (m_nodes sw h) b (0 + Z.of_nat (length keys)) i))).
    exists s1, Tw, parw, h, h.
    split.
    { unfold bind_keys. rewrite E. cbn [obind]. rewrite Hbound. unfold commit.
      replace (h =? 0) with false by (symmetry; apply Z.eqb_neq; lia).
      reflexivity. }
    split; [apply commit_wf; exact Ww |].
    split; [exact Sub |].
    split; [exact (find_path_stable Tw parw sw s1 keys Ww
                     (commit_extends Tw parw (m_nodes sw) h b _ i)
                     group h (Sub _ Tg) Epath Hh0) |].
    split; [exact Hh0 |].
    unfold s1. cbn [m_nodes m_next_node m_backends with_nodes]. rewrite upd_same.
    split; [reflexivity |]. split; [exact Th |]. split; [reflexivity |].
    split.
    { destruct (find_path_last Tw parw sw keys Ww group h (Sub _ Tg) Epath Hh0 Hne)
        as (p & Tp & _ & Ef).
      destruct (find_child_found Tw parw sw p _ h Ww Tp Ef Hh0) as (_ & _ & Hk).
      unfold carries. rewrite upd_same.
      cbn [bound key backend id depth set_binding]. repeat split; auto. }
    split; [lia |]. exact (gr_backends _ _ _ _ _ _ _ G).
Qed.

Lemma bind_validated (s : binder) (group : Z) (chord : list Z) (handler i : Z)
    (t : translation) :
  group < capacity cfg ->
  has_high_byte chord = false ->
  translate_chord 64 chord (translated0 cfg) = Some t ->
  terminated_in_bounds 64 t ->
  0 <= fst (add_backend cfg s handler) ->
  bind cfg s group chord handler i =
  bind_keys cfg (snd (add_backend cfg s handler)) group (c_string (tr_out t))
    (fst (add_backend cfg s handler)) i.
Proof.
  intros Hg Hhigh Htr Hend Hreg. unfold bind.
  replace (capacity cfg <=? group) with false by (symmetry; apply Z.leb_gt; lia).
  rewrite Hhigh, Htr. unfold terminated_in_bounds in Hend.
  replace (0 <=? tr_end t) with true by (symmetry; apply Z.leb_le; lia).
  replace (tr_end t <? 64) with true by (symmetry; apply Z.ltb_lt; lia).
  cbn [andb negb].
  destruct (add_backend cfg s handler) as [b s1]. cbn [fst snd] in *.
  replace (b <? 0) with false by (symmetry; apply Z.ltb_ge; lia).
  reflexivity.
Qed.

(** ** Binding one chord twice *)

(** With room in the pool, two calls of [bind] for one chord and one
    handler both succeed, whatever the two ids; the second call appends a
    node to the sibling chain of the node that the first call bound. *)
Lemma bind_twice (s : binder) (roots : list Z) (group : Z)
    (chord : list Z) (handler id1 id2 : Z) (t : translation) :
  2 <= capacity cfg ->
  reachable cfg s roots -> In group roots ->
  has_high_byte chord = false ->
  translate_chord 64 chord (translated0 cfg) = Some t ->
  terminated_in_bounds 64 t ->
  c_string (tr_out t) <> [] ->
  0 <= fst (add_backend cfg s handler) ->
  m_next_node s + Z.of_nat (length (c_string (tr_out t))) + 2 < capacity cfg ->
  let keys := c_string (tr_out t) in
  let b := fst (add_backend cfg s handler) in
  exists s1 s2 p t1 t2,
    bind cfg s group chord handler id1 = Ret (true, s1) /\
    bind cfg s1 group chord handler id2 = Ret (true, s2) /\
    find_path cfg s2 group (removelast keys) = Ret p /\
    on_chain (m_nodes s2) p t1 /\ on_chain (m_nodes s2) p t2 /\
    t1 <> t2 /\ t2 = m_next_node s1 /\ m_next_node s2 = m_next_node s1 + 1 /\
    carries (m_nodes s2) t1 (last keys 0) b id1 (Z.of_nat (length keys)) /\
    carries (m_nodes s2) t2 (last keys 0) b id2 (Z.of_nat (length keys)).
Proof.
  intros Hcap R Hin Hhigh Htr Hend Hne Hreg Hroom. cbv zeta.
  set (keys := c_string (tr_out t)) in *.
  set (b := fst (add_backend cfg s handler)) in *.
  destruct (reachable_wf s roots Hcap R) as (T & par & W & Hroots).
  pose proof (Hroots _ Hin) as Tg.
  destruct (wf_range _ _ _ _ W group Tg) as [_ Hg].
  pose proof (add_backend_wf T par s handler W) as W0.
  destruct (add_backend_nodes s handler) as [_ Hcur0].
  pose proof (add_backend_registered s handler Hreg) as Hpos. fold b in Hpos.
  destruct (bind_keys_first T par _ group keys b id1 W0 Tg Hne
              ltac:(rewrite Hcur0; lia))
    as (s1 & T1 & par1 & h & t1 & E1 & W1 & Sub1 & Epath & Hh & Hbound & Tt1 & Hpt1
        & Hcar1 & Hcur1 & Hback1).
  rewrite <- Hback1 in Hpos.
  pose proof (add_backend_again s1 handler b Hpos) as Eadd.
  destruct (bind_keys_appends T1 par1 s1 group keys b id2 h W1 (Sub1 _ Tg) Hne
              Epath Hh Hbound ltac:(rewrite Hcur0 in Hcur1; lia))
    as (s2 & T2 & par2 & E2 & G2 & Hc2 & Tc2 & Hpc2 & Hcar2).
  pose proof (gr_wf _ _ _ _ _ _ _ G2) as W2.
  destruct (find_path_last T1 par1 s1 keys W1 group h (Sub1 _ Tg) Epath Hh Hne)
    as (p & Tp & Ep & Ef).
  destruct (find_child_found T1 par1 s1 p _ h W1 Tp Ef Hh) as (Th & Hph & _).
  destruct (wf_range _ _ _ _ W1 p Tp) as [Hp _].
  destruct (wf_range _ _ _ _ W1 t1 Tt1) as [Ht1 _].
  exists s1, s2, p, t1, (m_next_node s1).
  split.
  { rewrite (bind_validated s group chord handler id1 t Hg Hhigh Htr Hend Hreg).
    exact E1. }
  split.
  { assert (Hreg1 : 0 <= fst (add_backend cfg s1 handler)) by (rewrite Eadd; exact Hreg).
    rewrite (bind_validated s1 group chord handler id2 t Hg Hhigh Htr Hend Hreg1).
    rewrite Eadd. exact E2. }
  split.
  { exact (find_path_stable T1 par1 s1 s2 _ W1 (gr_ext _ _ _ _ _ _ _ G2)
             group p (Sub1 _ Tg) Ep ltac:(lia)). }
  split.
  { destruct (wf_linked _ _ _ _ W2 t1 (gr_sub _ _ _ _ _ _ _ G2 t1 Tt1)) as [E | [_ C]];
      rewrite (gr_par _ _ _ _ _ _ _ G2 t1 Tt1), Hpt1, Hph in *; [lia | exact C]. }
  split.
  { destruct (wf_linked _ _ _ _ W2 _ Tc2) as [E | [_ C]];
      rewrite Hpc2, Hph in *; [lia | exact C]. }
  split; [lia |]. split; [reflexivity |]. split; [exact Hc2 |].
  split; [| exact Hcar2].
  destruct Hcar1 as (c1 & c2 & c3 & c4 & c5).
  destruct (gr_binding _ _ _ _ _ _ _ G2 t1 Tt1) as (b1 & b2 & b3 & b4).
  pose proof (ext_key _ _ _ _ (gr_ext _ _ _ _ _ _ _ G2) t1 Tt1) as Hk.
  unfold carries. repeat split; congruence.
Qed.

(** ** Coexisting bindings *)

(** C7, as the code has it.  In a reachable state with room for the nodes of
    the chord and two more, binding a chord (valid, translated to at least
    one key) on a group handle, with a handler the registry accepts, under
    [id1] and then under [id2] succeeds twice.
    Afterwards two distinct bound nodes [t1] and [t2] lie on one sibling
    chain, that of the node [p] reached by the keys before the last; both
    have the last key and the depth of the chord, and they carry the
    handler's index with [id1] and with [id2].  The second call adds exactly
    the node [t2]. *)
Theorem coexisting_bindings (s : binder) (roots : list Z) (group : Z)
    (chord : list Z) (handler id1 id2 : Z) (t : translation) :
  2 <= capacity cfg ->
  reachable cfg s roots -> In group roots ->
  has_high_byte chord = false ->
  translate_chord 64 chord (translated0 cfg) = Some t ->
  terminated_in_bounds 64 t ->
  c_string (tr_out t) <> [] ->
  0 <= fst (add_backend cfg s handler) ->
  id1 <> id2 ->
  m_next_node s + Z.of_nat (length (c_string (tr_out t))) + 2 < capacity cfg ->
  let keys := c_string (tr_out t) in
  let b := fst (add_backend cfg s handler) in
  exists s1 s2 p t1 t2,
    bind cfg s group chord handler id1 = Ret (true, s1) /\
    bind cfg s1 group chord handler id2 = Ret (true, s2) /\
    find_path cfg s2 group (removelast keys) = Ret p /\
    on_chain (m_nodes s2) p t1 /\ on_chain (m_nodes s2) p t2 /\
    t1 <> t2 /\ t2 = m_next_node s1 /\ m_next_node s2 = m_next_node s1 + 1 /\
    carries (m_nodes s2) t1 (last keys 0) b id1 (Z.of_nat (length keys)) /\
    carries (m_nodes s2) t2 (last keys 0) b id2 (Z.of_nat (length keys)).
Proof.
  intros Hcap R Hin Hhigh Htr Hend Hne Hreg _ Hroom.
  exact (bind_twice s roots group chord handler id1 id2 t
           Hcap R Hin Hhigh Htr Hend Hne Hreg Hroom).
Qed.

(** ** Binding the same triple again *)

(** C1.  Binding again is not idempotent.  In a reachable state with room in
    the pool, binding a chord (valid, translated to at least one key) with a
    registered handler and an id, and then calling [bind] with the identical
    group, chord, handler and id, succeeds twice, and the second call moves
    the cursor by one and leaves two distinct bound nodes with the same key,
    handler index, id and depth on one sibling chain: the loop that should
    recognise the existing binding starts at [check = head] under the test
    [check > head] and is never entered. *)
Theorem rebinding_appends_a_duplicate (s : binder) (roots : list Z) (group : Z)
    (chord : list Z) (handler i : Z) (t : translation) :
  2 <= capacity cfg ->
  reachable cfg s roots -> In group roots ->
  has_high_byte chord = false ->
  translate_chord 64 chord (translated0 cfg) = Some t ->
  terminated_in_bounds 64 t ->
  c_string (tr_out t) <> [] ->
  0 <= fst (add_backend cfg s handler) ->
  m_next_node s + Z.of_nat (length (c_string (tr_out t))) + 2 < capacity cfg ->
  let keys := c_string (tr_out t) in
  let b := fst (add_backend cfg s handler) in
  exists s1 s2 p t1 t2,
    bind cfg s group chord handler i = Ret (true, s1) /\
    bind cfg s1 group chord handler i = Ret (true, s2) /\
    m_next_node s2 = m_next_node s1 + 1 /\
    t1 <> t2 /\
    on_chain (m_nodes s2) p t1 /\ on_chain (m_nodes s2) p t2 /\
    carries (m_nodes s2) t1 (last keys 0) b i (Z.of_nat (length keys)) /\
    carries (m_nodes s2) t2 (last keys 0) b i (Z.of_nat (length keys)).
Proof.
  intros Hcap R Hin Hhigh Htr Hend Hne Hreg Hroom.
  destruct (bind_twice s roots group chord handler i i t
              Hcap R Hin Hhigh Htr Hend Hne Hreg Hroom)
    as (s1 & s2 & p & t1 & t2 & E1 & E2 & _ & C1 & C2 & Hd & _ & Hc & K1 & K2).
  exists s1, s2, p, t1, t2. repeat (split; [assumption |]). assumption.
Qed.

(** ** Remarks *)

(** The empty and the absent name denote the default group. *)
Lemma get_group_default (s : binder) :
  get_group cfg s None = Ret 1 /\ get_group cfg s (Some []) = Ret 1.
Proof. split; reflexivity. Qed.

(** On a reachable state the fuel of the model is never used up by [bind]. *)
Lemma reachable_bind_in_fuel (s : binder) (roots : list Z) (group : Z)
    (chord : list Z) (handler i : Z) :
  2 <= capacity cfg -> reachable cfg s roots -> In group roots ->
  bind cfg s group chord handler i <> Timeout.
Proof.
  intros Hcap R Hin.
  destruct (reachable_wf s roots Hcap R) as (T & par & W & Hroots).
  destruct (bind_wf T par s group chord handler i W (Hroots _ Hin))
    as [E | (ok & s' & _ & _ & E & _)]; rewrite E; discriminate.
Qed.

End Properties.

(** * The properties on the concrete binder *)

Lemma alloc_nodes_contract_fresh :
  (fst (alloc_nodes demo_cfg demo_binder 1) = -1 <->
   m_next_node demo_binder + 1 >= capacity demo_cfg) /\
  (m_next_node demo_binder + 1 < capacity demo_cfg ->
   fst (alloc_nodes demo_cfg demo_binder 1) = m_next_node demo_binder) /\
  m_next_node (snd (alloc_nodes demo_cfg demo_binder 1)) = m_next_node demo_binder + 1.
Proof.
  apply (alloc_nodes_contract demo_cfg demo_binder 1);
    [unfold in_uint_range, UINT_RANGE; cbn; lia | lia].
Defined.

(** C4, as stated, fails on the last slot: with the cursor at 511 in a pool
    of 512 slots, [alloc_nodes(1)] returns -1 although 511 + 1 does not
    exceed the capacity. *)
Lemma alloc_nodes_refuses_last_slot :
  ~ (fst (alloc_nodes demo_cfg last_slot_binder 1) = -1 <->
     m_next_node last_slot_binder + 1 > capacity demo_cfg).
Proof.
  cbn. intros [H _]. specialize (H eq_refl). lia.
Qed.

Lemma bind_rejects_high_byte_ff :
  bind demo_cfg demo_binder 1 [255] H1 1 = Ret (false, demo_binder).
Proof.
  apply (bind_rejects_high_byte demo_cfg demo_binder 1 [255] H1 1 255).
  - repeat constructor; discriminate.
  - left; reflexivity.
  - lia.
Defined.

Lemma get_group_returns_list_node_vi :
  get_group demo_cfg grouped_vi (Some (cstr "vi")) = Ret (3 - 1).
Proof.
  apply (get_group_returns_list_node demo_cfg demo_binder grouped_vi (cstr "vi") 3).
  - cbn; lia.
  - cbn; discriminate.
  - reflexivity.
  - lia.
Defined.

Lemma bind_empty_chord_marks_root_default :
  exists s',
    bind demo_cfg demo_binder 1 [] H1 7 = Ret (true, s') /\
    m_next_node s' = m_next_node demo_binder /\
    bound (m_nodes s' 1) = true /\
    depth (m_nodes s' 1) = 0 /\
    backend (m_nodes s' 1) = fst (add_backend demo_cfg demo_binder H1) /\
    id (m_nodes s' 1) = 7 /\
    key (m_nodes s' 1) = key (m_nodes demo_binder 1) /\
    next (m_nodes s' 1) = next (m_nodes demo_binder 1) /\
    child (m_nodes s' 1) = child (m_nodes demo_binder 1) /\
    (forall x, x <> 1 -> m_nodes s' x = m_nodes demo_binder x).
Proof.
  apply (bind_empty_chord_marks_root demo_cfg demo_binder 1 [] H1 7 translation_empty).
  - cbn; lia.
  - reflexivity.
  - reflexivity.
  - unfold terminated_in_bounds, translation_empty; cbn; lia.
  - reflexivity.
  - cbn; lia.
  - reflexivity.
Defined.



Lemma demo_binder_reachable : reachable demo_cfg demo_binder [1].
Proof. apply reach_new. Qed.

Lemma bound_ab_reachable : reachable demo_cfg bound_ab [1].
Proof.
  apply (reach_bind demo_cfg demo_binder [1] 1 (cstr "ab") H1 1 true).
  - apply reach_new.
  - left; reflexivity.
  - reflexivity.
Qed.

Lemma two_handlers_reachable : reachable narrow_cfg two_handlers [1].
Proof.
  apply (reach_bind narrow_cfg
           (state_of (bind narrow_cfg demo_binder 1 (cstr "a") H1 1))
           [1] 1 (cstr "b") H_second 1 true).
  - apply (reach_bind narrow_cfg demo_binder [1] 1 (cstr "a") H1 1 true).
    + apply reach_new.
    + left; reflexivity.
    + reflexivity.
  - left; reflexivity.
  - reflexivity.
Qed.

Lemma bound_a_b_c_reachable : reachable demo_cfg bound_a_b_c [1].
Proof.
  apply (reach_bind demo_cfg
           (state_of (bind demo_cfg
                        (state_of (bind demo_cfg demo_binder 1 (cstr "a") H1 1))
                        1 (cstr "b") H1 2))
           [1] 1 (cstr "c") H1 3 true).
  - apply (reach_bind demo_cfg
             (state_of (bind demo_cfg demo_binder 1 (cstr "a") H1 1))
             [1] 1 (cstr "b") H1 2 true).
    + apply (reach_bind demo_cfg demo_binder [1] 1 (cstr "a") H1 1 true).
      * apply reach_new.
      * left; reflexivity.
      * reflexivity.
    + left; reflexivity.
    + reflexivity.
  - left; reflexivity.
  - reflexivity.
Qed.

Lemma sibling_chains_increase_abc :
  (forall x, on_chain (m_nodes bound_a_b_c) 1 x ->
     1 < x /\
     (next (m_nodes bound_a_b_c x) > 1 -> x < next (m_nodes bound_a_b_c x))) /\
  (forall k, exists c, find_child demo_cfg bound_a_b_c 1 k = Ret c) /\
  (exists t, find_tail demo_cfg bound_a_b_c 1 = Ret t).
Proof.
  apply (sibling_chains_increase demo_cfg bound_a_b_c [1] 1).
  - cbn; lia.
  - exact bound_a_b_c_reachable.
  - apply trie_root. left; reflexivity.
Defined.

(** The chain below the root of [bound_a_b_c] is 2, 3, 4, closed by the
    [next] of slot 4, which is the root. *)
Lemma bound_a_b_c_chain :
  child (m_nodes bound_a_b_c 1) = 2 /\ next (m_nodes bound_a_b_c 2) = 3 /\
  next (m_nodes bound_a_b_c 3) = 4 /\ next (m_nodes bound_a_b_c 4) = 1 /\
  siblings demo_cfg bound_a_b_c 1 = Ret [2; 3; 4].
Proof. repeat split; reflexivity. Qed.

(** C8, as stated, fails for a call of [bind] on an index that is no group
    handle: the guard of [bind] lets slot 10 through, the constructor has not
    written it, and where the memory holds a first child 11 whose [next] is 11
    the chain below slot 10 does not increase and the walk of [find_child]
    never ends. *)
Lemma sibling_chain_below_unwritten_slot :
  reachable demo_cfg stale_binder [1] /\
  10 < capacity demo_cfg /\
  on_chain (m_nodes stale_binder) 10 11 /\
  next (m_nodes stale_binder 11) > 10 /\
  ~ 11 < next (m_nodes stale_binder 11) /\
  (forall fuel,
     find_child_loop fuel (m_nodes stale_binder) 10 (code "a")
       (child (m_nodes stale_binder 10)) = Timeout) /\
  bind demo_cfg stale_binder 10 (cstr "a") H1 1 = Timeout.
Proof.
  split; [apply reach_new |]. split; [reflexivity |].
  split; [apply (on_chain_first (m_nodes stale_binder) 10); reflexivity |].
  split; [reflexivity |]. split; [cbn; lia |]. split; [| reflexivity].
  change (child (m_nodes stale_binder 10)) with 11.
  induction fuel as [|fuel IH]; [reflexivity |].
  cbn [find_child_loop].
  change (11 >? 10) with true.
  change (key (m_nodes stale_binder 11) =? code "a") with false.
  change (next (m_nodes stale_binder 11)) with 11. exact IH.
Qed.

(** C10, as stated, fails when the registry is full: with two handlers in a
    registry of two, [bind] of the empty chord with a third handler on the
    unbound default root returns [false] and changes nothing. *)
Lemma bind_empty_chord_needs_a_registry_slot :
  reachable narrow_cfg two_handlers [1] /\
  bound (m_nodes two_handlers 1) = false /\
  translated_keys 64 [] (translated0 narrow_cfg) = Some [] /\
  bind narrow_cfg two_handlers 1 [] H_third 7 = Ret (false, two_handlers).
Proof.
  split; [exact two_handlers_reachable |].
  split; [reflexivity |]. split; reflexivity.
Qed.

(** C7, as stated, fails when the registry is full: with two handlers in a
    registry of two and room in the pool, [bind] of ["ab"] with a third
    handler returns [false].  The empty chord is no instance of the claim
    either: its first call binds the root, and its second call reads the key
    of the node to append in front of the local buffer. *)
Lemma coexisting_bindings_need_a_registry_slot :
  (reachable narrow_cfg two_handlers [1] /\
   m_next_node two_handlers + 4 < capacity narrow_cfg /\
   bind narrow_cfg two_handlers 1 (cstr "ab") H_third 1 = Ret (false, two_handlers)) /\
  (bind demo_cfg demo_binder 1 [] H1 1 = Ret (true, root_bound) /\
   bind demo_cfg root_bound 1 [] H1 2 = Undefined).
Proof.
  split.
  - split; [exact two_handlers_reachable |].
    split; [apply Z.ltb_lt; reflexivity | reflexivity].
  - split; reflexivity.
Qed.

Lemma coexisting_bindings_ab :
  let keys := c_string (tr_out translation_ab) in
  let b := fst (add_backend demo_cfg demo_binder H1) in
  exists s1 s2 p t1 t2,
    bind demo_cfg demo_binder 1 (cstr "ab") H1 1 = Ret (true, s1) /\
    bind demo_cfg s1 1 (cstr "ab") H1 2 = Ret (true, s2) /\
    find_path demo_cfg s2 1 (removelast keys) = Ret p /\
    on_chain (m_nodes s2) p t1 /\ on_chain (m_nodes s2) p t2 /\
    t1 <> t2 /\ t2 = m_next_node s1 /\ m_next_node s2 = m_next_node s1 + 1 /\
    carries (m_nodes s2) t1 (last keys 0) b 1 (Z.of_nat (length keys)) /\
    carries (m_nodes s2) t2 (last keys 0) b 2 (Z.of_nat (length keys)).
Proof.
  apply (coexisting_bindings demo_cfg demo_binder [1] 1 (cstr "ab") H1 1 2
           translation_ab).
  - cbn; lia.
  - exact demo_binder_reachable.
  - left; reflexivity.
  - reflexivity.
  - reflexivity.
  - unfold terminated_in_bounds, translation_ab; cbn; lia.
  - unfold translation_ab; cbn; discriminate.
  - cbn; lia.
  - lia.
  - cbn; lia.
Defined.

Lemma rebinding_appends_a_duplicate_ab :
  let keys := c_string (tr_out translation_ab) in
  let b := fst (add_backend demo_cfg demo_binder H1) in
  exists s1 s2 p t1 t2,
    bind demo_cfg demo_binder 1 (cstr "ab") H1 1 = Ret (true, s1) /\
    bind demo_cfg s1 1 (cstr "ab") H1 1 = Ret (true, s2) /\
    m_next_node s2 = m_next_node s1 + 1 /\
    t1 <> t2 /\
    on_chain (m_nodes s2) p t1 /\ on_chain (m_nodes s2) p t2 /\
    carries (m_nodes s2) t1 (last keys 0) b 1 (Z.of_nat (length keys)) /\
    carries (m_nodes s2) t2 (last keys 0) b 1 (Z.of_nat (length keys)).
Proof.
  apply (rebinding_appends_a_duplicate demo_cfg demo_binder [1] 1 (cstr "ab") H1 1
           translation_ab).
  - cbn; lia.
  - exact demo_binder_reachable.
  - left; reflexivity.
  - reflexivity.
  - reflexivity.
  - unfold terminated_in_bounds, translation_ab; cbn; lia.
  - unfold translation_ab; cbn; discriminate.
  - cbn; lia.
  - cbn; lia.
Defined.

(** The two calls evaluated: the cursor goes from 4 to 5, and slots 3 and 4
    are both bound to key [b] with handler index 0, id 1 and depth 2. *)
Lemma rebinding_ab_evaluated :
  bind demo_cfg bound_ab 1 (cstr "ab") H1 1 = Ret (true, rebound_ab) /\
  m_next_node bound_ab = 4 /\ m_next_node rebound_ab = 5 /\
  carries (m_nodes rebound_ab) 3 (code "b") 0 1 2 /\
  carries (m_nodes rebound_ab) 4 (code "b") 0 1 2.
Proof. unfold carries. repeat split. Qed.

(** * Further properties *)

(** ** The translator on literal chords *)

Lemma poke_app (pre rest : list Z) (c v : Z) :
  poke (pre ++ c :: rest) (Z.of_nat (length pre)) v = pre ++ v :: rest.
Proof.
  induction pre as [|x pre IH]; cbn [app length poke].
  - reflexivity.
  - replace (Z.of_nat (S (length pre)) =? 0) with false
      by (symmetry; apply Z.eqb_neq; lia).
    replace (Z.of_nat (S (length pre)) - 1) with (Z.of_nat (length pre)) by lia.
    rewrite IH. reflexivity.
Qed.

Lemma c_string_app_zero (l r : list Z) :
  Forall (fun c => c <> 0) l -> c_string (l ++ 0 :: r) = l.
Proof.
  induction l as [|x l IH]; intro H; cbn [app c_string].
  - reflexivity.
  - inversion H as [|? ? Hx Hl]; subst. apply Z.eqb_neq in Hx. rewrite Hx.
    rewrite (IH Hl). reflexivity.
Qed.

Lemma plain_nonzero (l : list Z) : Forall plain l -> Forall (fun c => c <> 0) l.
Proof. intro H. eapply Forall_impl; [| exact H]. intros c (H0 & _). exact H0. Qed.

Lemma translate_loop_plain (chord : list Z) :
  forall (pre rest : list Z),
    Forall plain chord -> length (pre ++ rest) = 64%nat ->
    let n := Nat.min (length chord) (63 - length pre) in
    translate_loop 64 chord (Z.of_nat (length pre)) (pre ++ rest) =
    Some (pre ++ firstn n chord ++ skipn n rest, Z.of_nat (length pre + n)).
Proof.
  induction chord as [|c chord IH]; intros pre rest Hp Hlen n.
  - subst n. cbn. rewrite Nat.add_0_r. reflexivity.
  - inversion Hp as [|? ? (H0 & Hb & Hc) Hp']; subst.
    cbn [translate_loop].
    destruct (Z.ltb_spec (Z.of_nat (length pre)) (64 - 1)) as [Hlt | Hge].
    + cbn [negb orb]. apply Z.eqb_neq in H0, Hb, Hc. rewrite H0, Hb, Hc.
      cbn [negb andb].
      rewrite length_app in Hlen.
      destruct rest as [|r0 rest]; [cbn in Hlen; lia |].
      rewrite poke_app.
      replace (pre ++ c :: rest) with ((pre ++ [c]) ++ rest)
        by (rewrite <- app_assoc; reflexivity).
      replace (Z.of_nat (length pre) + 1) with (Z.of_nat (length (pre ++ [c])))
        by (rewrite length_app; cbn; lia).
      rewrite IH; [| exact Hp' | rewrite !length_app in *; cbn in *; lia].
      subst n. rewrite length_app. cbn [length].
      replace (Nat.min (S (length chord)) (63 - length pre))
        with (S (Nat.min (length chord) (63 - (length pre + 1)))) by lia.
      cbn [firstn skipn]. rewrite <- app_assoc. cbn [app].
      f_equal. f_equal. lia.
    + cbn [negb orb]. subst n.
      replace (63 - length pre)%nat with 0%nat by lia.
      rewrite Nat.min_0_r. cbn. rewrite Nat.add_0_r. reflexivity.
Qed.

(** X1.  A chord without backslash, caret and zero byte is copied as it is,
    up to the 63 bytes that fit in front of the terminator; the rest is cut
    off without an error, and the terminator is stored inside the buffer. *)
Theorem translate_plain_chord (chord buf : list Z) :
  Forall plain chord -> length buf = 64%nat ->
  exists t,
    translate_chord 64 chord buf = Some t /\
    tr_end t = Z.of_nat (Nat.min (length chord) 63) /\
    c_string (tr_out t) = firstn 63 chord /\
    terminated_in_bounds 64 t.
Proof.
  intros Hp Hlen.
  pose proof (translate_loop_plain chord [] buf Hp Hlen) as E.
  cbv zeta in E. cbn [length app Nat.add] in E. rewrite Nat.sub_0_r in E.
  change (Z.of_nat 0) with 0 in E.
  unfold translate_chord. rewrite E.
  set (n := Nat.min (length chord) 63) in *.
  eexists. split; [reflexivity |]. cbn [tr_end tr_out].
  split; [reflexivity |].
  assert (Hn : length (firstn n chord) = n)
    by (rewrite length_firstn; unfold n; lia).
  split.
  - destruct (skipn n buf) as [|b0 rest] eqn:Hs.
    { apply (f_equal (@length Z)) in Hs. rewrite length_skipn in Hs.
      cbn in Hs. unfold n in Hs. lia. }
    rewrite <- Hn at 2. rewrite poke_app.
    rewrite c_string_app_zero.
    + unfold n. destruct (Nat.le_ge_cases (length chord) 63) as [Hle | Hge].
      * rewrite Nat.min_l by exact Hle. rewrite !firstn_all2 by lia. reflexivity.
      * rewrite Nat.min_r by exact Hge. reflexivity.
    + apply plain_nonzero. rewrite <- (firstn_skipn n chord) in Hp.
      apply Forall_app in Hp. exact (proj1 Hp).
  - unfold terminated_in_bounds. cbn [tr_end]. unfold n. lia.
Qed.

(** ** Where the translator stores the terminator *)

Lemma translate_loop_end_index :
  forall (n : nat) (chord : list Z) (i : Z) (out r : list Z) (i' : Z),
    (length chord <= n)%nat ->
    0 <= i <= 63 \/ i = 65 ->
    translate_loop 64 chord i out = Some (r, i') ->
    0 <= i' <= 63 \/ i' = 65.
Proof.
  induction n as [|n IH]; intros chord i out r i' Hlen Hi E.
  - destruct chord; [| cbn in Hlen; lia]. cbn in E. injection E as _ <-. exact Hi.
  - destruct chord as [|c rest]; [cbn in E; injection E as _ <-; exact Hi |].
    cbn [length] in Hlen. cbn [translate_loop] in E.
    destruct (Z.ltb_spec i (64 - 1)) as [Hlt | Hge]; cbn [negb orb] in E;
      [| injection E as _ <-; exact Hi].
    destruct (c =? 0); [injection E as _ <-; exact Hi |].
    assert (Hi1 : 0 <= i + 1 <= 63 \/ i + 1 = 65) by lia.
    destruct (negb (c =? BACKSLASH) && negb (c =? CARET));
      [exact (IH rest _ _ _ _ ltac:(lia) Hi1 E) |].
    destruct (c =? CARET); [exact (IH rest _ _ _ _ ltac:(lia) Hi1 E) |].
    destruct rest as [|d rest']; [injection E as _ <-; right; reflexivity |].
    cbn [length] in Hlen.
    destruct (d =? 0);
      [exact (IH rest' _ _ _ _ ltac:(lia) ltac:(right; reflexivity) E) |].
    destruct (d =? LETTER_M).
    { destruct rest' as [|m rest'']; [discriminate |]. cbn [length] in Hlen.
      destruct (m =? DASH); [| discriminate].
      exact (IH rest'' _ _ _ _ ltac:(lia) Hi1 E). }
    destruct (d =? LETTER_C).
    { destruct rest' as [|m rest'']; [discriminate |]. cbn [length] in Hlen.
      destruct (m =? DASH); [| discriminate].
      exact (IH rest'' _ _ _ _ ltac:(lia) Hi1 E). }
    exact (IH rest' _ _ _ _ ltac:(lia) Hi1 E).
Qed.

(** X2.  Whatever the chord and the buffer, a translation that succeeds
    stores its terminator either inside the 64-byte buffer or at index 65,
    and nowhere else. *)
Theorem translate_terminator_index (chord buf : list Z) (t : translation) :
  translate_chord 64 chord buf = Some t ->
  terminated_in_bounds 64 t \/ tr_end t = 65.
Proof.
  unfold translate_chord, terminated_in_bounds.
  destruct (translate_loop 64 chord 0 buf) as [[o i] |] eqn:E; [| discriminate].
  intro H; injection H as <-. cbn [tr_end].
  destruct (translate_loop_end_index (length chord) chord 0 buf o i
              (Nat.le_refl _) ltac:(lia) E); [left; lia | right; assumption].
Qed.

Lemma translate_loop_no_backslash (chord : list Z) :
  forall (i : Z) (out : list Z),
    ~ In BACKSLASH chord -> 0 <= i <= 63 ->
    exists r i', translate_loop 64 chord i out = Some (r, i') /\ i <= i' <= 63.
Proof.
  induction chord as [|c rest IH]; intros i out Hno Hi.
  - exists out, i. split; [reflexivity | lia].
  - cbn [translate_loop].
    destruct (Z.ltb_spec i (64 - 1)) as [Hlt | Hge]; cbn [negb orb];
      [| exists out, i; split; [reflexivity | lia]].
    destruct (c =? 0); [exists out, i; split; [reflexivity | lia] |].
    assert (Hc : (c =? BACKSLASH) = false).
    { apply Z.eqb_neq. intro Hc. apply Hno. left. exact Hc. }
    assert (Hrest : ~ In BACKSLASH rest) by (intro H; apply Hno; right; exact H).
    rewrite Hc. cbn [negb andb].
    destruct (c =? CARET); cbn [negb].
    + destruct (IH (i + 1) (poke out i (Z.land c 31)) Hrest ltac:(lia))
        as (r & i' & E & Hi').
      rewrite E. exists r, i'. split; [reflexivity | lia].
    + destruct (IH (i + 1) (poke out i c) Hrest ltac:(lia)) as (r & i' & E & Hi').
      rewrite E. exists r, i'. split; [reflexivity | lia].
Qed.

(** X3.  A chord that contains no backslash is always translated, and its
    terminator is stored inside the buffer. *)
Theorem translate_without_backslash (chord buf : list Z) :
  ~ In BACKSLASH chord ->
  exists t, translate_chord 64 chord buf = Some t /\ terminated_in_bounds 64 t.
Proof.
  intro Hno.
  destruct (translate_loop_no_backslash chord 0 buf Hno ltac:(lia))
    as (r & i' & E & Hi').
  unfold translate_chord. rewrite E. eexists. split; [reflexivity |].
  unfold terminated_in_bounds. cbn [tr_end]. lia.
Qed.

Lemma translate_loop_malformed (pre : list Z) :
  forall (i : Z) (out rest : list Z) (m : Z),
    Forall plain pre -> 0 <= i -> i + Z.of_nat (length pre) <= 62 ->
    m = LETTER_M \/ m = LETTER_C -> hd 0 rest <> DASH ->
    translate_loop 64 (pre ++ BACKSLASH :: m :: rest) i out = None.
Proof.
  induction pre as [|c pre IH]; intros i out rest m Hp Hi Hlen Hm Hd.
  - cbn [app translate_loop].
    replace (i <? 64 - 1) with true by (symmetry; apply Z.ltb_lt; simpl in Hlen; lia).
    assert (Hdash : match rest with
                    | x :: _ => (x =? DASH) = false
                    | [] => True
                    end).
    { destruct rest as [|x rest]; [exact I |]. apply Z.eqb_neq. exact Hd. }
    destruct Hm as [-> | ->]; cbn; destruct rest as [|x rest]; try reflexivity;
      rewrite Hdash; reflexivity.
  - inversion Hp as [|? ? (H0 & Hb & Hc) Hp']; subst.
    cbn [app translate_loop]. cbn [length] in Hlen.
    replace (i <? 64 - 1) with true by (symmetry; apply Z.ltb_lt; lia).
    apply Z.eqb_neq in H0, Hb, Hc. rewrite H0, Hb, Hc. cbn [negb orb andb].
    apply IH; try assumption; lia.
Qed.

(** X4.  A chord in which, after at most 62 literal characters, a backslash
    is followed by [M] or [C] and then by anything but a dash (the end of the
    chord included) is refused by the translator. *)
Theorem translate_malformed_escape (pre rest buf : list Z) (m : Z) :
  Forall plain pre -> (length pre <= 62)%nat ->
  m = LETTER_M \/ m = LETTER_C -> hd 0 rest <> DASH ->
  translate_chord 64 (pre ++ BACKSLASH :: m :: rest) buf = None.
Proof.
  intros Hp Hlen Hm Hd. unfold translate_chord.
  rewrite (translate_loop_malformed pre 0 buf rest m Hp ltac:(lia) ltac:(lia) Hm Hd).
  reflexivity.
Qed.

(** ** Escapes *)

Lemma poke_prefix (pre x : list Z) (i v : Z) :
  Z.of_nat (length pre) <= i ->
  poke (pre ++ x) i v = pre ++ poke x (i - Z.of_nat (length pre)) v.
Proof.
  revert i. induction pre as [|a pre IH]; intros i Hi; cbn [app length poke].
  - f_equal. cbn. lia.
  - cbn [length] in Hi.
    replace (i =? 0) with false by (symmetry; apply Z.eqb_neq; lia).
    rewrite IH by lia. do 3 f_equal. lia.
Qed.

(** The loop never stores in front of its index. *)
Lemma translate_loop_keeps_prefix :
  forall (n : nat) (chord : list Z) (i : Z) (pre x r : list Z) (i' : Z),
    (length chord <= n)%nat ->
    Z.of_nat (length pre) <= i ->
    translate_loop 64 chord i (pre ++ x) = Some (r, i') ->
    exists x', r = pre ++ x' /\ (i <= i' \/ 65 <= i').
Proof.
  induction n as [|n IH]; intros chord i pre x r i' Hlen Hi E.
  - destruct chord; [| cbn in Hlen; lia]. cbn in E. injection E as <- <-.
    exists x. split; [reflexivity | lia].
  - assert (Stop : Some (pre ++ x, i) = Some (r, i') ->
                   exists x', r = pre ++ x' /\ (i <= i' \/ 65 <= i')).
    { intro H; injection H as <- <-. exists x. split; [reflexivity | lia]. }
    assert (Step : forall rest v,
               (length rest <= n)%nat ->
               translate_loop 64 rest (i + 1) (poke (pre ++ x) i v) = Some (r, i') ->
               exists x', r = pre ++ x' /\ (i <= i' \/ 65 <= i')).
    { intros rest v Hr H. rewrite poke_prefix in H by exact Hi.
      destruct (IH rest (i + 1) pre _ r i' Hr ltac:(lia) H) as (x' & -> & Hi').
      exists x'. split; [reflexivity | lia]. }
    assert (Jump : forall rest,
               (length rest <= n)%nat -> i <= 63 ->
               translate_loop 64 rest (64 + 1) (pre ++ x) = Some (r, i') ->
               exists x', r = pre ++ x' /\ (i <= i' \/ 65 <= i')).
    { intros rest Hr Hi63 H.
      destruct (IH rest (64 + 1) pre x r i' Hr ltac:(lia) H) as (x' & -> & Hi').
      exists x'. split; [reflexivity | lia]. }
    destruct chord as [|c rest]; [exact (Stop E) |].
    cbn [length] in Hlen. cbn [translate_loop] in E.
    destruct (Z.ltb_spec i (64 - 1)) as [Hlt | Hge]; cbn [negb orb] in E;
      [| exact (Stop E)].
    destruct (c =? 0); [exact (Stop E) |].
    destruct (negb (c =? BACKSLASH) && negb (c =? CARET));
      [exact (Step rest _ ltac:(lia) E) |].
    destruct (c =? CARET); [exact (Step rest _ ltac:(lia) E) |].
    destruct rest as [|d rest'].
    { injection E as <- <-. exists x. split; [reflexivity | lia]. }
    cbn [length] in Hlen.
    destruct (d =? 0); [exact (Jump rest' ltac:(lia) ltac:(lia) E) |].
    destruct (d =? LETTER_M).
    { destruct rest' as [|m rest'']; [discriminate |]. cbn [length] in Hlen.
      destruct (m =? DASH); [| discriminate].
      exact (Step rest'' _ ltac:(lia) E). }
    destruct (d =? LETTER_C).
    { destruct rest' as [|m rest'']; [discriminate |]. cbn [length] in Hlen.
      destruct (m =? DASH); [| discriminate].
      exact (Step rest'' _ ltac:(lia) E). }
    exact (Step rest' _ ltac:(lia) E).
Qed.

(** Literal characters in front of the rest of a chord are copied, and the
    loop goes on behind them. *)
Lemma translate_loop_plain_then (pre : list Z) :
  forall (bp rest0 tail : list Z),
    Forall plain pre -> (length bp + length pre <= 63)%nat ->
    (length pre <= length rest0)%nat ->
    translate_loop 64 (pre ++ tail) (Z.of_nat (length bp)) (bp ++ rest0) =
    translate_loop 64 tail (Z.of_nat (length bp + length pre))
      (bp ++ pre ++ skipn (length pre) rest0).
Proof.
  induction pre as [|c pre IH]; intros bp rest0 tail Hp Hlen Hrest.
  - cbn. rewrite Nat.add_0_r. reflexivity.
  - inversion Hp as [|? ? (H0 & Hb & Hc) Hp']; subst.
    cbn [length] in Hlen, Hrest.
    destruct rest0 as [|r0 rest0]; [cbn in Hrest; lia |]. cbn [length] in Hrest.
    cbn [app translate_loop].
    replace (Z.of_nat (length bp) <? 64 - 1) with true
      by (symmetry; apply Z.ltb_lt; lia).
    apply Z.eqb_neq in H0, Hb, Hc. rewrite H0, Hb, Hc. cbn [negb orb andb].
    rewrite poke_app.
    replace (bp ++ c :: rest0) with ((bp ++ [c]) ++ rest0)
      by (rewrite <- app_assoc; reflexivity).
    replace (Z.of_nat (length bp) + 1) with (Z.of_nat (length (bp ++ [c])))
      by (rewrite length_app; cbn; lia).
    rewrite IH; [| exact Hp' | rewrite length_app; cbn; lia | lia].
    rewrite length_app. cbn [length skipn]. rewrite <- app_assoc. cbn [app].
    do 2 f_equal. lia.
Qed.

(** X5.  Behind at most 62 literal characters the escape [\0] stores a zero
    byte, and a zero byte ends the key sequence: whatever follows in the
    chord, a translation that succeeds hands exactly the literal characters
    to its caller. *)
Theorem translate_nul_escape_cuts (pre rest buf : list Z) (t : translation) :
  Forall plain pre -> (length pre <= 62)%nat -> length buf = 64%nat ->
  translate_chord 64 (pre ++ BACKSLASH :: DIGIT_0 :: rest) buf = Some t ->
  c_string (tr_out t) = pre.
Proof.
  intros Hp Hlen Hbuf E. unfold translate_chord in E.
  pose proof (translate_loop_plain_then pre [] buf (BACKSLASH :: DIGIT_0 :: rest)
                Hp ltac:(cbn; lia) ltac:(lia)) as C.
  cbn [length app Nat.add] in C. change (Z.of_nat 0) with 0 in C.
  rewrite C in E. clear C.
  destruct (skipn (length pre) buf) as [|b0 rest0] eqn:Hs.
  { apply (f_equal (@length Z)) in Hs. rewrite length_skipn in Hs. cbn in Hs. lia. }
  cbn [translate_loop] in E.
  replace (Z.of_nat (length pre) <? 64 - 1) with true in E
    by (symmetry; apply Z.ltb_lt; lia).
  cbn in E. rewrite poke_app in E.
  replace (pre ++ 0 :: rest0) with ((pre ++ [0]) ++ rest0) in E
    by (rewrite <- app_assoc; reflexivity).
  destruct (translate_loop 64 rest (Z.of_nat (length pre) + 1) ((pre ++ [0]) ++ rest0))
    as [[o i'] |] eqn:L; [| discriminate].
  injection E as <-. cbn [tr_out].
  destruct (translate_loop_keeps_prefix (length rest) rest
              (Z.of_nat (length pre) + 1) (pre ++ [0]) rest0 o i'
              (Nat.le_refl _) ltac:(rewrite length_app; cbn; lia) L)
    as (x' & -> & Hi').
  rewrite poke_prefix by (rewrite length_app; cbn; lia).
  rewrite <- app_assoc. cbn [app].
  apply c_string_app_zero. apply plain_nonzero. exact Hp.
Qed.

Lemma skipn_two (n : nat) (buf : list Z) :
  (n + 2 <= length buf)%nat ->
  exists b0 b1 rest, skipn n buf = b0 :: b1 :: rest.
Proof.
  intro H. pose proof (length_skipn n buf) as L.
  destruct (skipn n buf) as [|b0 [|b1 rest]]; cbn in L; try lia.
  exists b0, b1, rest. reflexivity.
Qed.

(** X6.  A backslash in front of a character that has no meaning of its own
    makes that character a literal key; this is how a backslash or a caret
    itself is bound. *)
Theorem translate_literal_escape (pre buf : list Z) (d : Z) :
  Forall plain pre -> (length pre <= 61)%nat -> length buf = 64%nat ->
  d <> 0 -> d <> LETTER_M -> d <> LETTER_C -> d <> LETTER_e -> d <> LETTER_t ->
  d <> LETTER_n -> d <> LETTER_r -> d <> DIGIT_0 ->
  translated_keys 64 (pre ++ [BACKSLASH; d]) buf = Some (pre ++ [d]).
Proof.
  intros Hp Hlen Hbuf H0 HM HC He Ht Hn Hr Hz.
  unfold translated_keys, translate_chord.
  pose proof (translate_loop_plain_then pre [] buf [BACKSLASH; d]
                Hp ltac:(cbn; lia) ltac:(lia)) as C.
  cbn [length app Nat.add] in C. change (Z.of_nat 0) with 0 in C.
  rewrite C. clear C.
  destruct (skipn_two (length pre) buf ltac:(lia)) as (b0 & b1 & rest0 & ->).
  cbn [translate_loop].
  replace (Z.of_nat (length pre) <? 64 - 1) with true
    by (symmetry; apply Z.ltb_lt; lia).
  unfold escape_byte.
  apply Z.eqb_neq in H0, HM, HC, He, Ht, Hn, Hr, Hz.
  rewrite H0, HM, HC, He, Ht, Hn, Hr, Hz. cbn.
  rewrite poke_app.
  replace (pre ++ d :: b1 :: rest0) with ((pre ++ [d]) ++ b1 :: rest0)
    by (rewrite <- app_assoc; reflexivity).
  replace (Z.of_nat (length pre) + 1) with (Z.of_nat (length (pre ++ [d])))
    by (rewrite length_app; cbn; lia).
  rewrite poke_app. f_equal. apply c_string_app_zero.
  apply Forall_app. split; [apply plain_nonzero; exact Hp |].
  constructor; [apply Z.eqb_neq; exact H0 | constructor].
Qed.

(** X7.  The Meta form [\M-X] stands for the two keys ESC and [X]: the
    translator stores ESC for the three characters of the prefix and goes on
    with [X] as an ordinary character. *)
Theorem translate_meta_form (pre buf : list Z) (X : Z) :
  Forall plain pre -> (length pre <= 60)%nat -> length buf = 64%nat ->
  plain X ->
  translated_keys 64 (pre ++ [BACKSLASH; LETTER_M; DASH; X]) buf =
  Some (pre ++ [ESC; X]).
Proof.
  intros Hp Hlen Hbuf (H0 & Hb & Hc).
  unfold translated_keys, translate_chord.
  pose proof (translate_loop_plain_then pre [] buf [BACKSLASH; LETTER_M; DASH; X]
                Hp ltac:(cbn; lia) ltac:(lia)) as C.
  cbn [length app Nat.add] in C. change (Z.of_nat 0) with 0 in C.
  rewrite C. clear C.
  destruct (skipn (length pre) buf) as [|b0 [|b1 [|b2 rest0]]] eqn:Hs;
    try (apply (f_equal (@length Z)) in Hs; rewrite length_skipn in Hs;
         cbn in Hs; lia).
  cbn [translate_loop].
  replace (Z.of_nat (length pre) <? 64 - 1) with true
    by (symmetry; apply Z.ltb_lt; lia).
  replace (Z.of_nat (length pre) + 1 <? 64 - 1) with true
    by (symmetry; apply Z.ltb_lt; lia).
  apply Z.eqb_neq in H0, Hb, Hc. rewrite H0, Hb, Hc. cbn.
  rewrite poke_app.
  replace (pre ++ ESC :: b1 :: b2 :: rest0) with ((pre ++ [ESC]) ++ b1 :: b2 :: rest0)
    by (rewrite <- app_assoc; reflexivity).
  replace (Z.of_nat (length pre) + 1) with (Z.of_nat (length (pre ++ [ESC])))
    by (rewrite length_app; cbn; lia).
  rewrite poke_app.
  replace ((pre ++ [ESC]) ++ X :: b2 :: rest0)
    with (((pre ++ [ESC]) ++ [X]) ++ b2 :: rest0)
    by (rewrite <- app_assoc; reflexivity).
  replace (Z.of_nat (length (pre ++ [ESC])) + 1)
    with (Z.of_nat (length ((pre ++ [ESC]) ++ [X])))
    by (rewrite !length_app; cbn; lia).
  rewrite poke_app. f_equal.
  replace (pre ++ [ESC; X]) with ((pre ++ [ESC]) ++ [X])
    by (rewrite <- app_assoc; reflexivity).
  apply c_string_app_zero.
  apply Forall_app. split.
  - apply Forall_app. split; [apply plain_nonzero; exact Hp |].
    constructor; [discriminate | constructor].
  - constructor; [apply Z.eqb_neq; exact H0 | constructor].
Qed.

Section Further.

Variable cfg : config.

(** ** The handler registry as a table *)

Lemma backend_position_found (l : list Z) (h : Z) :
  forall i b, backend_position l h i = Some b ->
    i <= b /\ nth_error l (Z.to_nat (b - i)) = Some h.
Proof.
  induction l as [|x l IH]; intros i b E; cbn [backend_position] in E;
    [discriminate |].
  destruct (Z.eqb_spec x h) as [-> | Hne].
  - injection E as <-. rewrite Z.sub_diag. split; [lia | reflexivity].
  - destruct (IH (i + 1) b E) as [Hle Hn]. split; [lia |].
    replace (Z.to_nat (b - i)) with (S (Z.to_nat (b - (i + 1)))) by lia.
    exact Hn.
Qed.

Lemma backend_position_missing (l : list Z) (h : Z) :
  forall i, backend_position l h i = None <-> ~ In h l.
Proof.
  induction l as [|x l IH]; intro i; cbn [backend_position In].
  - split; [intros _ [] | reflexivity].
  - destruct (Z.eqb_spec x h) as [-> | Hne].
    + split; [discriminate | intro H; exfalso; apply H; left; reflexivity].
    + rewrite IH. split; [intros H [E | E]; [contradiction | exact (H E)] |
                         intros H E; apply H; right; exact E].
Qed.

Lemma add_backend_reads_back (s : binder) (h : Z) :
  0 <= fst (add_backend cfg s h) ->
  get_backend (snd (add_backend cfg s h)) (fst (add_backend cfg s h)) = Some h.
Proof.
  intro Hb. pose proof (add_backend_registered cfg s h Hb) as Hpos.
  destruct (backend_position_found _ _ _ _ Hpos) as [_ Hn].
  unfold get_backend.
  replace (fst (add_backend cfg s h) <? 0) with false
    by (symmetry; apply Z.ltb_ge; exact Hb).
  rewrite Z.sub_0_r in Hn. exact Hn.
Qed.

(** X8.  A handler that [add_backend] accepted is read back by [get_backend]
    under the index returned; registering it again returns the same index
    and changes nothing; and every handler registered before keeps its
    index. *)
Theorem add_backend_get_backend (s : binder) (h : Z) :
  0 <= fst (add_backend cfg s h) ->
  let b := fst (add_backend cfg s h) in
  let s' := snd (add_backend cfg s h) in
  get_backend s' b = Some h /\
  add_backend cfg s' h = (b, s') /\
  (forall j x, get_backend s j = Some x -> get_backend s' j = Some x).
Proof.
  intros Hb b s'.
  pose proof (add_backend_registered cfg s h Hb) as Hpos. fold b s' in Hpos.
  split; [| split].
  - exact (add_backend_reads_back s h Hb).
  - apply add_backend_again. exact Hpos.
  - intros j x. unfold get_backend, s', add_backend.
    destruct (j <? 0); [discriminate |].
    destruct (backend_position (m_backends s) h 0); [auto |].
    destruct (Z.of_nat (length (m_backends s)) <? backend_capacity cfg); [| auto].
    cbn [snd m_backends]. intro E. rewrite nth_error_app1; [exact E |].
    apply nth_error_Some. congruence.
Qed.

(** X9.  [add_backend] fails exactly for a handler that is not registered
    when the registry holds [backend_capacity] entries or more, and then it
    leaves the binder as it is.  It never stores a handler twice and never
    grows a registry beyond its capacity. *)
Theorem add_backend_bounds (s : binder) (h : Z) :
  (fst (add_backend cfg s h) = -1 <->
   ~ In h (m_backends s) /\
   backend_capacity cfg <= Z.of_nat (length (m_backends s))) /\
  (fst (add_backend cfg s h) = -1 -> snd (add_backend cfg s h) = s) /\
  (NoDup (m_backends s) -> NoDup (m_backends (snd (add_backend cfg s h)))) /\
  (Z.of_nat (length (m_backends s)) <= backend_capacity cfg ->
   Z.of_nat (length (m_backends (snd (add_backend cfg s h)))) <= backend_capacity cfg).
Proof.
  unfold add_backend.
  destruct (backend_position (m_backends s) h 0) as [b |] eqn:E.
  - destruct (backend_position_found _ _ _ _ E) as [Hb Hn].
    assert (Hin : In h (m_backends s)) by (eapply nth_error_In; exact Hn).
    cbn [fst snd]. repeat split; auto; try lia.
    intros [Hno _]. contradiction.
  - apply backend_position_missing in E.
    destruct (Z.ltb_spec (Z.of_nat (length (m_backends s))) (backend_capacity cfg));
      cbn [fst snd m_backends].
    + split; [split; [intro; lia | intros [_ H']; lia] |].
      split; [intro; lia |]. split.
      * intro N. apply NoDup_app; [exact N | repeat constructor; intros [] |].
        intros x Hx [<- | []]. contradiction.
      * rewrite length_app. cbn. lia.
    + repeat split; auto.
Qed.

(** ** The cursor over a run of calls *)

(** X10.  Exhaustion is final: once [alloc_nodes] has failed, a later call
    fails too, whatever its count, as long as the cursor stays in the range
    of [unsigned int] over both calls. *)
Theorem alloc_nodes_stays_failed (s : binder) (k k' : Z) :
  in_uint_range s (k + k') -> 0 <= k -> 0 <= k' ->
  fst (alloc_nodes cfg s k) = -1 ->
  fst (alloc_nodes cfg (snd (alloc_nodes cfg s k)) k') = -1.
Proof.
  intros (Hc & _ & _) Hk Hk'. unfold alloc_nodes. cbn [fst snd m_next_node].
  destruct (Z.ltb_spec (m_next_node s + k) (capacity cfg)) as [Hlt | Hge];
    [intro H; lia |].
  intros _.
  destruct (Z.ltb_spec (m_next_node s + k + k') (capacity cfg)); [lia | reflexivity].
Qed.

Lemma insert_child_cursor_upper (s s' : binder) (p k c : Z) :
  insert_child cfg s p k = Ret (c, s') -> m_next_node s' <= m_next_node s + 1.
Proof.
  unfold insert_child.
  destruct (find_child cfg s p k) as [c0 | |]; cbn [obind]; try discriminate.
  destruct (c0 =? 0).
  - intro E. apply add_child_cursor in E. lia.
  - intro H; injection H as _ <-. lia.
Qed.

Lemma insert_keys_cursor_upper (keys : list Z) :
  forall (s s' : binder) (head d : Z) (r : option (Z * Z)),
    insert_keys cfg s head keys d = Ret (r, s') ->
    m_next_node s' <= m_next_node s + Z.of_nat (length keys).
Proof.
  induction keys as [|k rest IH]; intros s s' head d r E; cbn [insert_keys] in E.
  - injection E as _ <-. cbn. lia.
  - destruct (insert_child cfg s head k) as [[c s1] | |] eqn:E1;
      cbn [obind] in E; try discriminate.
    apply insert_child_cursor_upper in E1. cbn [length].
    destruct (c =? 0).
    + injection E as _ <-. lia.
    + apply IH in E. lia.
Qed.

Lemma bind_keys_cursor (s s' : binder) (group : Z) (keys : list Z) (b i : Z)
    (ok : bool) :
  bind_keys cfg s group keys b i = Ret (ok, s') ->
  m_next_node s <= m_next_node s' <= m_next_node s + Z.of_nat (length keys) + 1.
Proof.
  unfold bind_keys.
  destruct (insert_keys cfg s group keys 0) as [[r s2] | |] eqn:E;
    cbn [obind]; try discriminate.
  pose proof (insert_keys_cursor_upper keys _ _ _ _ _ E) as Hup.
  apply insert_keys_cursor in E. destruct E as (Hle & _ & _).
  assert (Hcommit : forall s3 h d, m_next_node (snd (commit s3 h b d i)) = m_next_node s3).
  { intros s3 h d. unfold commit. destruct (h =? 0); reflexivity. }
  destruct r as [[h d] |].
  - destruct (bound (m_nodes s2 h)).
    + destruct keys as [|k0 keys']; [discriminate |].
      unfold pool_fuel. rewrite dup_scan_finds_nothing. cbn [obind].
      destruct (append cfg s2 h (last (k0 :: keys') 0)) as [[h3 s3] | |] eqn:Eapp;
        cbn [obind]; try discriminate.
      apply append_cursor in Eapp.
      intro H. pose proof (Hcommit s3 h3 d) as Hc.
      destruct (commit s3 h3 b d i) as [ok' s4]. injection H as _ <-.
      cbn [snd] in Hc. lia.
    + intro H. pose proof (Hcommit s2 h d) as Hc.
      destruct (commit s2 h b d i) as [ok' s4]. injection H as _ <-.
      cbn [snd] in Hc. lia.
  - intro H; injection H as _ <-. lia.
Qed.

(** X11.  From a cursor with room for 64 more in the range of
    [unsigned int], calls only move the cursor forward.  [create_group]
    advances it by two, with or without success; a call of [bind] advances
    it by at most one node for each translated key and one more, and never
    moves it back. *)
Theorem cursor_only_advances (s s' : binder) :
  in_uint_range s 64 ->
  (forall name r, create_group cfg s name = Ret (r, s') ->
     m_next_node s' = m_next_node s + 2) /\
  (forall group chord handler i ok,
     bind cfg s group chord handler i = Ret (ok, s') ->
     m_next_node s <= m_next_node s' /\
     forall t, translate_chord 64 chord (translated0 cfg) = Some t ->
       m_next_node s' <= m_next_node s + Z.of_nat (length (c_string (tr_out t))) + 1).
Proof.
  intros _. split.
  - intros name r E. apply create_group_inv in E.
    destruct E as [(_ & -> & _) | (_ & _ & _ & H & _)]; [reflexivity | exact H].
  - intros group chord handler i ok. unfold bind.
    destruct (capacity cfg <=? group);
      [intro H; injection H as _ <-; split; [lia | intros; lia] |].
    destruct (has_high_byte chord);
      [intro H; injection H as _ <-; split; [lia | intros; lia] |].
    destruct (translate_chord 64 chord (translated0 cfg)) as [t |];
      [| intro H; injection H as _ <-; split; [lia | intros; lia]].
    destruct (negb ((0 <=? tr_end t) && (tr_end t <? 64))); [discriminate |].
    destruct (add_backend_nodes cfg s handler) as [_ Hcur].
    destruct (add_backend cfg s handler) as [b s1]. cbn [snd] in Hcur.
    destruct (b <? 0).
    + intro H; injection H as _ <-. split; [lia | intros; lia].
    + intro E. apply bind_keys_cursor in E. split; [lia |].
      intros t' H'; injection H' as <-. lia.
Qed.

(** ** A new group *)

(** X12.  The trie of a group that [create_group] has just made is empty:
    its root is a zeroed, unbound node, [find_child] finds no key below it,
    and no chord of one key or more resolves in it. *)
Theorem create_group_root_empty (s s' : binder) (name : list Z) (r : Z) :
  create_group cfg s name = Ret (r, s') -> 0 <= r ->
  m_nodes s' r = zero_node /\
  (forall k, find_child cfg s' r k = Ret 0) /\
  (forall k keys, find_path cfg s' r (k :: keys) = Ret 0).
Proof.
  intros E Hr. apply create_group_inv in E.
  destruct E as [(-> & _) | (-> & Hc0 & _ & _ & _ & Hm)]; [lia |].
  cbv zeta in Hm.
  assert (Hroot : m_nodes s' (m_next_node s + 1) = zero_node)
    by (rewrite Hm; apply upd_same).
  assert (Hfind : forall k, find_child cfg s' (m_next_node s + 1) k = Ret 0).
  { intro k. unfold find_child, pool_fuel. rewrite Hroot. cbn [child zero_node].
    cbn [find_child_loop]. rewrite gtb_false by lia. reflexivity. }
  split; [exact Hroot |]. split; [exact Hfind |].
  intros k keys. cbn [find_path]. rewrite Hfind. reflexivity.
Qed.

(** ** What bind leaves alone *)

Lemma adds_refl (T : Z -> Prop) (s : binder) : adds T s T s.
Proof. constructor; [reflexivity | intros x Tx Hn; contradiction]. Qed.

Lemma adds_trans (T T1 T2 : Z -> Prop) (par par1 par2 : Z -> Z)
    (s s1 s2 : binder) :
  grows cfg T par s T1 par1 s1 -> adds T s T1 s1 ->
  grows cfg T1 par1 s1 T2 par2 s2 -> adds T1 s1 T2 s2 ->
  adds T s T2 s2.
Proof.
  intros G1 [O1 U1] G2 [O2 U2].
  pose proof (gr_cursor _ _ _ _ _ _ _ G1) as Hcur.
  assert (Hout : forall x, ~ T x -> x < m_next_node s -> ~ T1 x).
  { intros x Hn Hx T1x. destruct (gr_fresh _ _ _ _ _ _ _ G1 x T1x); [contradiction | lia]. }
  constructor.
  - intros x Hn Hx. rewrite (O2 x (Hout x Hn Hx)) by lia. exact (O1 x Hn Hx).
  - intros x T2x Hn. destruct (gr_fresh _ _ _ _ _ _ _ G2 x T2x) as [T1x | Hge].
    + destruct (gr_binding _ _ _ _ _ _ _ G2 x T1x) as [Hb _]. rewrite Hb.
      exact (U1 x T1x Hn).
    + apply (U2 x T2x). intro T1x.
      destruct (wf_range _ _ _ _ (gr_wf _ _ _ _ _ _ _ G1) x T1x). lia.
Qed.

Lemma bump_adds (T : Z -> Prop) (s : binder) (k : Z) :
  adds T s T (mk_binder (m_nodes s) (m_next_node s + k) (m_backends s)).
Proof. constructor; [reflexivity | intros x Tx Hn; contradiction]. Qed.

Lemma link_adds (T : Z -> Prop) (par : Z -> Z) (s : binder) (a : Z) (va vc : node) :
  wf cfg T par s -> T a -> bound vc = false ->
  let c := m_next_node s in
  adds T s (fun x => T x \/ x = c)
    (mk_binder (upd (upd (m_nodes s) a va) c vc) (c + 1) (m_backends s)).
Proof.
  intros W Ta Hb c. constructor; cbn [m_nodes m_next_node].
  - intros x Hn Hx. fold c in Hx. rewrite upd_other by lia.
    apply upd_other. intros ->. contradiction.
  - intros x [Tx | ->] Hn; [contradiction |]. rewrite upd_same. exact Hb.
Qed.

(** [insert_child], with what it leaves alone. *)
Lemma insert_child_effect (T : Z -> Prop) (par : Z -> Z) (s : binder) (p k : Z) :
  wf cfg T par s -> T p ->
  exists c s' T' par',
    insert_child cfg s p k = Ret (c, s') /\
    grows cfg T par s T' par' s' /\ adds T s T' s' /\
    ((c = 0 /\ capacity cfg <= m_next_node s + 1) \/
     (c <> 0 /\ T' c /\ par' c = p /\ key (m_nodes s' c) = k /\
      find_child cfg s' p k = Ret c)).
Proof.
  intros W Tp.
  pose proof (wf_cursor _ _ _ _ W) as Hcur.
  destruct (find_child_wf cfg T par s p k W Tp) as (c0 & E & Hc0).
  destruct (insert_child_grows cfg T par s p k W Tp)
    as (c & s' & T0 & par0 & Eins & G0 & _ & Hres).
  destruct (Z.eq_dec c0 0) as [-> | Hne].
  - unfold insert_child in Eins. rewrite E in Eins. cbn [obind Z.eqb] in Eins.
    destruct (add_child_inv cfg T par s p k W Tp)
      as [[Hfull Eadd] | [Hroom [[H0 Eadd] | (t & Hch & Etail & Tt & Hpt & Hnt & Eadd)]]];
      rewrite Eadd in Eins; injection Eins as <- <-.
    + exists 0, (mk_binder (m_nodes s) (m_next_node s + 1) (m_backends s)), T, par.
      split; [unfold insert_child; rewrite E; cbn [obind Z.eqb]; exact Eadd |].
      split; [apply cursor_bump_grows; [exact W | lia] |].
      split; [apply bump_adds |]. left. split; [reflexivity | lia].
    + destruct Hres as [(Hz & _) | (Hc & _ & _ & Hk & Ef)]; [lia |].
      pose proof (link_child_grows cfg T par s p k W Tp H0 ltac:(lia)) as G.
      cbv zeta in G.
      eexists _, _, _, _.
      split; [unfold insert_child; rewrite E; cbn [obind Z.eqb]; exact Eadd |].
      split; [exact G |].
      split; [apply (link_adds T par s p _ _ W Tp); reflexivity |].
      right. split; [exact Hc |]. split; [right; reflexivity |].
      rewrite Z.eqb_refl. split; [reflexivity |]. split; [exact Hk | exact Ef].
    + destruct Hres as [(Hz & _) | (Hc & _ & _ & Hk & Ef)]; [lia |].
      pose proof (link_tail_grows cfg T par s t k W Tt ltac:(congruence) ltac:(lia)) as G.
      cbv zeta in G. rewrite Hpt in G.
      eexists _, _, _, _.
      split; [unfold insert_child; rewrite E; cbn [obind Z.eqb]; exact Eadd |].
      split; [exact G |].
      split; [apply (link_adds T par s t _ _ W Tt); reflexivity |].
      right. split; [exact Hc |]. split; [right; reflexivity |].
      rewrite Z.eqb_refl. split; [reflexivity |]. split; [exact Hk | exact Ef].
  - destruct Hc0 as [-> | (Tc & Hpc & Hk)]; [contradiction |].
    exists c0, s, T, par.
    assert (Eq : insert_child cfg s p k = Ret (c0, s)).
    { unfold insert_child. rewrite E. cbn [obind].
      replace (c0 =? 0) with false by (symmetry; apply Z.eqb_neq; exact Hne).
      reflexivity. }
    split; [exact Eq |]. split; [apply grows_refl; exact W |].
    split; [apply adds_refl |]. right. repeat split; assumption.
Qed.

(** The key loop of [bind], with what it leaves alone. *)
Lemma insert_keys_effect (keys : list Z) :
  forall (T : Z -> Prop) (par : Z -> Z) (s : binder) (head d : Z),
    wf cfg T par s -> T head ->
    exists r s' T' par',
      insert_keys cfg s head keys d = Ret (r, s') /\
      grows cfg T par s T' par' s' /\ adds T s T' s' /\
      (r = None \/
       (exists h,
          r = Some (h, d + Z.of_nat (length keys)) /\ T' h /\
          find_path cfg s' head keys = Ret h)).
Proof.
  induction keys as [|k rest IH]; intros T par s head d W Th.
  - exists (Some (head, d)), s, T, par. cbn [insert_keys length find_path].
    split; [reflexivity |]. split; [apply grows_refl; exact W |].
    split; [apply adds_refl |]. right. exists head.
    replace (d + Z.of_nat 0) with d by lia.
    split; [reflexivity |]. split; [exact Th | reflexivity].
  - destruct (insert_child_effect T par s head k W Th)
      as (c & s1 & T1 & par1 & E1 & G1 & A1 & Hres).
    cbn [insert_keys]. rewrite E1. cbn [obind].
    destruct Hres as [(-> & Hfull) | (Hc & Tc & Hpc & Hk & Efind)].
    + exists None, s1, T1, par1. cbn [Z.eqb].
      split; [reflexivity |]. split; [exact G1 |]. split; [exact A1 |]. left. reflexivity.
    + apply Z.eqb_neq in Hc. rewrite Hc.
      destruct (IH T1 par1 s1 c (d + 1) (gr_wf _ _ _ _ _ _ _ G1) Tc)
        as (r & s' & T' & par' & E & G & A & Hres).
      exists r, s', T', par'. split; [exact E |].
      split; [exact (grows_trans _ _ _ _ _ _ _ _ _ _ G1 G) |].
      split; [exact (adds_trans _ _ _ _ _ _ _ _ _ G1 A1 G A) |].
      destruct Hres as [-> | (h & -> & Th' & Epath)]; [left; reflexivity |].
      right. exists h. cbn [length].
      replace (d + Z.of_nat (S (length rest))) with (d + 1 + Z.of_nat (length rest))
        by lia.
      split; [reflexivity |]. split; [exact Th' |].
      cbn [find_path].
      rewrite (find_child_stable cfg T1 par1 s1 s' head k c
                 (gr_wf _ _ _ _ _ _ _ G1) (gr_ext _ _ _ _ _ _ _ G)
                 (gr_sub _ _ _ _ _ _ _ G1 head Th) Efind
                 ltac:(apply Z.eqb_neq; exact Hc)).
      cbn [obind]. rewrite Hc. exact Epath.
Qed.

Lemma commit_links (m : pool) (x b d i y : Z) :
  key (upd m x (set_binding (m x) b d i) y) = key (m y) /\
  next (upd m x (set_binding (m x) b d i) y) = next (m y) /\
  child (upd m x (set_binding (m x) b d i) y) = child (m y).
Proof.
  unfold upd. destruct (y =? x) eqn:E; [| repeat split].
  apply Z.eqb_eq in E. subst y. repeat split.
Qed.

Lemma extends_same_links (T : Z -> Prop) (par : Z -> Z) (m m1 m2 : pool) :
  extends T par m m1 ->
  (forall x, T x -> key (m2 x) = key (m1 x) /\ next (m2 x) = next (m1 x) /\
                    child (m2 x) = child (m1 x)) ->
  extends T par m m2.
Proof.
  intros [K N C] H. constructor; intros x Tx; destruct (H x Tx) as (Hk & Hn & Hc).
  - rewrite Hk. auto.
  - rewrite Hn. auto.
  - rewrite Hc. auto.
Qed.

(** All that a returning [bind_keys] does to a well-shaped trie. *)
Lemma bind_keys_effect (T : Z -> Prop) (par : Z -> Z) (s s' : binder)
    (group : Z) (keys : list Z) (b i : Z) (ok : bool) :
  wf cfg T par s -> T group ->
  bind_keys cfg s group keys b i = Ret (ok, s') ->
  exists T' par',
    wf cfg T' par' s' /\
    (forall x, T x -> T' x) /\ (forall x, T x -> par' x = par x) /\
    (forall x, T' x -> T x \/ m_next_node s <= x) /\
    extends T par (m_nodes s) (m_nodes s') /\
    (forall x, ~ T x -> x < m_next_node s -> m_nodes s' x = m_nodes s x) /\
    m_backends s' = m_backends s /\
    if ok then
      exists h t,
        find_path cfg s' group keys = Ret h /\ T' h /\
        bound (m_nodes s' h) = true /\
        T' t /\ par' t = par' h /\ (t = h \/ par' h <> 0) /\
        key (m_nodes s' t) = key (m_nodes s' h) /\
        carries (m_nodes s') t (key (m_nodes s' t)) b i (Z.of_nat (length keys)) /\
        (T t -> bound (m_nodes s t) = false) /\
        (forall x, T x -> x <> t -> same_binding (m_nodes s) (m_nodes s') x) /\
        (forall x, T' x -> ~ T x -> x <> t -> bound (m_nodes s' x) = false)
    else
      (forall x, T x -> same_binding (m_nodes s) (m_nodes s') x) /\
      (forall x, T' x -> ~ T x -> bound (m_nodes s' x) = false).
Proof.
  intros W Tg Ebind.
  destruct (insert_keys_effect keys T par s group 0 W Tg)
    as (r & s2 & T2 & par2 & E & G & A & Hres).
  pose proof (gr_wf _ _ _ _ _ _ _ G) as W2.
  unfold bind_keys in Ebind. rewrite E in Ebind. cbn [obind] in Ebind.
  destruct Hres as [-> | (h & -> & Th & Epath)].
  { injection Ebind as <- <-. exists T2, par2.
    destruct G as [W1 S1 P1 X1 B1 F1 Cu1 Ba1]. destruct A as [O1 U1].
    split; [exact W1 |]. split; [exact S1 |]. split; [exact P1 |].
    split; [exact F1 |]. split; [exact X1 |]. split; [exact O1 |].
    split; [exact Ba1 |]. split; [exact B1 | exact U1]. }
  destruct (wf_range _ _ _ _ W2 h Th) as [Hh _].
  assert (Hh0 : h <> 0) by lia.
  replace (0 + Z.of_nat (length keys)) with (Z.of_nat (length keys)) in Ebind by lia.
  destruct (bound (m_nodes s2 h)) eqn:Hbound.
  - destruct keys as [|k0 keys']; [discriminate |].
    assert (Hkne : k0 :: keys' <> []) by discriminate.
    remember (k0 :: keys') as keys eqn:Hkeys. clear Hkeys.
    unfold pool_fuel in Ebind. rewrite dup_scan_finds_nothing in Ebind.
    cbn [obind] in Ebind.
    destruct (append_inv cfg T2 par2 s2 h (last keys 0) W2 Th)
      as [[Hfull Eapp] | [Hroom (t & _ & Tt & Hpt & _ & Hnt & Eapp)]];
      rewrite Eapp in Ebind; cbn [obind] in Ebind; unfold commit in Ebind.
    + cbn [Z.eqb] in Ebind. injection Ebind as <- <-.
      pose proof (grows_trans cfg _ _ _ _ _ _ _ _ _ G
                    (cursor_bump_grows cfg T2 par2 s2 1 W2 ltac:(lia))) as G'.
      pose proof (adds_trans _ _ _ _ _ _ _ _ _ G A
                    (cursor_bump_grows cfg T2 par2 s2 1 W2 ltac:(lia))
                    (bump_adds T2 s2 1)) as A'.
      exists T2, par2.
      destruct G' as [W1 S1 P1 X1 B1 F1 Cu1 Ba1]. destruct A' as [O1 U1].
      split; [exact W1 |]. split; [exact S1 |]. split; [exact P1 |].
      split; [exact F1 |]. split; [exact X1 |]. split; [exact O1 |].
      split; [exact Ba1 |]. split; [exact B1 | exact U1].
    + pose proof (wf_cursor _ _ _ _ W2) as Hcur2.
      replace (m_next_node s2 =? 0) with false in Ebind
        by (symmetry; apply Z.eqb_neq; lia).
      injection Ebind as <- <-. cbn [m_nodes m_backends with_nodes].
      pose proof (link_tail_grows cfg T2 par2 s2 t (last keys 0) W2 Tt Hnt ltac:(lia))
        as G3.
      pose proof (link_adds T2 par2 s2 t (set_next (m_nodes s2 t) (m_next_node s2))
                    (set_next (set_key zero_node (last keys 0)) (par2 t)) W2 Tt eq_refl)
        as A3.
      cbv zeta in G3, A3.
      set (c := m_next_node s2) in *.
      set (m3 := upd (upd (m_nodes s2) t (set_next (m_nodes s2 t) c)) c
                   (set_next (set_key zero_node (last keys 0)) (par2 t))) in *.
      set (s3 := mk_binder m3 (c + 1) (m_backends s2)) in *.
      set (T' := fun x => T2 x \/ x = c) in *.
      set (par' := fun x => if x =? c then par2 t else par2 x) in *.
      pose proof (grows_trans cfg _ _ _ _ _ _ _ _ _ G G3) as G'.
      pose proof (adds_trans _ _ _ _ _ _ _ _ _ G A G3 A3) as A'.
      set (m' := upd m3 c (set_binding (m3 c) b (Z.of_nat (length keys)) i)).
      assert (Hold : forall x, x <> c -> m' x = m3 x)
        by (intros x Hx; unfold m'; apply upd_other; exact Hx).
      assert (HT : forall x, T x -> x <> c).
      { intros x Tx. destruct (wf_range _ _ _ _ W x Tx).
        pose proof (gr_cursor _ _ _ _ _ _ _ G). unfold c. lia. }
      assert (HT2 : forall x, T2 x -> x <> c).
      { intros x Tx. destruct (wf_range _ _ _ _ W2 x Tx). unfold c. lia. }
      exists T', par'.
      split; [exact (commit_wf cfg T' par' s3 c b _ i (gr_wf _ _ _ _ _ _ _ G3)) |].
      split; [exact (gr_sub _ _ _ _ _ _ _ G') |].
      split; [exact (gr_par _ _ _ _ _ _ _ G') |].
      split; [exact (gr_fresh _ _ _ _ _ _ _ G') |].
      split.
      { apply (extends_same_links T par (m_nodes s) m3 m' (gr_ext _ _ _ _ _ _ _ G')).
        intros x _. unfold m'. apply commit_links. }
      split.
      { intros x Hn Hx. rewrite Hold.
        - exact (ad_outside _ _ _ _ A' x Hn Hx).
        - pose proof (gr_cursor _ _ _ _ _ _ _ G). unfold c. lia. }
      split; [exact (gr_backends _ _ _ _ _ _ _ G') |].
      assert (Ext2 : extends T2 par2 (m_nodes s2) m').
      { apply (extends_same_links T2 par2 (m_nodes s2) m3 m' (gr_ext _ _ _ _ _ _ _ G3)).
        intros x _. unfold m'. apply commit_links. }
      destruct (find_path_last cfg T2 par2 s2 keys W2 group h
                  (gr_sub _ _ _ _ _ _ _ G group Tg) Epath Hh0 Hkne)
        as (p & Tp & _ & Ef).
      destruct (find_child_found cfg T2 par2 s2 p _ h W2 Tp Ef Hh0) as (_ & Hph & Hkh).
      destruct (wf_range _ _ _ _ W2 p Tp) as [Hp1 _].
      exists h, c.
      split.
      { exact (find_path_stable cfg T2 par2 s2 (mk_binder m' (c + 1) (m_backends s2))
                 keys W2 Ext2 group h (gr_sub _ _ _ _ _ _ _ G group Tg) Epath Hh0). }
      split; [left; exact Th |].
      split.
      { rewrite (Hold h (HT2 h Th)).
        destruct (gr_binding _ _ _ _ _ _ _ G3 h Th) as [Hb _].
        unfold s3 in Hb. cbn [m_nodes] in Hb. congruence. }
      split; [right; reflexivity |].
      split.
      { unfold par'. rewrite Z.eqb_refl.
        replace (h =? c) with false by (symmetry; apply Z.eqb_neq; exact (HT2 h Th)).
        exact Hpt. }
      split.
      { right. unfold par'.
        replace (h =? c) with false by (symmetry; apply Z.eqb_neq; exact (HT2 h Th)).
        lia. }
      assert (Hkc : key (m' c) = last keys 0).
      { unfold m'. rewrite upd_same. cbn [key set_binding]. unfold m3.
        rewrite upd_same. reflexivity. }
      split.
      { rewrite Hkc, (Hold h (HT2 h Th)).
        pose proof (ext_key _ _ _ _ (gr_ext _ _ _ _ _ _ _ G3) h Th) as Hk3.
        unfold s3 in Hk3. cbn [m_nodes] in Hk3. congruence. }
      split.
      { unfold carries, m'. rewrite upd_same.
        cbn [bound key backend id depth set_binding]. repeat split. }
      split; [intro Tc; exfalso; exact (HT c Tc eq_refl) |].
      split.
      { intros x Tx _. unfold same_binding. rewrite (Hold x (HT x Tx)).
        exact (gr_binding _ _ _ _ _ _ _ G' x Tx). }
      intros x Tx' Hn Hx. rewrite (Hold x Hx).
      exact (ad_unbound _ _ _ _ A' x Tx' Hn).
  - unfold commit in Ebind.
    replace (h =? 0) with false in Ebind by (symmetry; apply Z.eqb_neq; exact Hh0).
    injection Ebind as <- <-. cbn [m_nodes m_backends with_nodes].
    set (m' := upd (m_nodes s2) h
                 (set_binding (m_nodes s2 h) b (Z.of_nat (length keys)) i)).
    assert (Hold : forall x, x <> h -> m' x = m_nodes s2 x)
      by (intros x Hx; unfold m'; apply upd_other; exact Hx).
    exists T2, par2.
    split; [exact (commit_wf cfg T2 par2 s2 h b _ i W2) |].
    split; [exact (gr_sub _ _ _ _ _ _ _ G) |].
    split; [exact (gr_par _ _ _ _ _ _ _ G) |].
    split; [exact (gr_fresh _ _ _ _ _ _ _ G) |].
    split.
    { apply (extends_same_links T par (m_nodes s) (m_nodes s2) m'
               (gr_ext _ _ _ _ _ _ _ G)).
      intros x _. unfold m'. apply commit_links. }
    split.
    { intros x Hn Hx. rewrite Hold.
      - exact (ad_outside _ _ _ _ A x Hn Hx).
      - intros ->. destruct (gr_fresh _ _ _ _ _ _ _ G h Th); [contradiction | lia]. }
    split; [exact (gr_backends _ _ _ _ _ _ _ G) |].
    exists h, h.
    split.
    { exact (find_path_stable cfg T2 par2 s2 (with_nodes s2 m') keys W2
               (commit_extends T2 par2 (m_nodes s2) h b _ i)
               group h (gr_sub _ _ _ _ _ _ _ G group Tg) Epath Hh0). }
    split; [exact Th |].
    split; [unfold m'; rewrite upd_same; reflexivity |].
    split; [exact Th |]. split; [reflexivity |]. split; [left; reflexivity |].
    split; [reflexivity |].
    split.
    { unfold carries, m'. rewrite upd_same.
      cbn [bound key backend id depth set_binding]. repeat split. }
    split.
    { intro Tx. destruct (gr_binding _ _ _ _ _ _ _ G h Tx) as [Hb _]. congruence. }
    split.
    { intros x Tx Hx. unfold same_binding. rewrite (Hold x Hx).
      exact (gr_binding _ _ _ _ _ _ _ G x Tx). }
    intros x Tx' Hn Hx. rewrite (Hold x Hx). exact (ad_unbound _ _ _ _ A x Tx' Hn).
Qed.

(** All that a returning [bind] does to a well-shaped trie. *)
Lemma bind_effect (T : Z -> Prop) (par : Z -> Z) (s s' : binder)
    (group : Z) (chord : list Z) (handler i : Z) (ok : bool) :
  wf cfg T par s -> T group ->
  bind cfg s group chord handler i = Ret (ok, s') ->
  exists T' par',
    wf cfg T' par' s' /\
    (forall x, T x -> T' x) /\ (forall x, T x -> par' x = par x) /\
    (forall x, T' x -> T x \/ m_next_node s <= x) /\
    extends T par (m_nodes s) (m_nodes s') /\
    (forall x, ~ T x -> x < m_next_node s -> m_nodes s' x = m_nodes s x) /\
    (m_backends s' = m_backends s \/
     m_backends s' = m_backends (snd (add_backend cfg s handler))) /\
    if ok then
      exists t0 h t,
        translate_chord 64 chord (translated0 cfg) = Some t0 /\
        0 <= fst (add_backend cfg s handler) /\
        get_backend s' (fst (add_backend cfg s handler)) = Some handler /\
        find_path cfg s' group (c_string (tr_out t0)) = Ret h /\ T' h /\
        bound (m_nodes s' h) = true /\
        T' t /\ par' t = par' h /\ (t = h \/ par' h <> 0) /\
        key (m_nodes s' t) = key (m_nodes s' h) /\
        carries (m_nodes s') t (key (m_nodes s' t))
          (fst (add_backend cfg s handler)) i
          (Z.of_nat (length (c_string (tr_out t0)))) /\
        (T t -> bound (m_nodes s t) = false) /\
        (forall x, T x -> x <> t -> same_binding (m_nodes s) (m_nodes s') x) /\
        (forall x, T' x -> ~ T x -> x <> t -> bound (m_nodes s' x) = false)
    else
      (forall x, T x -> same_binding (m_nodes s) (m_nodes s') x) /\
      (forall x, T' x -> ~ T x -> bound (m_nodes s' x) = false).
Proof.
  intros W Tg E.
  assert (Same : forall s0, m_nodes s0 = m_nodes s -> m_next_node s0 = m_next_node s ->
            Ret (false, s0) = Ret (ok, s') ->
            exists T' par',
              wf cfg T' par' s' /\
              (forall x, T x -> T' x) /\ (forall x, T x -> par' x = par x) /\
              (forall x, T' x -> T x \/ m_next_node s <= x) /\
              extends T par (m_nodes s) (m_nodes s') /\
              (forall x, ~ T x -> x < m_next_node s -> m_nodes s' x = m_nodes s x) /\
              (m_backends s0 = m_backends s \/
               m_backends s0 = m_backends (snd (add_backend cfg s handler)) ->
               m_backends s' = m_backends s \/
               m_backends s' = m_backends (snd (add_backend cfg s handler))) /\
              if ok then False
              else
                (forall x, T x -> same_binding (m_nodes s) (m_nodes s') x) /\
                (forall x, T' x -> ~ T x -> bound (m_nodes s' x) = false)).
  { intros s0 Hn Hc H. injection H as <- <-. exists T, par.
    split.
    { destruct W as [Wc Wr Wp Wch Wn Wl]. constructor; rewrite ?Hn, ?Hc; auto. }
    split; [auto |]. split; [auto |]. split; [auto |].
    split; [rewrite Hn; constructor; auto |].
    split; [intros; rewrite Hn; reflexivity |].
    split; [auto |].
    split; [intros x _; rewrite Hn; repeat split | intros x Tx Hx; contradiction]. }
  unfold bind in E.
  destruct (capacity cfg <=? group).
  { destruct (Same s eq_refl eq_refl E) as (T' & par' & H1 & H2 & H3 & H4 & H5 & H6 & H7 & H8).
    exists T', par'. repeat (split; [assumption |]).
    split; [apply H7; left; reflexivity |]. destruct ok; [contradiction | exact H8]. }
  destruct (has_high_byte chord).
  { destruct (Same s eq_refl eq_refl E) as (T' & par' & H1 & H2 & H3 & H4 & H5 & H6 & H7 & H8).
    exists T', par'. repeat (split; [assumption |]).
    split; [apply H7; left; reflexivity |]. destruct ok; [contradiction | exact H8]. }
  destruct (translate_chord 64 chord (translated0 cfg)) as [t0 |].
  2: { destruct (Same s eq_refl eq_refl E)
         as (T' & par' & H1 & H2 & H3 & H4 & H5 & H6 & H7 & H8).
       exists T', par'. repeat (split; [assumption |]).
       split; [apply H7; left; reflexivity |]. destruct ok; [contradiction | exact H8]. }
  destruct (negb ((0 <=? tr_end t0) && (tr_end t0 <? 64))); [discriminate |].
  destruct (add_backend_nodes cfg s handler) as [Hn Hc].
  pose proof (add_backend_wf cfg T par s handler W) as W1.
  pose proof (add_backend_reads_back s handler) as Hget.
  destruct (add_backend cfg s handler) as [b s1]. cbn [fst snd] in *.
  destruct (Z.ltb_spec b 0) as [Hneg | Hpos].
  { destruct (Same s1 Hn Hc E) as (T' & par' & H1 & H2 & H3 & H4 & H5 & H6 & H7 & H8).
    exists T', par'. repeat (split; [assumption |]).
    split; [apply H7; right; reflexivity |]. destruct ok; [contradiction | exact H8]. }
  destruct (bind_keys_effect T par s1 s' group _ b i ok W1 Tg E)
    as (T' & par' & W' & Sub & Par & Fresh & Ext & Out & Back & Rest).
  rewrite Hn in Ext, Out, Rest. rewrite Hc in Fresh, Out.
  exists T', par'.
  split; [exact W' |]. split; [exact Sub |]. split; [exact Par |].
  split; [exact Fresh |]. split; [exact Ext |]. split; [exact Out |].
  split; [right; exact Back |].
  destruct ok; [| exact Rest].
  destruct Rest as (h & t & Rest).
  exists t0, h, t. split; [reflexivity |]. split; [exact Hpos |].
  split; [| exact Rest].
  pose proof (Hget Hpos) as G. unfold get_backend in *. rewrite Back. exact G.
Qed.

(** ** Levels *)

Lemma level_fuel_enough (T : Z -> Prop) (par : Z -> Z) (s : binder) :
  wf cfg T par s ->
  forall (n m : nat) (x : Z),
    T x -> (Z.to_nat x <= n)%nat -> (Z.to_nat x <= m)%nat ->
    level_fuel par n x = level_fuel par m x.
Proof.
  intro W. induction n as [|n IH]; intros m x Tx Hn Hm.
  - destruct (wf_range _ _ _ _ W x Tx). lia.
  - destruct m as [|m]; [destruct (wf_range _ _ _ _ W x Tx); lia |].
    cbn [level_fuel]. destruct (Z.eqb_spec (par x) 0) as [E | E]; [reflexivity |].
    destruct (wf_linked _ _ _ _ W x Tx) as [E' | [Tp _]]; [contradiction |].
    destruct (wf_par _ _ _ _ W x Tx).
    rewrite (IH m (par x) Tp); [reflexivity | lia | lia].
Qed.

Lemma level_root (par : Z -> Z) (x : Z) : par x = 0 -> level par x = 0.
Proof.
  intro E. unfold level. destruct (Z.to_nat x); cbn [level_fuel]; [reflexivity |].
  rewrite E. reflexivity.
Qed.

Lemma level_step (T : Z -> Prop) (par : Z -> Z) (s : binder) (x : Z) :
  wf cfg T par s -> T x -> par x <> 0 ->
  level par x = level par (par x) + 1.
Proof.
  intros W Tx E. unfold level.
  destruct (wf_range _ _ _ _ W x Tx) as [Hx _].
  destruct (wf_par _ _ _ _ W x Tx) as [Hp0 Hp].
  destruct (wf_linked _ _ _ _ W x Tx) as [E' | [Tp _]]; [contradiction |].
  destruct (Z.to_nat x) as [|n] eqn:Hn; [lia |].
  cbn [level_fuel]. apply Z.eqb_neq in E. rewrite E.
  rewrite (level_fuel_enough T par s W n (Z.to_nat (par x)) (par x) Tp); [reflexivity | lia | lia].
Qed.

Lemma level_agree (T : Z -> Prop) (par par' : Z -> Z) (s : binder) :
  wf cfg T par s -> (forall x, T x -> par' x = par x) ->
  forall x, T x -> level par' x = level par x.
Proof.
  intros W Hpar.
  assert (H : forall n x, T x -> level_fuel par' n x = level_fuel par n x).
  { induction n as [|n IH]; intros x Tx; cbn [level_fuel]; [reflexivity |].
    rewrite (Hpar x Tx). destruct (Z.eqb_spec (par x) 0) as [E | E]; [reflexivity |].
    destruct (wf_linked _ _ _ _ W x Tx) as [E' | [Tp _]]; [contradiction |].
    rewrite (IH _ Tp). reflexivity. }
  intros x Tx. unfold level. apply H. exact Tx.
Qed.

Lemma level_path (T : Z -> Prop) (par : Z -> Z) (s : binder) (keys : list Z) :
  wf cfg T par s ->
  forall head h, T head -> find_path cfg s head keys = Ret h -> h <> 0 ->
    level par h = level par head + Z.of_nat (length keys).
Proof.
  intro W. induction keys as [|k rest IH]; intros head h Th E Hh.
  - cbn in E. injection E as <-. cbn. lia.
  - destruct (find_path_cons_inv cfg s head k h rest E Hh) as (c & Ec & Hc & Er).
    destruct (find_child_found cfg T par s head k c W Th Ec Hc) as (Tc & Hpc & _).
    destruct (wf_range _ _ _ _ W head Th) as [Hhead _].
    rewrite (IH c h Tc Er Hh).
    rewrite (level_step T par s c W Tc ltac:(lia)). rewrite Hpc.
    cbn [length]. lia.
Qed.

(** ** The group list *)

Lemma group_chain_agree (m m' : pool) (roots : list Z) :
  forall idx,
    (forall r, In r roots -> r <> 1 -> m' (r - 1) = m (r - 1)) ->
    group_chain m idx roots -> group_chain m' idx roots.
Proof.
  induction roots as [|r rest IH]; intros idx Hsame C; [exact C |].
  cbn [group_chain] in *. destruct rest as [|r2 rest']; [exact C |].
  destruct C as (-> & Hn & C).
  assert (Hr : r <> 1) by lia.
  rewrite (Hsame r (or_introl eq_refl) Hr).
  split; [reflexivity |]. split; [exact Hn |].
  apply IH; [| exact C]. intros r' Hin. apply Hsame. right. exact Hin.
Qed.

Lemma group_chain_head (m : pool) (roots : list Z) (idx : Z) :
  group_chain m idx roots ->
  roots <> [] /\ (idx = 0 \/ (In (idx + 1) roots /\ idx + 1 <> 1)).
Proof.
  destruct roots as [|r rest]; cbn [group_chain]; [contradiction |].
  intro C. split; [discriminate |].
  destruct rest as [|r2 rest'].
  - left. apply C.
  - destruct C as (-> & Hn & _). right. split; [left; lia | lia].
Qed.

Lemma get_group_loop_chain (m : pool) (h : Z) (roots : list Z) :
  (forall r, In r roots -> r <> 1 -> in_pool cfg (r - 1) = true) ->
  forall (fuel : nat) (idx : Z),
    group_chain m idx roots -> (Z.to_nat idx < fuel)%nat ->
    get_group_loop cfg fuel m h idx = Ret (newest_group m h roots).
Proof.
  induction roots as [|r rest IH]; intros Hpool fuel idx C Hfuel;
    [contradiction |].
  destruct fuel as [|fuel]; [lia |].
  cbn [group_chain newest_group get_group_loop] in *.
  destruct rest as [|r2 rest'].
  - destruct C as [_ ->]. reflexivity.
  - destruct C as (-> & Hn & C).
    replace (r - 1 =? 0) with false by (symmetry; apply Z.eqb_neq; lia).
    rewrite (Hpool r (or_introl eq_refl) ltac:(lia)). cbn [negb].
    destruct (hash (m (r - 1)) =? h); [reflexivity |].
    apply IH; [| exact C | lia].
    intros r' Hin. apply Hpool. right. exact Hin.
Qed.

(** ** The invariant of the reachable states *)

Lemma get_backend_kept (s : binder) (h j x : Z) :
  get_backend s j = Some x ->
  get_backend (snd (add_backend cfg s h)) j = Some x.
Proof.
  unfold get_backend, add_backend.
  destruct (j <? 0); [discriminate |].
  destruct (backend_position (m_backends s) h 0); [auto |].
  destruct (Z.of_nat (length (m_backends s)) <? backend_capacity cfg); [| auto].
  cbn [snd m_backends]. intro E. rewrite nth_error_app1; [exact E |].
  apply nth_error_Some. congruence.
Qed.

Lemma add_backend_nodup (s : binder) (h : Z) :
  NoDup (m_backends s) -> NoDup (m_backends (snd (add_backend cfg s h))).
Proof.
  unfold add_backend.
  destruct (backend_position (m_backends s) h 0) as [b |] eqn:E; [auto |].
  apply backend_position_missing in E.
  destruct (Z.of_nat (length (m_backends s)) <? backend_capacity cfg);
    cbn [snd m_backends]; [| auto].
  intro N. apply NoDup_app; [exact N | repeat constructor; intros [] |].
  intros x Hx [<- | []]. contradiction.
Qed.

Lemma bind_cursor (s s' : binder) (group : Z) (chord : list Z) (handler i : Z)
    (ok : bool) :
  bind cfg s group chord handler i = Ret (ok, s') ->
  m_next_node s <= m_next_node s'.
Proof.
  unfold bind.
  destruct (capacity cfg <=? group); [intro H; injection H as _ <-; lia |].
  destruct (has_high_byte chord); [intro H; injection H as _ <-; lia |].
  destruct (translate_chord 64 chord (translated0 cfg)) as [t |];
    [| intro H; injection H as _ <-; lia].
  destruct (negb ((0 <=? tr_end t) && (tr_end t <? 64))); [discriminate |].
  destruct (add_backend_nodes cfg s handler) as [_ Hcur].
  destruct (add_backend cfg s handler) as [b s1]. cbn [snd] in Hcur.
  destruct (b <? 0); [intro H; injection H as _ <-; lia |].
  intro E. apply bind_keys_cursor in E. lia.
Qed.

Lemma new_binder_sound (mem : pool) :
  2 <= capacity cfg ->
  sound cfg (fun x => x = 1) (fun _ => 0) (new_binder mem) [1].
Proof.
  intro Hcap. constructor.
  - apply new_binder_wf. exact Hcap.
  - intros r [<- | []]. split; reflexivity.
  - intros x -> H. unfold new_binder in H. cbn [m_nodes] in H.
    rewrite upd_same in H. discriminate.
  - intros x -> H. unfold new_binder in H. cbn [m_nodes] in H.
    rewrite upd_same in H. discriminate.
  - constructor.
  - unfold new_binder. cbn [m_nodes group_chain].
    rewrite upd_other by lia. rewrite upd_same. split; reflexivity.
  - intros r [<- | []] H. contradiction.
Qed.

Lemma bind_sound (T : Z -> Prop) (par : Z -> Z) (s s' : binder) (roots : list Z)
    (group : Z) (chord : list Z) (handler i : Z) (ok : bool) :
  sound cfg T par s roots -> In group roots ->
  bind cfg s group chord handler i = Ret (ok, s') ->
  exists T' par', sound cfg T' par' s' roots /\ (forall x, T x -> T' x).
Proof.
  intros [W Hroots Hback Hdepth Hnodup Hchain Hgn] Hin E.
  destruct (Hroots _ Hin) as [Tg Hpg].
  pose proof (bind_cursor s s' group chord handler i ok E) as Hcur.
  destruct (bind_effect T par s s' group chord handler i ok W Tg E)
    as (T' & par' & W' & Sub & Par & Fresh & Ext & Out & Back & Rest).
  assert (Hmono : forall j y, get_backend s j = Some y -> get_backend s' j = Some y).
  { intros j y Hj. destruct Back as [B | B].
    - unfold get_backend in *. rewrite B. exact Hj.
    - apply (get_backend_kept s handler) in Hj. unfold get_backend in *.
      rewrite B. exact Hj. }
  assert (Hnew : forall x, T' x -> ~ T x \/ T x).
  { intros x Tx'. destruct (Fresh x Tx') as [Tx | Hge]; [right; exact Tx |].
    left. intro Tx. destruct (wf_range _ _ _ _ W x Tx). lia. }
  assert (Hold : forall x, T x -> same_binding (m_nodes s) (m_nodes s') x ->
            bound (m_nodes s' x) = true ->
            (exists handler0, get_backend s' (backend (m_nodes s' x)) = Some handler0) /\
            depth (m_nodes s' x) = level par' x).
  { intros x Tx (Hb & Hk & Hd & _) Hbx. rewrite Hb in Hbx. split.
    - destruct (Hback x Tx Hbx) as (h0 & Hh0). exists h0. rewrite Hk.
      apply Hmono. exact Hh0.
    - rewrite Hd, (level_agree T par par' s W Par x Tx). exact (Hdepth x Tx Hbx). }
  assert (Hboth : forall x, T' x -> bound (m_nodes s' x) = true ->
            (exists handler0, get_backend s' (backend (m_nodes s' x)) = Some handler0) /\
            depth (m_nodes s' x) = level par' x).
  { intros x Tx' Hbx. destruct ok.
    - destruct Rest as (t0 & h & t & Htr & Hb0 & Hget & Epath & Th & Hbh & Tt & Hpt
                        & Hth & Hkt & Hcar & Hfree & Hsame & Hunb).
      destruct (Z.eq_dec x t) as [-> | Hxt].
      + destruct Hcar as (_ & _ & Hcb & _ & Hcd). split.
        * exists handler. rewrite Hcb. exact Hget.
        * rewrite Hcd.
          assert (Hh0 : h <> 0) by (destruct (wf_range _ _ _ _ W' h Th); lia).
          pose proof (level_path T' par' s' _ W' group h (Sub _ Tg) Epath Hh0) as L.
          rewrite (level_root par' group) in L by (rewrite (Par _ Tg); exact Hpg).
          destruct Hth as [-> | Hne]; [lia |].
          rewrite (level_step T' par' s' t W' Tt ltac:(congruence)).
          rewrite (level_step T' par' s' h W' Th Hne) in L. rewrite Hpt. lia.
      + destruct (Hnew x Tx') as [Hn | Tx].
        * rewrite (Hunb x Tx' Hn Hxt) in Hbx. discriminate.
        * exact (Hold x Tx (Hsame x Tx Hxt) Hbx).
    - destruct Rest as [Hsame Hunb].
      destruct (Hnew x Tx') as [Hn | Tx].
      + rewrite (Hunb x Tx' Hn) in Hbx. discriminate.
      + exact (Hold x Tx (Hsame x Tx) Hbx). }
  exists T', par'. split; [| exact Sub].
  constructor.
  - exact W'.
  - intros r Hr. destruct (Hroots r Hr) as [Tr Hpr].
    split; [exact (Sub r Tr) | rewrite (Par r Tr); exact Hpr].
  - intros x Tx' Hbx. exact (proj1 (Hboth x Tx' Hbx)).
  - intros x Tx' Hbx. exact (proj2 (Hboth x Tx' Hbx)).
  - destruct Back as [B | B]; rewrite B; [exact Hnodup |].
    apply add_backend_nodup. exact Hnodup.
  - pose proof (wf_cursor _ _ _ _ W) as Hc2.
    assert (H0 : ~ T 0) by (intro T0; destruct (wf_range _ _ _ _ W 0 T0); lia).
    rewrite (Out 0 H0 ltac:(lia)).
    apply (group_chain_agree (m_nodes s)); [| exact Hchain].
    intros r Hr Hr1. destruct (Hgn r Hr Hr1) as (Hn & Hrange & _).
    apply Out; [exact Hn | lia].
  - intros r Hr Hr1. destruct (Hgn r Hr Hr1) as (Hn & Hrange & Hcap).
    split; [| split; [lia | exact Hcap]].
    intro Tx'. destruct (Fresh _ Tx') as [Tx | Hge]; [contradiction | lia].
Qed.

Lemma create_group_sound (T : Z -> Prop) (par : Z -> Z) (s s' : binder)
    (roots : list Z) (name : list Z) (r : Z) :
  sound cfg T par s roots ->
  create_group cfg s name = Ret (r, s') ->
  exists T' par',
    sound cfg T' par' s' (if r <? 0 then roots else r :: roots) /\
    (forall x, T x -> T' x) /\
    (forall x, T x -> m_nodes s' x = m_nodes s x).
Proof.
  intros [W Hroots Hback Hdepth Hnodup Hchain Hgn] E.
  pose proof W as [Wc Wr Wp Wch Wn Wl].
  apply create_group_inv in E.
  destruct E as [(-> & -> & _) | (-> & Hc0 & Hlt & Hcur & Hbk & Hm)].
  - exists T, par. cbn [Z.ltb Z.compare]. split; [| split; [auto | reflexivity]].
    constructor; cbn [m_nodes m_next_node m_backends]; auto.
    + exact (gr_wf _ _ _ _ _ _ _ (cursor_bump_grows cfg T par s 2 W ltac:(lia))).
    + intros r Hr Hr1. destruct (Hgn r Hr Hr1) as (Hn & Hrange & Hcap).
      split; [exact Hn |]. split; [lia | exact Hcap].
  - cbv zeta in Hm. set (c := m_next_node s) in *.
    replace (c + 1 <? 0) with false by (symmetry; apply Z.ltb_ge; lia).
    assert (Hold : forall x, T x -> m_nodes s' x = m_nodes s x).
    { intros x Tx. destruct (Wr x Tx) as [Hx _]. rewrite Hm.
      rewrite (upd_other _ (c + 1) x) by lia. rewrite (upd_other _ 0 x) by lia.
      rewrite (upd_other _ c x) by lia. apply upd_other. lia. }
    assert (Hother : forall x, x <> 0 -> x <> c -> x <> c + 1 ->
              m_nodes s' x = m_nodes s x).
    { intros x H0 H1 H2. rewrite Hm.
      rewrite (upd_other _ (c + 1) x) by lia. rewrite (upd_other _ 0 x) by lia.
      rewrite (upd_other _ c x) by lia. apply upd_other. lia. }
    assert (Hroot : m_nodes s' (c + 1) = zero_node) by (rewrite Hm; apply upd_same).
    assert (Hzero : next (m_nodes s' 0) = c).
    { rewrite Hm. rewrite (upd_other _ (c + 1) 0) by lia. rewrite upd_same.
      reflexivity. }
    assert (Hlist : next (m_nodes s' c) = next (m_nodes s 0)).
    { rewrite Hm. rewrite (upd_other _ (c + 1) c) by lia.
      rewrite (upd_other _ 0 c) by lia. rewrite upd_same. cbn [next set_next].
      rewrite (upd_other _ c 0) by lia. reflexivity. }
    assert (Hne : forall x, T x -> (x =? c + 1) = false).
    { intros x Tx. destruct (Wr x Tx). apply Z.eqb_neq. lia. }
    set (T' := fun x => T x \/ x = c + 1).
    set (par' := fun x => if x =? c + 1 then 0 else par x).
    assert (Par : forall x, T x -> par' x = par x)
      by (intros x Tx; unfold par'; rewrite (Hne x Tx); reflexivity).
    assert (W' : wf cfg T' par' s').
    { constructor.
      - lia.
      - intros x [Tx | ->]; [destruct (Wr x Tx); lia | lia].
      - intros x [Tx | ->]; unfold par';
          [rewrite (Hne x Tx); auto | rewrite Z.eqb_refl; lia].
      - intros x [Tx | ->].
        + rewrite (Hold x Tx). destruct (Wch x Tx) as [E | [Tc E]]; [left; exact E |].
          right. split; [left; exact Tc |]. rewrite (Par _ Tc). exact E.
        + left. rewrite Hroot. reflexivity.
      - intros x [Tx | ->].
        + rewrite (Hold x Tx), (Par x Tx).
          destruct (Wn x Tx) as [E | (Tn & Hl & E)]; [left; exact E |].
          right. split; [left; exact Tn |]. split; [exact Hl |].
          rewrite (Par _ Tn). exact E.
        + left. rewrite Hroot. unfold par'. rewrite Z.eqb_refl. reflexivity.
      - intros x [Tx | ->].
        + rewrite (Par x Tx).
          destruct (Wl x Tx) as [E | [Tp C]]; [left; exact E |].
          right. split; [left; exact Tp |].
          apply (on_chain_preserved cfg T par s _ _ _ W Tp); [| exact C].
          intros y Ty. rewrite (Hold y Ty). auto.
        + left. unfold par'. rewrite Z.eqb_refl. reflexivity. }
    exists T', par'. split; [| split; [intros x Tx; left; exact Tx | exact Hold]].
    destruct (group_chain_head _ _ _ Hchain) as [Hne0 Hhead].
    constructor.
    + exact W'.
    + intros r [<- | Hr].
      * split; [right; reflexivity | unfold par'; rewrite Z.eqb_refl; reflexivity].
      * destruct (Hroots r Hr) as [Tr Hpr]. split; [left; exact Tr |].
        rewrite (Par r Tr). exact Hpr.
    + intros x [Tx | ->] Hb.
      * rewrite (Hold x Tx) in Hb |- *. destruct (Hback x Tx Hb) as (h0 & Hh0).
        exists h0. unfold get_backend in *. rewrite Hbk. exact Hh0.
      * rewrite Hroot in Hb. discriminate.
    + intros x [Tx | ->] Hb.
      * rewrite (Hold x Tx) in Hb |- *.
        rewrite (level_agree T par par' s W Par x Tx). exact (Hdepth x Tx Hb).
      * rewrite Hroot in Hb. discriminate.
    + rewrite Hbk. exact Hnodup.
    + rewrite Hzero. cbn [group_chain].
      destruct roots as [|r0 rest0]; [contradiction |].
      split; [lia |]. rewrite Hlist.
      split.
      * destruct Hhead as [-> | [Hin H1]]; [lia |].
        destruct (Hgn _ Hin H1) as (_ & Hrange & _). lia.
      * apply (group_chain_agree (m_nodes s)); [| exact Hchain].
        intros r Hr Hr1. destruct (Hgn r Hr Hr1) as (_ & Hrange & _).
        apply Hother; lia.
    + intros r [<- | Hr] Hr1.
      * replace (c + 1 - 1) with c by lia. split; [| lia].
        intros [Tc | Hc]; [destruct (Wr c Tc); lia | lia].
      * destruct (Hgn r Hr Hr1) as (Hn & Hrange & Hcap).
        split; [| split; [lia | exact Hcap]].
        intros [Tx | Hx]; [contradiction | lia].
Qed.

Lemma reachable_sound (s : binder) (roots : list Z) :
  2 <= capacity cfg ->
  reachable cfg s roots ->
  exists T par, sound cfg T par s roots.
Proof.
  intros Hcap R. induction R as
    [mem | s roots name r s' R IH E | s roots group chord handler i ok s' R IH Hin E].
  - exists (fun x => x = 1), (fun _ => 0). apply new_binder_sound. exact Hcap.
  - destruct IH as (T & par & S).
    destruct (create_group_sound T par s s' roots name r S E) as (T' & par' & S' & _).
    exists T', par'. exact S'.
  - destruct IH as (T & par & S).
    destruct (bind_sound T par s s' roots group chord handler i ok S Hin E)
      as (T' & par' & S' & _).
    exists T', par'. exact S'.
Qed.

(** ** What a client can rely on *)

Lemma sound_trie_node (T : Z -> Prop) (par : Z -> Z) (s : binder)
    (roots : list Z) (x : Z) :
  sound cfg T par s roots -> trie_node s roots x -> T x.
Proof.
  intros S N. apply (trie_node_wf cfg T par s roots x (sd_wf _ _ _ _ _ S)); [| exact N].
  intros r Hr. exact (proj1 (sd_roots _ _ _ _ _ S r Hr)).
Qed.

(** X13.  After a call of [bind] that returned [true] on a reachable state,
    the translated keys of the chord lead from the group root to a bound
    node; the node that carries the new binding is that node or a sibling on
    its chain, has its key, the number of keys as depth and the given id, and
    its handler index reads back the handler. *)
Theorem bind_success_resolves (s s' : binder) (roots : list Z) (group : Z)
    (chord : list Z) (handler i : Z) :
  2 <= capacity cfg -> reachable cfg s roots -> In group roots ->
  bind cfg s group chord handler i = Ret (true, s') ->
  exists t0 h t,
    translate_chord 64 chord (translated0 cfg) = Some t0 /\
    let keys := c_string (tr_out t0) in
    let b := fst (add_backend cfg s handler) in
    get_backend s' b = Some handler /\
    find_path cfg s' group keys = Ret h /\ h <> 0 /\
    bound (m_nodes s' h) = true /\
    (keys <> [] -> key (m_nodes s' h) = last keys 0) /\
    (t = h \/ exists p, on_chain (m_nodes s') p h /\ on_chain (m_nodes s') p t) /\
    carries (m_nodes s') t (key (m_nodes s' h)) b i (Z.of_nat (length keys)).
Proof.
  intros Hcap R Hin E.
  destruct (reachable_wf cfg s roots Hcap R) as (T & par & W & Hroots).
  pose proof (Hroots _ Hin) as Tg.
  destruct (bind_effect T par s s' group chord handler i true W Tg E)
    as (T' & par' & W' & Sub & Par & _ & _ & _ & _ & Rest).
  destruct Rest as (t0 & h & t & Htr & Hb0 & Hget & Epath & Th & Hbh & Tt & Hpt
                    & Hth & Hkt & Hcar & _).
  assert (Hh0 : h <> 0) by (destruct (wf_range _ _ _ _ W' h Th); lia).
  exists t0, h, t. split; [exact Htr |]. cbv zeta.
  split; [exact Hget |]. split; [exact Epath |]. split; [exact Hh0 |].
  split; [exact Hbh |].
  split.
  { intro Hne.
    destruct (find_path_last cfg T' par' s' _ W' group h (Sub _ Tg) Epath Hh0 Hne)
      as (p & Tp & _ & Ef).
    exact (proj2 (proj2 (find_child_found cfg T' par' s' p _ h W' Tp Ef Hh0))). }
  split; [| rewrite <- Hkt; exact Hcar].
  destruct Hth as [-> | Hne]; [left; reflexivity | right].
  exists (par' h).
  destruct (wf_linked _ _ _ _ W' h Th) as [E0 | [_ Ch]]; [contradiction |].
  destruct (wf_linked _ _ _ _ W' t Tt) as [E0 | [_ Ct]]; [congruence |].
  rewrite Hpt in Ct. split; assumption.
Qed.

(** X14.  A binding, once committed, stays: whatever a later [bind] on a
    group handle returns, and whatever [create_group] returns, a bound trie
    node keeps its key, its handler index, its id and its depth. *)
Theorem bindings_are_kept (s : binder) (roots : list Z) (x : Z) :
  2 <= capacity cfg -> reachable cfg s roots ->
  trie_node s roots x -> bound (m_nodes s x) = true ->
  (forall group chord handler i ok s',
     In group roots -> bind cfg s group chord handler i = Ret (ok, s') ->
     same_binding (m_nodes s) (m_nodes s') x /\
     key (m_nodes s' x) = key (m_nodes s x)) /\
  (forall name r s',
     create_group cfg s name = Ret (r, s') -> m_nodes s' x = m_nodes s x).
Proof.
  intros Hcap R N Hb.
  destruct (reachable_sound s roots Hcap R) as (T & par & S).
  pose proof (sd_wf _ _ _ _ _ S) as W.
  pose proof (sound_trie_node T par s roots x S N) as Tx.
  split.
  - intros group chord handler i ok s' Hin E.
    destruct (bind_effect T par s s' group chord handler i ok W
                (proj1 (sd_roots _ _ _ _ _ S _ Hin)) E)
      as (T' & par' & _ & _ & _ & _ & Ext & _ & _ & Rest).
    split; [| exact (ext_key _ _ _ _ Ext x Tx)].
    destruct ok.
    + destruct Rest as (t0 & h & t & _ & _ & _ & _ & _ & _ & _ & _ & _ & _ & _
                        & Hfree & Hsame & _).
      apply Hsame; [exact Tx |]. intros ->. rewrite (Hfree Tx) in Hb. discriminate.
    + exact (proj1 Rest x Tx).
  - intros name r s' E.
    destruct (create_group_sound T par s s' roots name r S E) as (_ & _ & _ & _ & Hold).
    exact (Hold x Tx).
Qed.

(** X15.  A chord that resolves keeps resolving to the same node: neither a
    later [bind] on a group handle, successful or not, nor [create_group]
    changes the result of a walk that found a node. *)
Theorem lookups_are_kept (s : binder) (roots : list Z) (root : Z)
    (keys : list Z) (h : Z) :
  2 <= capacity cfg -> reachable cfg s roots -> In root roots ->
  find_path cfg s root keys = Ret h -> h <> 0 ->
  (forall group chord handler i ok s',
     In group roots -> bind cfg s group chord handler i = Ret (ok, s') ->
     find_path cfg s' root keys = Ret h) /\
  (forall name r s',
     create_group cfg s name = Ret (r, s') ->
     find_path cfg s' root keys = Ret h).
Proof.
  intros Hcap R Hin Epath Hh.
  destruct (reachable_sound s roots Hcap R) as (T & par & S).
  pose proof (sd_wf _ _ _ _ _ S) as W.
  pose proof (proj1 (sd_roots _ _ _ _ _ S _ Hin)) as Tr.
  split.
  - intros group chord handler i ok s' Hg E.
    destruct (bind_effect T par s s' group chord handler i ok W
                (proj1 (sd_roots _ _ _ _ _ S _ Hg)) E)
      as (T' & par' & _ & _ & _ & _ & Ext & _).
    exact (find_path_stable cfg T par s s' keys W Ext root h Tr Epath Hh).
  - intros name r s' E.
    destruct (create_group_sound T par s s' roots name r S E) as (_ & _ & _ & _ & Hold).
    apply (find_path_stable cfg T par s s' keys W); try assumption.
    constructor; intros y Ty; rewrite (Hold y Ty); auto.
Qed.



(** X17.  In a reachable state the depth stored in a bound node is the
    length of the key sequence that leads to it from its group root. *)
Theorem bound_depth_is_path_length (s : binder) (roots : list Z) (root : Z)
    (keys : list Z) (h : Z) :
  2 <= capacity cfg -> reachable cfg s roots -> In root roots ->
  find_path cfg s root keys = Ret h -> h <> 0 ->
  bound (m_nodes s h) = true ->
  depth (m_nodes s h) = Z.of_nat (length keys).
Proof.
  intros Hcap R Hin Epath Hh Hb.
  destruct (reachable_sound s roots Hcap R) as (T & par & S).
  pose proof (sd_wf _ _ _ _ _ S) as W.
  destruct (sd_roots _ _ _ _ _ S _ Hin) as [Tr Hpr].
  pose proof (find_path_wf cfg T par s keys W root h Tr Epath Hh) as Th.
  rewrite (sd_depth _ _ _ _ _ S h Th Hb).
  rewrite (level_path T par s keys W root h Tr Epath Hh).
  rewrite (level_root par root Hpr). lia.
Qed.

(** X18.  In a reachable state the handler index of every bound trie node
    is an index of the registry, and the registry holds no handler twice. *)
Theorem bound_backend_is_registered (s : binder) (roots : list Z) (x : Z) :
  2 <= capacity cfg -> reachable cfg s roots ->
  trie_node s roots x -> bound (m_nodes s x) = true ->
  (exists handler, get_backend s (backend (m_nodes s x)) = Some handler) /\
  NoDup (m_backends s).
Proof.
  intros Hcap R N Hb.
  destruct (reachable_sound s roots Hcap R) as (T & par & S).
  split; [| exact (sd_nodup _ _ _ _ _ S)].
  exact (sd_backend _ _ _ _ _ S x (sound_trie_node T par s roots x S N) Hb).
Qed.

(** X19.  In a reachable state every trie node lies inside the pool and
    below the cursor, and its [child] and [next] are indices of the pool; a
    [child] is 0 or a later slot. *)
Theorem trie_indices_in_pool (s : binder) (roots : list Z) (x : Z) :
  2 <= capacity cfg -> reachable cfg s roots -> trie_node s roots x ->
  1 <= x < capacity cfg /\ x < m_next_node s /\
  0 <= next (m_nodes s x) < capacity cfg /\
  0 <= child (m_nodes s x) < capacity cfg /\
  (child (m_nodes s x) = 0 \/ x < child (m_nodes s x)).
Proof.
  intros Hcap R N.
  destruct (reachable_wf cfg s roots Hcap R) as (T & par & W & Hroots).
  pose proof (trie_node_wf cfg T par s roots x W Hroots N) as Tx.
  destruct (wf_range _ _ _ _ W x Tx) as [Hx Hxc].
  destruct (wf_par _ _ _ _ W x Tx) as [Hp0 Hp].
  split; [lia |]. split; [lia |]. split.
  - destruct (wf_next _ _ _ _ W x Tx) as [E | (Tn & _ & _)]; [lia |].
    destruct (wf_range _ _ _ _ W _ Tn). lia.
  - destruct (wf_child _ _ _ _ W x Tx) as [E | [Tc Hpc]].
    + rewrite E. split; [lia | left; reflexivity].
    + destruct (wf_range _ _ _ _ W _ Tc). destruct (wf_par _ _ _ _ W _ Tc).
      split; [lia | right; lia].
Qed.

(** ** Finding a group *)

Lemma newest_group_spec (m : pool) (h : Z) (roots : list Z) :
  forall idx, group_chain m idx roots ->
    let g := newest_group m h roots in
    (g = -1 /\ forall r, In r roots -> r <> 1 -> hash (m (r - 1)) <> h) \/
    (In (g + 1) roots /\ g + 1 <> 1 /\ hash (m g) = h).
Proof.
  induction roots as [|r rest IH]; intros idx C; [contradiction |].
  cbn [group_chain newest_group] in *.
  destruct rest as [|r2 rest'].
  - destruct C as [-> _]. left. split; [reflexivity |].
    intros r [<- | []] H. contradiction.
  - destruct C as (-> & Hn & C).
    destruct (Z.eqb_spec (hash (m (r - 1))) h) as [E | E].
    + right. replace (r - 1 + 1) with r by lia.
      split; [left; reflexivity |]. split; [lia | exact E].
    + destruct (IH _ C) as [[Hg Hno] | (Hin & H1 & Hh)].
      * left. split; [exact Hg |].
        intros r' [<- | Hr'] Hr1; [exact E | exact (Hno r' Hr' Hr1)].
      * right. split; [right; exact Hin |]. split; [exact H1 | exact Hh].
Qed.

(** X20.  In a reachable state [get_group] of a non-empty name returns, and
    what it returns is the list node of the newest group whose stored hash
    is the hash of the name (the slot in front of that group's root), or -1
    when no group has that hash. *)
Theorem get_group_finds_newest (s : binder) (roots : list Z) (name : list Z) :
  2 <= capacity cfg -> reachable cfg s roots -> hd 0 name <> 0 ->
  let g := newest_group (m_nodes s) (str_hash cfg name) roots in
  get_group cfg s (Some name) = Ret g /\
  ((g = -1 /\
    forall r, In r roots -> r <> 1 ->
      hash (m_nodes s (r - 1)) <> str_hash cfg name) \/
   (In (g + 1) roots /\ g + 1 <> 1 /\ hash (m_nodes s g) = str_hash cfg name)).
Proof.
  intros Hcap R Hname.
  destruct (reachable_sound s roots Hcap R) as (T & par & S).
  pose proof (sd_groups _ _ _ _ _ S) as C.
  assert (Hpool : forall x, 0 <= x < capacity cfg -> in_pool cfg x = true).
  { intros x Hx. unfold in_pool. apply andb_true_intro. split;
      [apply Z.leb_le | apply Z.ltb_lt]; lia. }
  split; [| exact (newest_group_spec _ _ _ _ C)].
  unfold get_group. apply Z.eqb_neq in Hname. rewrite Hname.
  rewrite Hpool by lia. cbn [negb].
  apply get_group_loop_chain; [| exact C |].
  - intros r Hr Hr1. destruct (sd_group_nodes _ _ _ _ _ S r Hr Hr1) as (_ & H2 & H3).
    apply Hpool. lia.
  - destruct (group_chain_head _ _ _ C) as [_ [-> | [Hin H1]]];
      [unfold pool_fuel; lia |].
    destruct (sd_group_nodes _ _ _ _ _ S _ Hin H1) as (_ & H2 & H3).
    unfold pool_fuel. lia.
Qed.

(** ** The sibling list *)

Lemma siblings_loop_find (m : pool) (p k : Z) :
  forall (fuel : nat) (idx : Z) (l : list Z),
    siblings_loop fuel m p idx = Ret l ->
    find_child_loop fuel m p k idx = Ret (first_with_key m k l).
Proof.
  induction fuel as [|fuel IH]; intros idx l E; [discriminate |].
  cbn [siblings_loop find_child_loop] in *.
  destruct (idx >? p); [| injection E as <-; reflexivity].
  destruct (siblings_loop fuel m p (next (m idx))) as [l' | |] eqn:E';
    cbn [obind] in E; try discriminate.
  injection E as <-. cbn [first_with_key].
  destruct (key (m idx) =? k); [reflexivity | exact (IH _ _ E')].
Qed.

Lemma siblings_loop_wf (T : Z -> Prop) (par : Z -> Z) (s : binder) (p : Z) :
  wf cfg T par s -> T p ->
  forall (fuel : nat) (idx : Z),
    (T idx /\ par idx = p /\ (Z.to_nat (capacity cfg - idx) + 1 < fuel)%nat) \/
    (idx <= p /\ (0 < fuel)%nat) ->
    exists l,
      siblings_loop fuel (m_nodes s) p idx = Ret l /\
      Forall (fun x => idx <= x /\ p < x) l /\ StronglySorted Z.lt l.
Proof.
  intros W Tp. induction fuel as [|fuel IH]; intros idx Hidx; [lia |].
  cbn [siblings_loop].
  destruct Hidx as [(Ti & Hpi & Hfuel) | (Hle & _)].
  - destruct (wf_par _ _ _ _ W idx Ti) as [_ Hlt].
    destruct (wf_range _ _ _ _ W idx Ti) as [_ Hcap].
    rewrite gtb_true by lia.
    assert (Hnext : (T (next (m_nodes s idx)) /\ par (next (m_nodes s idx)) = p /\
                     (Z.to_nat (capacity cfg - next (m_nodes s idx)) + 1 < fuel)%nat /\
                     idx < next (m_nodes s idx)) \/
                    (next (m_nodes s idx) <= p /\ (0 < fuel)%nat)).
    { destruct (wf_next _ _ _ _ W idx Ti) as [Hback | (Tn & Hn & Hpn)].
      - right. split; lia.
      - left. split; [assumption |]. split; [congruence |].
        destruct (wf_range _ _ _ _ W _ Tn). split; lia. }
    destruct Hnext as [(Tn & Hpn & Hf & Hgt) | Hend].
    + destruct (IH (next (m_nodes s idx)) (or_introl (conj Tn (conj Hpn Hf))))
        as (l & E & Hall & Hsort).
      rewrite E. cbn [obind]. exists (idx :: l). split; [reflexivity |].
      split.
      * constructor; [lia |]. eapply Forall_impl; [| exact Hall].
        intros x [Hx1 Hx2]. lia.
      * constructor; [exact Hsort |]. eapply Forall_impl; [| exact Hall].
        intros x [Hx1 Hx2]. lia.
    + destruct (IH (next (m_nodes s idx)) (or_intror Hend)) as (l & E & Hall & Hsort).
      assert (l = []) as ->.
      { destruct fuel as [|fuel']; [lia |]. cbn [siblings_loop] in E.
        rewrite gtb_false in E by lia. injection E as <-. reflexivity. }
      rewrite E. cbn [obind]. exists [idx]. split; [reflexivity |].
      split; [constructor; [lia | constructor] | repeat constructor].
  - rewrite gtb_false by lia. exists []. split; [reflexivity |].
    split; constructor.
Qed.

Lemma siblings_loop_on_chain (m : pool) (p : Z) :
  forall (fuel : nat) (idx : Z) (l : list Z),
    siblings_loop fuel m p idx = Ret l ->
    idx <= p \/ on_chain m p idx ->
    forall x, In x l -> on_chain m p x.
Proof.
  induction fuel as [|fuel IH]; intros idx l E Hidx x Hx; [discriminate |].
  cbn [siblings_loop] in E.
  destruct (idx >? p) eqn:Hgt; [| injection E as <-; contradiction].
  rewrite Z.gtb_ltb in Hgt. apply Z.ltb_lt in Hgt.
  destruct Hidx as [Hle | C]; [lia |].
  destruct (siblings_loop fuel m p (next (m idx))) as [l' | |] eqn:E';
    cbn [obind] in E; try discriminate.
  injection E as <-. destruct Hx as [<- | Hx]; [exact C |].
  apply (IH _ _ E'); [| exact Hx].
  destruct (Z_le_gt_dec (next (m idx)) p) as [Hle | Hgt'];
    [left; exact Hle | right; apply on_chain_next; assumption].
Qed.

Lemma siblings_loop_next (m : pool) (p x : Z) :
  forall (fuel : nat) (idx : Z) (l : list Z),
    siblings_loop fuel m p idx = Ret l ->
    In x l -> next (m x) > p -> In (next (m x)) l.
Proof.
  induction fuel as [|fuel IH]; intros idx l E Hx Hn; [discriminate |].
  cbn [siblings_loop] in E.
  destruct (idx >? p); [| injection E as <-; contradiction].
  destruct (siblings_loop fuel m p (next (m idx))) as [l' | |] eqn:E';
    cbn [obind] in E; try discriminate.
  injection E as <-. right. destruct Hx as [<- | Hx].
  - destruct fuel as [|fuel']; [discriminate |]. cbn [siblings_loop] in E'.
    rewrite gtb_true in E' by lia.
    destruct (siblings_loop fuel' m p (next (m (next (m idx))))) as [l'' | |];
      cbn [obind] in E'; try discriminate.
    injection E' as <-. left. reflexivity.
  - exact (IH _ _ E' Hx Hn).
Qed.

Lemma first_with_key_zero (m : pool) (k : Z) (l : list Z) :
  Forall (fun x => x <> 0) l ->
  (first_with_key m k l = 0 <-> forall x, In x l -> key (m x) <> k).
Proof.
  induction l as [|a l IH]; intro H; cbn [first_with_key In].
  - split; [intros _ x [] | reflexivity].
  - inversion H as [|? ? Ha Hl]; subst.
    destruct (Z.eqb_spec (key (m a)) k) as [E | E].
    + split; [intro; contradiction | intro Hno; exfalso; exact (Hno a (or_introl eq_refl) E)].
    + rewrite (IH Hl). split.
      * intros Hno x [<- | Hx]; [exact E | exact (Hno x Hx)].
      * intros Hno x Hx. apply Hno. right. exact Hx.
Qed.

(** X21.  In a reachable state the sibling chain of a trie node is a finite,
    strictly increasing list of slots; [find_child] returns the first slot of
    that list whose key is the key asked for, and 0 exactly when no sibling
    has the key. *)
Theorem find_child_is_first_match (s : binder) (roots : list Z) (p : Z) :
  2 <= capacity cfg -> reachable cfg s roots -> trie_node s roots p ->
  exists l,
    siblings cfg s p = Ret l /\
    StronglySorted Z.lt l /\
    (forall x, In x l <-> on_chain (m_nodes s) p x) /\
    (forall k, find_child cfg s p k = Ret (first_with_key (m_nodes s) k l)) /\
    (forall k, find_child cfg s p k = Ret 0 <->
               forall x, In x l -> key (m_nodes s x) <> k).
Proof.
  intros Hcap R N.
  destruct (reachable_wf cfg s roots Hcap R) as (T & par & W & Hroots).
  pose proof (trie_node_wf cfg T par s roots p W Hroots N) as Tp.
  destruct (wf_range _ _ _ _ W p Tp) as [Hp Hpc].
  assert (Hstart : (T (child (m_nodes s p)) /\ par (child (m_nodes s p)) = p /\
                    (Z.to_nat (capacity cfg - child (m_nodes s p)) + 1
                     < pool_fuel cfg)%nat) \/
                   (child (m_nodes s p) <= p /\ (0 < pool_fuel cfg)%nat)).
  { destruct (wf_child _ _ _ _ W p Tp) as [H0 | [Tc Hpc']].
    - right. rewrite H0. split; [lia | unfold pool_fuel; lia].
    - left. split; [assumption |]. split; [assumption |].
      destruct (wf_range _ _ _ _ W _ Tc). destruct (wf_par _ _ _ _ W _ Tc).
      unfold pool_fuel. lia. }
  destruct (siblings_loop_wf T par s p W Tp _ _ Hstart) as (l & E & Hall & Hsort).
  assert (Hfind : forall k, find_child cfg s p k = Ret (first_with_key (m_nodes s) k l)).
  { intro k. unfold find_child. apply siblings_loop_find. exact E. }
  exists l. split; [exact E |]. split; [exact Hsort |]. split; [| split; [exact Hfind |]].
  - intro x. split.
    + apply (siblings_loop_on_chain _ _ _ _ _ E).
      destruct (Z_le_gt_dec (child (m_nodes s p)) p) as [Hle | Hgt];
        [left; exact Hle | right; apply on_chain_first; exact Hgt].
    + intro C. induction C as [Hgt | x C IH Hgt].
      * unfold pool_fuel in E. cbn [siblings_loop] in E.
        rewrite gtb_true in E by lia.
        destruct (siblings_loop _ _ _ _) as [l' | |]; cbn [obind] in E;
          try discriminate.
        injection E as <-. left. reflexivity.
      * exact (siblings_loop_next _ _ _ _ _ _ E IH Hgt).
  - intro k. rewrite Hfind.
    assert (Hnz : Forall (fun x => x <> 0) l).
    { eapply Forall_impl; [| exact Hall]. intros x [_ Hx]. lia. }
    split.
    + intro H. injection H as H.
      exact (proj1 (first_with_key_zero _ _ _ Hnz) H).
    + intro Hno. f_equal. exact (proj2 (first_with_key_zero _ _ _ Hnz) Hno).
Qed.

(** ** bind and a malformed escape *)

(** X22.  A chord with a malformed Meta or Control escape makes [bind]
    return [false] and leaves the binder as it was. *)
Theorem bind_rejects_malformed_escape (s : binder) (group : Z)
    (pre rest : list Z) (m handler i : Z) :
  Forall plain pre -> (length pre <= 62)%nat ->
  m = LETTER_M \/ m = LETTER_C -> hd 0 rest <> DASH ->
  bind cfg s group (pre ++ BACKSLASH :: m :: rest) handler i = Ret (false, s).
Proof.
  intros Hp Hlen Hm Hd. unfold bind.
  destruct (capacity cfg <=? group); [reflexivity |].
  destruct (has_high_byte _); [reflexivity |].
  unfold translate_chord.
  rewrite (translate_loop_malformed pre 0 (translated0 cfg) rest m Hp
             ltac:(lia) ltac:(lia) Hm Hd).
  reflexivity.
Qed.

(** ** The constructor *)

(** X23.  A binder fresh from the constructor has an empty default group
    and no other group, whatever the memory held before: no named group is
    found, no chord of one key or more resolves in the default group, and its
    root is not bound. *)
Theorem new_binder_is_empty (mem : pool) :
  1 <= capacity cfg ->
  (forall name, hd 0 name <> 0 ->
     get_group cfg (new_binder mem) (Some name) = Ret (-1)) /\
  (forall k keys, find_path cfg (new_binder mem) 1 (k :: keys) = Ret 0) /\
  bound (m_nodes (new_binder mem) 1) = false.
Proof.
  intro Hcap. split; [| split].
  - intros name Hname. unfold get_group.
    apply Z.eqb_neq in Hname. rewrite Hname.
    assert (Hpool : in_pool cfg 0 = true).
    { unfold in_pool. apply andb_true_intro. split;
        [apply Z.leb_le | apply Z.ltb_lt]; lia. }
    rewrite Hpool. reflexivity.
  - intros k keys. reflexivity.
  - reflexivity.
Qed.

(** ** A call that fails *)

(** X24.  A [bind] that returns [false] binds nothing: a trie node that is
    bound afterwards was bound before, with the same key, handler index, id
    and depth, also when the call has used up nodes on the way. *)
Theorem failed_bind_binds_nothing (s s' : binder) (roots : list Z) (group : Z)
    (chord : list Z) (handler i : Z) :
  2 <= capacity cfg -> reachable cfg s roots -> In group roots ->
  bind cfg s group chord handler i = Ret (false, s') ->
  forall x, trie_node s' roots x -> bound (m_nodes s' x) = true ->
    bound (m_nodes s x) = true /\
    same_binding (m_nodes s) (m_nodes s') x /\
    key (m_nodes s' x) = key (m_nodes s x).
Proof.
  intros Hcap R Hin E x N Hb.
  destruct (reachable_sound s roots Hcap R) as (T & par & S).
  pose proof (sd_wf _ _ _ _ _ S) as W.
  destruct (bind_effect T par s s' group chord handler i false W
              (proj1 (sd_roots _ _ _ _ _ S _ Hin)) E)
    as (T' & par' & W' & Sub & _ & Fresh & Ext & _ & _ & Hsame & Hnew).
  assert (Tx' : T' x).
  { apply (trie_node_wf cfg T' par' s' roots x W'); [| exact N].
    intros r Hr. apply Sub. exact (proj1 (sd_roots _ _ _ _ _ S r Hr)). }
  assert (Tx : T x).
  { destruct (Fresh x Tx') as [Tx | Hge]; [exact Tx |].
    assert (Hno : ~ T x) by (intro Tx; destruct (wf_range _ _ _ _ W x Tx); lia).
    rewrite (Hnew x Tx' Hno) in Hb. discriminate. }
  pose proof (Hsame x Tx) as Hs.
  split; [| split; [exact Hs | exact (ext_key _ _ _ _ Ext x Tx)]].
  destruct Hs as [Hbound _]. congruence.
Qed.

End Further.

(** * The further properties on the concrete binder *)

Lemma bound_ab_node_a : trie_node bound_ab [1] 2.
Proof.
  apply (trie_child bound_ab [1] 1 2); [apply trie_root; left; reflexivity |].
  apply (on_chain_first (m_nodes bound_ab) 1). reflexivity.
Qed.

Lemma bound_ab_node_b : trie_node bound_ab [1] 3.
Proof.
  apply (trie_child bound_ab [1] 2 3); [exact bound_ab_node_a |].
  apply (on_chain_first (m_nodes bound_ab) 2). reflexivity.
Qed.

Lemma grouped_vi_reachable : reachable demo_cfg grouped_vi [3; 1].
Proof.
  apply (reach_create_group demo_cfg demo_binder [1] (cstr "vi") 3 grouped_vi).
  - apply reach_new.
  - reflexivity.
Qed.

Lemma translate_plain_chord_ab :
  exists t,
    translate_chord 64 (cstr "ab") (repeat 0 64) = Some t /\
    tr_end t = Z.of_nat (Nat.min (length (cstr "ab")) 63) /\
    c_string (tr_out t) = firstn 63 (cstr "ab") /\
    terminated_in_bounds 64 t.
Proof.
  apply (translate_plain_chord (cstr "ab") (repeat 0 64)).
  - repeat constructor; discriminate.
  - reflexivity.
Defined.

Lemma translate_terminator_index_ab :
  terminated_in_bounds 64 translation_ab \/ tr_end translation_ab = 65.
Proof.
  apply (translate_terminator_index (cstr "ab") (repeat 0 64) translation_ab).
  reflexivity.
Defined.

Lemma translate_without_backslash_ab :
  exists t,
    translate_chord 64 (cstr "ab") (repeat 0 64) = Some t /\
    terminated_in_bounds 64 t.
Proof.
  apply (translate_without_backslash (cstr "ab") (repeat 0 64)).
  cbn. intros [H | [H | []]]; discriminate.
Defined.

Lemma translate_malformed_escape_Mx :
  translate_chord 64 (cstr "a" ++ BACKSLASH :: LETTER_M :: cstr "x") (repeat 0 64)
  = None.
Proof.
  apply (translate_malformed_escape (cstr "a") (cstr "x") (repeat 0 64) LETTER_M).
  - repeat constructor; discriminate.
  - cbn; lia.
  - left; reflexivity.
  - cbn; discriminate.
Defined.

Lemma translate_nul_escape_cuts_a :
  c_string (tr_out translation_a_nul_b) = cstr "a".
Proof.
  apply (translate_nul_escape_cuts (cstr "a") (cstr "b") (repeat 0 64)
           translation_a_nul_b).
  - repeat constructor; discriminate.
  - cbn; lia.
  - reflexivity.
  - reflexivity.
Defined.

Lemma translate_literal_escape_backslash :
  translated_keys 64 (cstr "a" ++ [BACKSLASH; BACKSLASH]) (repeat 0 64)
  = Some (cstr "a" ++ [BACKSLASH]).
Proof.
  apply (translate_literal_escape (cstr "a") (repeat 0 64) BACKSLASH);
    try discriminate.
  - repeat constructor; discriminate.
  - cbn; lia.
  - reflexivity.
Defined.

Lemma translate_meta_form_x :
  translated_keys 64 (cstr "a" ++ [BACKSLASH; LETTER_M; DASH; code "x"])
    (repeat 0 64)
  = Some (cstr "a" ++ [ESC; code "x"]).
Proof.
  apply (translate_meta_form (cstr "a") (repeat 0 64) (code "x")).
  - repeat constructor; discriminate.
  - cbn; lia.
  - reflexivity.
  - repeat split; discriminate.
Defined.

Lemma add_backend_get_backend_fresh :
  let b := fst (add_backend demo_cfg demo_binder H1) in
  let s' := snd (add_backend demo_cfg demo_binder H1) in
  get_backend s' b = Some H1 /\
  add_backend demo_cfg s' H1 = (b, s') /\
  (forall j x, get_backend demo_binder j = Some x -> get_backend s' j = Some x).
Proof.
  apply (add_backend_get_backend demo_cfg demo_binder H1). cbn; lia.
Defined.

Lemma alloc_nodes_stays_failed_tiny :
  fst (alloc_nodes tiny_cfg (snd (alloc_nodes tiny_cfg demo_binder 2)) 1) = -1.
Proof.
  apply (alloc_nodes_stays_failed tiny_cfg demo_binder 2 1).
  - unfold in_uint_range, UINT_RANGE; cbn; lia.
  - lia.
  - lia.
  - reflexivity.
Defined.

Lemma cursor_only_advances_ab :
  (forall name r, create_group demo_cfg demo_binder name = Ret (r, bound_ab) ->
     m_next_node bound_ab = m_next_node demo_binder + 2) /\
  (forall group chord handler i ok,
     bind demo_cfg demo_binder group chord handler i = Ret (ok, bound_ab) ->
     m_next_node demo_binder <= m_next_node bound_ab /\
     forall t, translate_chord 64 chord (translated0 demo_cfg) = Some t ->
       m_next_node bound_ab
       <= m_next_node demo_binder + Z.of_nat (length (c_string (tr_out t))) + 1).
Proof.
  apply (cursor_only_advances demo_cfg demo_binder bound_ab).
  unfold in_uint_range, UINT_RANGE; cbn; lia.
Defined.

Lemma create_group_root_empty_vi :
  m_nodes grouped_vi 3 = zero_node /\
  (forall k, find_child demo_cfg grouped_vi 3 k = Ret 0) /\
  (forall k keys, find_path demo_cfg grouped_vi 3 (k :: keys) = Ret 0).
Proof.
  apply (create_group_root_empty demo_cfg demo_binder grouped_vi (cstr "vi") 3).
  - reflexivity.
  - lia.
Defined.

Lemma bind_success_resolves_ab :
  exists t0 h t,
    translate_chord 64 (cstr "ab") (translated0 demo_cfg) = Some t0 /\
    let keys := c_string (tr_out t0) in
    let b := fst (add_backend demo_cfg demo_binder H1) in
    get_backend bound_ab b = Some H1 /\
    find_path demo_cfg bound_ab 1 keys = Ret h /\ h <> 0 /\
    bound (m_nodes bound_ab h) = true /\
    (keys <> [] -> key (m_nodes bound_ab h) = last keys 0) /\
    (t = h \/ exists p, on_chain (m_nodes bound_ab) p h /\
                        on_chain (m_nodes bound_ab) p t) /\
    carries (m_nodes bound_ab) t (key (m_nodes bound_ab h)) b 1
      (Z.of_nat (length keys)).
Proof.
  apply (bind_success_resolves demo_cfg demo_binder bound_ab [1] 1 (cstr "ab") H1 1).
  - cbn; lia.
  - exact demo_binder_reachable.
  - left; reflexivity.
  - reflexivity.
Defined.

Lemma bindings_are_kept_ab :
  (forall group chord handler i ok s',
     In group [1] -> bind demo_cfg bound_ab group chord handler i = Ret (ok, s') ->
     same_binding (m_nodes bound_ab) (m_nodes s') 3 /\
     key (m_nodes s' 3) = key (m_nodes bound_ab 3)) /\
  (forall name r s',
     create_group demo_cfg bound_ab name = Ret (r, s') ->
     m_nodes s' 3 = m_nodes bound_ab 3).
Proof.
  apply (bindings_are_kept demo_cfg bound_ab [1] 3).
  - cbn; lia.
  - exact bound_ab_reachable.
  - exact bound_ab_node_b.
  - reflexivity.
Defined.

Lemma lookups_are_kept_ab :
  (forall group chord handler i ok s',
     In group [1] -> bind demo_cfg bound_ab group chord handler i = Ret (ok, s') ->
     find_path demo_cfg s' 1 (cstr "ab") = Ret 3) /\
  (forall name r s',
     create_group demo_cfg bound_ab name = Ret (r, s') ->
     find_path demo_cfg s' 1 (cstr "ab") = Ret 3).
Proof.
  apply (lookups_are_kept demo_cfg bound_ab [1] 1 (cstr "ab") 3).
  - cbn; lia.
  - exact bound_ab_reachable.
  - left; reflexivity.
  - reflexivity.
  - lia.
Defined.


Lemma bound_depth_is_path_length_ab :
  depth (m_nodes bound_ab 3) = Z.of_nat (length (cstr "ab")).
Proof.
  apply (bound_depth_is_path_length demo_cfg bound_ab [1] 1 (cstr "ab") 3).
  - cbn; lia.
  - exact bound_ab_reachable.
  - left; reflexivity.
  - reflexivity.
  - lia.
  - reflexivity.
Defined.

Lemma bound_backend_is_registered_ab :
  (exists handler,
     get_backend bound_ab (backend (m_nodes bound_ab 3)) = Some handler) /\
  NoDup (m_backends bound_ab).
Proof.
  apply (bound_backend_is_registered demo_cfg bound_ab [1] 3).
  - cbn; lia.
  - exact bound_ab_reachable.
  - exact bound_ab_node_b.
  - reflexivity.
Defined.

Lemma trie_indices_in_pool_ab :
  1 <= 3 < capacity demo_cfg /\ 3 < m_next_node bound_ab /\
  0 <= next (m_nodes bound_ab 3) < capacity demo_cfg /\
  0 <= child (m_nodes bound_ab 3) < capacity demo_cfg /\
  (child (m_nodes bound_ab 3) = 0 \/ 3 < child (m_nodes bound_ab 3)).
Proof.
  apply (trie_indices_in_pool demo_cfg bound_ab [1] 3).
  - cbn; lia.
  - exact bound_ab_reachable.
  - exact bound_ab_node_b.
Defined.

Lemma get_group_finds_newest_vi :
  let g := newest_group (m_nodes grouped_vi) (str_hash demo_cfg (cstr "vi")) [3; 1] in
  get_group demo_cfg grouped_vi (Some (cstr "vi")) = Ret g /\
  ((g = -1 /\
    forall r, In r [3; 1] -> r <> 1 ->
      hash (m_nodes grouped_vi (r - 1)) <> str_hash demo_cfg (cstr "vi")) \/
   (In (g + 1) [3; 1] /\ g + 1 <> 1 /\
    hash (m_nodes grouped_vi g) = str_hash demo_cfg (cstr "vi"))).
Proof.
  apply (get_group_finds_newest demo_cfg grouped_vi [3; 1] (cstr "vi")).
  - cbn; lia.
  - exact grouped_vi_reachable.
  - cbn; discriminate.
Defined.

Lemma find_child_is_first_match_abc :
  exists l,
    siblings demo_cfg bound_a_b_c 1 = Ret l /\
    StronglySorted Z.lt l /\
    (forall x, In x l <-> on_chain (m_nodes bound_a_b_c) 1 x) /\
    (forall k, find_child demo_cfg bound_a_b_c 1 k =
               Ret (first_with_key (m_nodes bound_a_b_c) k l)) /\
    (forall k, find_child demo_cfg bound_a_b_c 1 k = Ret 0 <->
               forall x, In x l -> key (m_nodes bound_a_b_c x) <> k).
Proof.
  apply (find_child_is_first_match demo_cfg bound_a_b_c [1] 1).
  - cbn; lia.
  - exact bound_a_b_c_reachable.
  - apply trie_root. left; reflexivity.
Defined.

(** On that state the walk passes the siblings 2 and 3 to find the key of
    slot 4, and finds no sibling for a fourth key. *)
Lemma find_child_on_three_siblings :
  find_child demo_cfg bound_a_b_c 1 (code "a") = Ret 2 /\
  find_child demo_cfg bound_a_b_c 1 (code "b") = Ret 3 /\
  find_child demo_cfg bound_a_b_c 1 (code "c") = Ret 4 /\
  find_child demo_cfg bound_a_b_c 1 (code "d") = Ret 0.
Proof. repeat split; reflexivity. Qed.

Lemma bind_rejects_malformed_escape_M :
  bind demo_cfg demo_binder 1 (cstr "a" ++ BACKSLASH :: LETTER_M :: []) H1 1
  = Ret (false, demo_binder).
Proof.
  apply (bind_rejects_malformed_escape demo_cfg demo_binder 1 (cstr "a") []
           LETTER_M H1 1).
  - repeat constructor; discriminate.
  - cbn; lia.
  - left; reflexivity.
  - cbn; discriminate.
Defined.

Lemma new_binder_is_empty_stale :
  (forall name, hd 0 name <> 0 ->
     get_group demo_cfg stale_binder (Some name) = Ret (-1)) /\
  (forall k keys, find_path demo_cfg stale_binder 1 (k :: keys) = Ret 0) /\
  bound (m_nodes stale_binder 1) = false.
Proof.
  apply (new_binder_is_empty demo_cfg stale_memory). cbn; lia.
Defined.

Lemma small_ab_reachable : reachable small_cfg small_ab [1].
Proof.
  apply (reach_bind small_cfg demo_binder [1] 1 (cstr "ab") H1 1 true).
  - apply reach_new.
  - left; reflexivity.
  - reflexivity.
Qed.

Lemma small_ab_ac_node_b : trie_node small_ab_ac [1] 3.
Proof.
  apply (trie_child small_ab_ac [1] 2 3).
  - apply (trie_child small_ab_ac [1] 1 2); [apply trie_root; left; reflexivity |].
    apply (on_chain_first (m_nodes small_ab_ac) 1). reflexivity.
  - apply (on_chain_first (m_nodes small_ab_ac) 2). reflexivity.
Qed.

Lemma failed_bind_binds_nothing_ac :
  bound (m_nodes small_ab 3) = true /\
  same_binding (m_nodes small_ab) (m_nodes small_ab_ac) 3 /\
  key (m_nodes small_ab_ac 3) = key (m_nodes small_ab 3).
Proof.
  apply (failed_bind_binds_nothing small_cfg small_ab small_ab_ac [1] 1
           (cstr "ac") H1 2).
  - cbn; lia.
  - exact small_ab_reachable.
  - left; reflexivity.
  - reflexivity.
  - exact small_ab_ac_node_b.
  - reflexivity.
Defined.
